(** * The GQL request engine of Twitch-Channel-Points-Miner-v2

    A shallow embedding of
    - [TwitchChannelPointsMiner/utils/AttemptStrategy.py] (the bounded retry
      engine),
    - [TwitchChannelPointsMiner/classes/gql/Errors.py] (the error taxonomy),
    - [TwitchChannelPointsMiner/classes/gql/Integration.py] (the request
      executor, the operation wrappers, the pagination and batching
      drivers),
    and the properties of the specification proved about them. *)

From stdpp Require Import gmap strings list.

Set Warnings "-register-all".

(** ** JSON values

    What [json.loads] produces and [requests.post(json=...)] serialises.
    A Python [dict] keeps its keys in insertion order, hence the association
    list. *)
Inductive json :=
| JNull
| JBool (b : bool)
| JInt (n : Z)
| JFloat (literal : string)
| JStr (s : string)
| JList (items : list json)
| JDict (fields : list (string * json)).

(** [type(value).__name__] *)
Definition type_name (value : json) : string :=
  match value with
  | JNull => "NoneType"
  | JBool _ => "bool"
  | JInt _ => "int"
  | JFloat _ => "float"
  | JStr _ => "str"
  | JList _ => "list"
  | JDict _ => "dict"
  end.

(** [d.get(key)] on the fields of a dict. *)
Fixpoint dict_get (key : string) (fields : list (string * json)) : option json :=
  match fields with
  | [] => None
  | (k, v) :: rest => if decide (k = key) then Some v else dict_get key rest
  end.

(** [d[key] = value]: an existing key keeps its position, a new key goes last. *)
Fixpoint dict_set (key : string) (value : json) (fields : list (string * json))
  : list (string * json) :=
  match fields with
  | [] => [(key, value)]
  | (k, v) :: rest =>
      if decide (k = key) then (k, value) :: rest
      else (k, v) :: dict_set key value rest
  end.

(** ** Errors.py *)

(** Modelled from the spec: the class [Error] of
    [TwitchChannelPointsMiner.classes.gql] (one entry of the [errors] array of
    a GQL response) is not among the sources; section 7 of the specification
    says that each element is recoverable "per its own field", which
    [GQLResponseErrors.recoverable] reads as the attribute
    [error.recoverable]. *)
Record Error := mkError {
  error_message : string;
  error_recoverable : bool
}.

(** An item of the path of an [InvalidJsonShapeException]: [str | int]. *)
Inductive path_item :=
| PathKey (key : string)
| PathIndex (index : Z).

(** The exceptions that the engine tells apart ([isinstance] tests of
    [is_recoverable_error] and [error_context]):
    [requests.exceptions.RequestException] with its subclasses, the three
    subclasses of the abstract [GQLError], and every other [Exception]. *)
Inductive Exception :=
| RequestException (detail : string)
| GQLException (e : GQLError)
| OtherException (detail : string)
with GQLError :=
| GQLResponseErrors (operation_name : string) (errors : list Error)
| InvalidJsonShapeException (path : list path_item) (message : string)
| RetryError (operation_name : string) (errors : list ExceptionContext)
with ExceptionContext :=
| mkExceptionContext (exception : Exception) (stack_trace : option string).

(** [GQLError.recoverable] with its overrides: [GQLResponseErrors] and
    [InvalidJsonShapeException] override it, [RetryError] inherits the base
    method, which returns [False]. *)
Definition recoverable (self : GQLError) : bool :=
  match self with
  | GQLResponseErrors _ errors => forallb error_recoverable errors
  | InvalidJsonShapeException _ _ => false
  | RetryError _ _ => false
  end.

(** ** AttemptStrategy.py *)

Inductive AttemptResult (TResult : Type) :=
| SuccessResult (errors : list ExceptionContext) (result : TResult)
| ErrorResult (errors : list ExceptionContext).
Arguments SuccessResult {TResult} errors result.
Arguments ErrorResult {TResult} errors.

(** The field [errors] of either result class. *)
Definition result_errors {TResult} (r : AttemptResult TResult) : list ExceptionContext :=
  match r with
  | SuccessResult errors _ => errors
  | ErrorResult errors => errors
  end.

(** The property [attempts] of either result class. *)
Definition result_attempts {TResult} (r : AttemptResult TResult) : Z :=
  match r with
  | SuccessResult errors _ => (Z.of_nat (length errors) + 1)%Z
  | ErrorResult errors => Z.of_nat (length errors)
  end.

(** The configuration: two Python [int]s, of any sign. *)
Record AttemptStrategy := mkAttemptStrategy {
  attempts : Z;
  attempt_interval_seconds : Z
}.

(** How a call ends: it returns a value, it raises, or the fuel of the
    model runs out (which only the pagination loop, that the server can keep
    going for ever, lets happen). *)
Inductive Outcome (A : Type) :=
| Returned (value : A)
| Raised (e : Exception)
| OutOfFuel.
Arguments Returned {A} value.
Arguments Raised {A} e.
Arguments OutOfFuel {A}.

(** The largest number of seconds that the clock of CPython represents: a
    duration is a signed 64-bit number of nanoseconds. *)
Definition sleep_max : Z := 9223372036.

(** [time.sleep(seconds)] for an [int]: it raises [OverflowError] when the
    duration does not fit the clock and [ValueError] when it is negative,
    and it returns otherwise. *)
Definition time_sleep (seconds : Z) : option Exception :=
  if (Z.abs seconds >? sleep_max)%Z then Some (OtherException "OverflowError")
  else if (seconds <? 0)%Z then Some (OtherException "ValueError")
  else None.

(** What [make_attempts] does besides running its callbacks, in the order
    it does it: the calls of [attempt] and of [validate], and the calls of
    [time.sleep], each with its argument. *)
Inductive Event :=
| CallAttempt
| CallValidate
| Sleep (seconds : Z).

Definition is_sleep (ev : Event) : bool :=
  match ev with Sleep _ => true | _ => false end.

Definition is_call_attempt (ev : Event) : bool :=
  match ev with CallAttempt => true | _ => false end.

Section make_attempts.
(** [W] is the state of everything the callbacks can read or change; a
    callback takes the state and returns the new one together with either
    the exception it raised ([inl]) or its value ([inr]).  [retryable] and
    [exception_context] only inspect the exception. *)
Context {W TResult : Type}.
Variable self : AttemptStrategy.
Variable attempt : W → W * (Exception + TResult).
Variable validate : TResult → W → W * (Exception + unit).
Variable retryable : Exception → bool.
Variable exception_context : Exception → option string.

(** The body of the [try]: [result = attempt(); validate(result)]. *)
Definition try_block (w : W) : W * list Event * (Exception + TResult) :=
  match attempt w with
  | (w, inl e) => (w, [CallAttempt], inl e)
  | (w, inr result) =>
      match validate result w with
      | (w, inl e) => (w, [CallAttempt; CallValidate], inl e)
      | (w, inr _) => (w, [CallAttempt; CallValidate], inr result)
      end
  end.

(** The [while] loop.  [made] is the local counter [attempts], [tr] the
    events so far, oldest first.  The call of [time.sleep] is outside the
    [try]: the exception that it raises leaves [make_attempts].  The loop
    runs at most [self.attempts] times; [fuel] bounds it for the recursion,
    and the outcome is [OutOfFuel] only if the fuel runs out
    ([make_attempts_returns] shows that it never does). *)
Fixpoint make_attempts_loop (fuel : nat) (made : Z)
    (errors : list ExceptionContext) (w : W) (tr : list Event)
  : W * list Event * Outcome (AttemptResult TResult) :=
  match fuel with
  | O => (w, tr, OutOfFuel)
  | S fuel =>
      if (made <? attempts self)%Z then
        let made := (made + 1)%Z in
        match try_block w with
        | (w, evs, inr result) =>
            (w, tr ++ evs, Returned (SuccessResult errors result))
        | (w, evs, inl e) =>
            let errors := errors ++ [mkExceptionContext e (exception_context e)] in
            if negb (retryable e) then
              (w, tr ++ evs, Returned (ErrorResult errors))
            else if (made >=? attempts self)%Z then
              (w, tr ++ evs, Returned (ErrorResult errors))
            else
              match time_sleep (attempt_interval_seconds self) with
              | Some e =>
                  (w, tr ++ evs ++ [Sleep (attempt_interval_seconds self)], Raised e)
              | None =>
                  make_attempts_loop fuel made errors w
                    (tr ++ evs ++ [Sleep (attempt_interval_seconds self)])
              end
        end
      else (w, tr, Returned (ErrorResult errors))
  end.

Definition make_attempts (w : W)
  : W * list Event * Outcome (AttemptResult TResult) :=
  make_attempts_loop (S (Z.to_nat (attempts self))) 0 [] w [].

(** The [ExceptionContext] recorded for an exception. *)
Definition context_of (e : Exception) : ExceptionContext :=
  mkExceptionContext e (exception_context e).

(** A pass through the [try] block raises [e]: [attempt] raises it, or
    [attempt] returns a result on which [validate] raises it. *)
Definition pass_raises (w : W) (e : Exception) (w' : W) : Prop :=
  attempt w = (w', inl e)
  ∨ ∃ result w1, attempt w = (w1, inr result) ∧ validate result w1 = (w', inl e).

(** A pass through the [try] block reaches the [return]: [attempt] returns
    [result] and [validate] accepts it. *)
Definition pass_returns (w : W) (result : TResult) (w' : W) : Prop :=
  ∃ w1, attempt w = (w1, inr result) ∧ validate result w1 = (w', inr ()).

(** [retried w es w']: from [w], [length es] consecutive passes through
    the [try] block raise the exceptions [es], in this order, each of them
    retryable and followed by a call of [time.sleep] that returns, and leave
    the state [w']. *)
Inductive retried : W → list Exception → W → Prop :=
| retried_nil w : retried w [] w
| retried_cons w w1 e es w' :
    pass_raises w e w1 →
    retryable e = true →
    time_sleep (attempt_interval_seconds self) = None →
    retried w1 es w' →
    retried w (e :: es) w'.
End make_attempts.

(** ** Integration.py *)

(** *** The state of the process and of the outside world

    The request templates of [GQLOperations] are dicts that every call
    shares, and a wrapper mutates the dict it holds: both live in a heap of
    objects, addressed by reference.  A JSON value stored at a reference
    owns its nested values (the templates are literals, trees without
    sharing), so [copy.deepcopy] is modelled by storing the same tree at a
    fresh reference. *)
Definition loc := positive.

(** What the process did to the outside world, oldest first: the requests
    it posted and the random tokens it drew. *)
Inductive IOEvent :=
| Post (url : string) (body : json) (headers : list (string * string))
| TokenHex (nbytes : Z).

Record World := mkWorld {
  heap : gmap loc json;
  history : list IOEvent
}.

Definition is_post (ev : IOEvent) : bool :=
  match ev with Post _ _ _ => true | TokenHex _ => false end.

(** A computation that reads and changes the world. *)
Definition M (A : Type) : Type := World → World * Outcome A.

#[export] Instance M_ret : MRet M := λ A (a : A) w, (w, Returned a).

#[export] Instance M_bind : MBind M := λ A B (k : A → M B) (m : M A) w,
  match m w with
  | (w, Returned a) => k a w
  | (w, Raised e) => (w, Raised e)
  | (w, OutOfFuel) => (w, OutOfFuel)
  end.

Definition raise {A} (e : Exception) : M A := λ w, (w, Raised e).

Definition of_sum {A} (r : Exception + A) : Outcome A :=
  match r with inl e => Raised e | inr a => Returned a end.

(** The object behind a reference ([None], which no reference of a Python
    program denotes, for a reference that was never allocated). *)
Definition deref (h : gmap loc json) (l : loc) : json :=
  default JNull (h !! l).

(** [copy.deepcopy(obj)]: the same tree at a reference that is not in use. *)
Definition deepcopy (l : loc) : M loc := λ w,
  let l' := fresh (dom (heap w)) in
  (mkWorld (<[l' := deref (heap w) l]> (heap w)) (history w), Returned l').

(** [obj[key]] *)
Definition getitem (l : loc) (key : string) : M json := λ w,
  match deref (heap w) l with
  | JDict fields =>
      match dict_get key fields with
      | Some value => (w, Returned value)
      | None => (w, Raised (OtherException "KeyError"))
      end
  | _ => (w, Raised (OtherException "TypeError"))
  end.

(** [obj[key] = value] *)
Definition setitem (l : loc) (key : string) (value : json) : M unit := λ w,
  match deref (heap w) l with
  | JDict fields =>
      (mkWorld (<[l := JDict (dict_set key value fields)]> (heap w)) (history w),
       Returned ())
  | _ => (w, Raised (OtherException "TypeError"))
  end.

(** [obj[key1][key2] = value]: the nested dict is changed in place. *)
Definition setitem2 (l : loc) (key1 key2 : string) (value : json) : M unit := λ w,
  match deref (heap w) l with
  | JDict fields =>
      match dict_get key1 fields with
      | Some (JDict inner) =>
          (mkWorld
             (<[l := JDict (dict_set key1 (JDict (dict_set key2 value inner)) fields)]>
                (heap w))
             (history w),
           Returned ())
      | Some _ => (w, Raised (OtherException "TypeError"))
      | None => (w, Raised (OtherException "KeyError"))
      end
  | _ => (w, Raised (OtherException "TypeError"))
  end.

(** [GQLOperations.X["operationName"]], passed on as [operation_name: str]. *)
Definition operation_name_of (l : loc) : M string :=
  value ← getitem l "operationName";
  match value with
  | JStr name => mret name
  | _ => raise (OtherException "TypeError")
  end.

(** *** What the module imports *)

(** [requests.Response]: [json_body] is what [response.json()] decodes,
    [None] when the text is not JSON. *)
Record Response := mkResponse {
  status_code : Z;
  text : string;
  json_body : option json
}.

(** [response.raise_for_status()] raises [HTTPError], a
    [RequestException], for a 4xx or 5xx status. *)
Definition raise_for_status (response : Response) : option Exception :=
  if ((400 <=? status_code response) && (status_code response <? 600))%Z
  then Some (RequestException "HTTPError")
  else None.

(** [response.json()] raises [requests.exceptions.JSONDecodeError], a
    [RequestException], when the body does not decode. *)
Definition response_json (response : Response) : Exception + json :=
  match json_body response with
  | Some value => inr value
  | None => inl (RequestException "JSONDecodeError")
  end.

(** Modelled from the spec: the constants of
    [TwitchChannelPointsMiner.constants] ([GQLOperations.url], [CLIENT_ID])
    are not among the sources and are opaque inputs (section 1 of the
    specification); with them, the two library functions whose value the
    code does not determine: [secrets.token_hex], whose result depends on
    what was drawn before, and [traceback.format_exc]. *)
Record Imports := mkImports {
  url : string;
  CLIENT_ID : string;
  token_hex : list IOEvent → Z → string;
  format_exc : Exception → string
}.

(** Modelled from the spec: the templates of [GQLOperations], one per named
    operation (section 6: "named opaque JSON templates
    {operationName, variables skeleton}"); the constants themselves are not
    among the sources.  Each is an object of the heap at a fixed
    reference. *)
Inductive Operation :=
| VideoPlayerStreamInfoOverlayChannel
| GetIDFromLogin
| ChannelFollows
| JoinRaid
| PlaybackAccessToken
| ChannelPointsContext
| MakePrediction
| ClaimCommunityPoints
| CommunityMomentCallout_Claim
| DropsHighlightService_AvailableDrops
| Inventory
| ViewerDropsDashboard
| DropCampaignDetails
| DropsPage_ClaimDropRewards
| UserPointsContribution
| ContributeCommunityPointsCommunityGoal.

Definition all_operations : list Operation :=
  [VideoPlayerStreamInfoOverlayChannel; GetIDFromLogin; ChannelFollows;
   JoinRaid; PlaybackAccessToken; ChannelPointsContext; MakePrediction;
   ClaimCommunityPoints; CommunityMomentCallout_Claim;
   DropsHighlightService_AvailableDrops; Inventory; ViewerDropsDashboard;
   DropCampaignDetails; DropsPage_ClaimDropRewards; UserPointsContribution;
   ContributeCommunityPointsCommunityGoal].

(** The reference of a template. *)
Definition template (op : Operation) : loc :=
  match op with
  | VideoPlayerStreamInfoOverlayChannel => 1
  | GetIDFromLogin => 2
  | ChannelFollows => 3
  | JoinRaid => 4
  | PlaybackAccessToken => 5
  | ChannelPointsContext => 6
  | MakePrediction => 7
  | ClaimCommunityPoints => 8
  | CommunityMomentCallout_Claim => 9
  | DropsHighlightService_AvailableDrops => 10
  | Inventory => 11
  | ViewerDropsDashboard => 12
  | DropCampaignDetails => 13
  | DropsPage_ClaimDropRewards => 14
  | UserPointsContribution => 15
  | ContributeCommunityPointsCommunityGoal => 16
  end%positive.

(** The heap of a process that has just loaded the constants. *)
Definition initial_heap (constants : Operation → json) : gmap loc json :=
  list_to_map ((λ op, (template op, constants op)) <$> all_operations).

(** Modelled from the spec: [FollowersOrder] of
    [TwitchChannelPointsMiner.classes.Settings] is not among the sources;
    [channel_follows] sends [str(order)] ("initial ordering", section 4.4). *)
Inductive FollowersOrder := ASC | DESC.

Definition str_of_order (order : FollowersOrder) : string :=
  match order with ASC => "ASC" | DESC => "DESC" end.

(** Modelled from the spec: the response classes of
    [TwitchChannelPointsMiner.classes.gql.data.response] are not among the
    sources.  [channel_follows] reads [follows.edges], [edge.node.login],
    [edge.cursor] and [follows.page_info.has_next_page] of a parsed page
    (section 4.4: "accumulating one field per edge, advancing the cursor to
    edge.cursor of the last edge"). *)
Module Follows.
Record FollowNode := mkFollowNode { login : string }.
Record FollowEdge := mkFollowEdge { node : FollowNode; cursor : string }.
Record PageInfo := mkPageInfo { has_next_page : bool }.
Record FollowConnection := mkFollowConnection {
  edges : list FollowEdge;
  page_info : PageInfo
}.
Record ChannelFollowsResponse := mkChannelFollowsResponse {
  follows : FollowConnection
}.
End Follows.
Export Follows (FollowNode, FollowEdge, PageInfo, FollowConnection, ChannelFollowsResponse,
  login, node, cursor, has_next_page, edges, page_info).

(** Modelled from the spec: the class [Parser] of
    [TwitchChannelPointsMiner.classes.gql.data.Parser] is not among the
    sources (section 6, parse-callback boundary: "per operation, an external
    function rawJSON -> typed value that may fail").  The other response
    classes are opaque: the types are fields. *)
Record Parser := mkParser {
  VideoPlayerStreamInfoOverlayChannelResponse : Type;
  GetIdFromLoginResponse : Type;
  JoinRaidResponse : Type;
  PlaybackAccessTokenResponse : Type;
  ChannelPointsContextResponse : Type;
  MakePredictionResponse : Type;
  ClaimCommunityPointsResponse : Type;
  CommunityMomentCalloutClaimResponse : Type;
  DropsHighlightServiceAvailableDropsResponse : Type;
  InventoryResponse : Type;
  ViewerDropsDashboardResponse : Type;
  DropCampaignDetailsResponse : Type;
  DropsPageClaimDropsResponse : Type;
  UserPointsContributionResponse : Type;
  ContributeToCommunityGoalResponse : Type;
  parse_video_player_stream_info_overlay_channel_data :
    json → Exception + VideoPlayerStreamInfoOverlayChannelResponse;
  parse_get_id_from_login_response : json → Exception + GetIdFromLoginResponse;
  parse_channel_follows_response : json → Exception + option ChannelFollowsResponse;
  parse_join_raid_response : json → Exception + JoinRaidResponse;
  parse_playback_access_token_response : json → Exception + PlaybackAccessTokenResponse;
  parse_channel_points_context_response : json → Exception + ChannelPointsContextResponse;
  parse_make_prediction_response : json → Exception + MakePredictionResponse;
  parse_claim_community_points_response : json → Exception + ClaimCommunityPointsResponse;
  parse_community_moment_callout_claim_response :
    json → Exception + CommunityMomentCalloutClaimResponse;
  parse_drops_highlight_service_available_drops :
    json → Exception + DropsHighlightServiceAvailableDropsResponse;
  parse_inventory_response : json → Exception + InventoryResponse;
  parse_viewer_drops_dashboard_response : json → Exception + ViewerDropsDashboardResponse;
  parse_drop_campaign_details_response : json → Exception + DropCampaignDetailsResponse;
  parse_drop_page_claim_drop_rewards : json → Exception + DropsPageClaimDropsResponse;
  parse_user_points_contribution : json → Exception + UserPointsContributionResponse;
  parse_contribute_community_points_community_goal :
    json → Exception + ContributeToCommunityGoalResponse
}.

(** Modelled from the spec: [ClientSession] of
    [TwitchChannelPointsMiner.classes.ClientSession] is not among the
    sources ("an opaque session collaborator", section 6); these are the
    values the code reads from it. *)
Record ClientSession := mkClientSession {
  auth_token : string;
  user_id : string;
  session_id : string;
  version : string;
  user_agent : string;
  device_id : string
}.

(** Modelled from the spec: [create_chunks] of
    [TwitchChannelPointsMiner.utils] is not among the sources; section 4.5:
    "partition the ids into order-preserving contiguous chunks" of a fixed
    size. *)
Fixpoint create_chunks_from {A} (fuel : nat) (lst : list A) (n : nat) : list (list A) :=
  match fuel, lst with
  | S fuel, _ :: _ => take n lst :: create_chunks_from fuel (drop n lst) n
  | _, _ => []
  end.

Definition create_chunks {A} (lst : list A) (n : nat) : list (list A) :=
  create_chunks_from (length lst) lst n.

(** *** The module's functions *)

(** [validate_response] accepts every value. *)
Definition validate_response {T} (value : T) : World → World * (Exception + unit) :=
  λ w, (w, inr ()).

Definition is_recoverable_error (e : Exception) : bool :=
  match e with
  | RequestException _ => true
  | GQLException e => recoverable e
  | OtherException _ => false
  end.

Definition error_context (imports : Imports) (e : Exception) : option string :=
  match e with
  | GQLException _ => None
  | _ => Some (format_exc imports e)
  end.

(** [[parse(item) for item in value]], [list(map(parse, value))]: the
    first item on which [parse] raises ends the traversal. *)
Fixpoint parse_each {T} (parse : json → Exception + T) (items : list json)
  : Exception + list T :=
  match items with
  | [] => inr []
  | item :: rest =>
      match parse item with
      | inl e => inl e
      | inr value =>
          match parse_each parse rest with
          | inl e => inl e
          | inr values => inr (value :: values)
          end
      end
  end.

Definition parse_list {T} (parse : json → Exception + T) (value : json)
  : Exception + list T :=
  match value with
  | JList items => parse_each parse items
  | _ => inl (GQLException (InvalidJsonShapeException [] "list expected"))
  end.

(** *** The class GQL *)

Record GQL := mkGQL {
  client_session : ClientSession;
  attempt_strategy : AttemptStrategy;
  parser : Parser;
  (** [self.post_request(url, json=..., headers=...)]: the transport is an
      outside collaborator; what it answers may depend on everything that
      happened before. *)
  post_request :
    list IOEvent → string → json → list (string * string) → Exception + Response
}.

(** The argument [request_json: dict | list] of [__post_gql_request]: a
    reference to a dict, or a list of such references. *)
Inductive request :=
| DictRequest (l : loc)
| ListRequest (ls : list loc).

(** The JSON that is sent for a request, read when it is posted. *)
Definition serialise (h : gmap loc json) (request_json : request) : json :=
  match request_json with
  | DictRequest l => deref h l
  | ListRequest ls => JList (deref h <$> ls)
  end.

(** The return type [T | list[T]] of [__post_gql_request], by the
    [isinstance(request_json, list)] test that decides it. *)
Definition post_result (T : Type) (request_json : request) : Type :=
  match request_json with
  | DictRequest _ => T
  | ListRequest _ => list T
  end.

(** The decoding part of [__post_gql_request], after [response.json()]. *)
Definition decode {T} (request_json : request) (parse : json → Exception + T)
    (response_json : json) : Exception + post_result T request_json :=
  match request_json return Exception + post_result T request_json with
  | ListRequest _ =>
      match response_json with
      | JList items => parse_each parse items
      | _ =>
          inl (GQLException (InvalidJsonShapeException []
                      ("Expected batched response, got " +:+ type_name response_json)))
      end
  | DictRequest _ => parse response_json
  end.

Section GQL.
Variable imports : Imports.
Variable self : GQL.

Definition request_headers : list (string * string) :=
  [("Authorization", "OAuth " +:+ auth_token (client_session self));
   ("Client-Id", CLIENT_ID imports);
   ("Client-Session-Id", session_id (client_session self));
   ("Client-Version", version (client_session self));
   ("User-Agent", user_agent (client_session self));
   ("X-Device-Id", device_id (client_session self))].

Definition __post_gql_request {T} (request_json : request)
    (parse : json → Exception + T)
  : World → World * (Exception + post_result T request_json) := λ w,
  let body := serialise (heap w) request_json in
  let w' := mkWorld (heap w) (history w ++ [Post (url imports) body request_headers]) in
  match post_request self (history w) (url imports) body request_headers with
  | inl e => (w', inl e)
  | inr response =>
      match raise_for_status response with
      | Some e => (w', inl e)
      | None =>
          match response_json response with
          | inl e => (w', inl e)
          | inr response_json => (w', decode request_json parse response_json)
          end
      end
  end.

Definition __handle_result {T} (result : AttemptResult T) (operation_name : string)
  : Exception + T :=
  match result with
  | ErrorResult errors => inl (GQLException (RetryError operation_name errors))
  | SuccessResult _ result => inr result
  end.

(** The call of [self.attempt_strategy.make_attempts] that both
    [post_gql_request_single] and [post_gql_request_batch] make. *)
Definition attempt_request {T} (request_json : request)
    (parse : json → Exception + T) (w : World)
  : World * list Event * Outcome (AttemptResult (post_result T request_json)) :=
  make_attempts (attempt_strategy self)
    (__post_gql_request request_json parse)
    validate_response is_recoverable_error (error_context imports) w.

Definition post_gql_request_single {T} (operation_name : string)
    (request_json : loc) (parse : json → Exception + T) : M T := λ w,
  match attempt_request (DictRequest request_json) parse w with
  | (w, _, Returned result) => (w, of_sum (__handle_result result operation_name))
  | (w, _, Raised e) => (w, Raised e)
  | (w, _, OutOfFuel) => (w, OutOfFuel)
  end.

Definition post_gql_request_batch {T} (operation_name : string)
    (request_json : list loc) (parse : json → Exception + T) : M (list (list T)) := λ w,
  match attempt_request (ListRequest request_json) (parse_list parse) w with
  | (w, _, Returned result) => (w, of_sum (__handle_result result operation_name))
  | (w, _, Raised e) => (w, Raised e)
  | (w, _, OutOfFuel) => (w, OutOfFuel)
  end.

Definition video_player_stream_info_overlay_channel (streamer_username : string)
  : M (VideoPlayerStreamInfoOverlayChannelResponse (parser self)) :=
  json_data ← deepcopy (template VideoPlayerStreamInfoOverlayChannel);
  _ ← setitem json_data "variables" (JDict [("channel", JStr streamer_username)]);
  operation_name ← operation_name_of (template VideoPlayerStreamInfoOverlayChannel);
  post_gql_request_single operation_name json_data
    (parse_video_player_stream_info_overlay_channel_data (parser self)).

Definition get_id_from_login (streamer_username : string)
  : M (GetIdFromLoginResponse (parser self)) :=
  json_data ← deepcopy (template GetIDFromLogin);
  _ ← setitem2 json_data "variables" "login" (JStr streamer_username);
  operation_name ← operation_name_of (template GetIDFromLogin);
  post_gql_request_single operation_name json_data
    (parse_get_id_from_login_response (parser self)).

(** The [for edge in parsed_response.follows.edges] loop. *)
Fixpoint collect_edges (edges : list FollowEdge) (follows : list string)
    (last_cursor : string) : list string * string :=
  match edges with
  | [] => (follows, last_cursor)
  | edge :: rest => collect_edges rest (follows ++ [login (node edge)]) (cursor edge)
  end.

(** The [while has_next is True] loop of [channel_follows], entered with
    [has_next] true. *)
Fixpoint channel_follows_loop (fuel : nat) (json_data : loc)
    (last_cursor : string) (follows : list string) : M (list string) :=
  match fuel with
  | O => λ w, (w, OutOfFuel)
  | S fuel =>
      _ ← setitem2 json_data "variables" "cursor" (JStr last_cursor);
      operation_name ← operation_name_of (template ChannelFollows);
      parsed_response ← post_gql_request_single operation_name json_data
                          (parse_channel_follows_response (parser self));
      match parsed_response with
      | Some parsed_response =>
          let '(follows, last_cursor) :=
            collect_edges (edges (Follows.follows parsed_response)) follows last_cursor in
          if has_next_page (page_info (Follows.follows parsed_response))
          then channel_follows_loop fuel json_data last_cursor follows
          else mret follows
      | None => mret []
      end
  end.

Definition channel_follows (fuel : nat) (limit : Z) (order : FollowersOrder)
  : M (list string) :=
  json_data ← deepcopy (template ChannelFollows);
  _ ← setitem json_data "variables"
        (JDict [("limit", JInt limit); ("order", JStr (str_of_order order))]);
  channel_follows_loop fuel json_data "" [].

Definition join_raid (raid_id : string) : M unit :=
  json_data ← deepcopy (template JoinRaid);
  _ ← setitem json_data "variables" (JDict [("input", JDict [("raidID", JStr raid_id)])]);
  operation_name ← operation_name_of (template JoinRaid);
  _ ← post_gql_request_single operation_name json_data
        (parse_join_raid_response (parser self));
  mret ().

Definition get_playback_access_token (username : string)
  : M (PlaybackAccessTokenResponse (parser self)) :=
  json_data ← deepcopy (template PlaybackAccessToken);
  _ ← setitem json_data "variables"
        (JDict [("login", JStr username); ("isLive", JBool true);
                ("isVod", JBool false); ("vodID", JStr "");
                ("playerType", JStr "site")]);
  operation_name ← operation_name_of (template PlaybackAccessToken);
  post_gql_request_single operation_name json_data
    (parse_playback_access_token_response (parser self)).

Definition get_channel_points_context (username : string)
  : M (ChannelPointsContextResponse (parser self)) :=
  json_data ← deepcopy (template ChannelPointsContext);
  _ ← setitem json_data "variables" (JDict [("channelLogin", JStr username)]);
  operation_name ← operation_name_of (template ChannelPointsContext);
  post_gql_request_single operation_name json_data
    (parse_channel_points_context_response (parser self)).

(** [secrets.token_hex(nbytes)] *)
Definition draw_token_hex (nbytes : Z) : M string := λ w,
  (mkWorld (heap w) (history w ++ [TokenHex nbytes]),
   Returned (token_hex imports (history w) nbytes)).

Definition make_prediction (event_id outcome_id : string) (points : Z)
  : M (MakePredictionResponse (parser self)) :=
  json_data ← deepcopy (template MakePrediction);
  transaction_id ← draw_token_hex 16;
  _ ← setitem json_data "variables"
        (JDict [("input",
                 JDict [("eventID", JStr event_id);
                        ("outcomeID", JStr outcome_id);
                        ("points", JInt points);
                        ("transactionID", JStr transaction_id)])]);
  operation_name ← operation_name_of (template MakePrediction);
  post_gql_request_single operation_name json_data
    (parse_make_prediction_response (parser self)).

Definition claim_community_points (channel_id claim_id : string) : M unit :=
  json_data ← deepcopy (template ClaimCommunityPoints);
  _ ← setitem json_data "variables"
        (JDict [("input",
                 JDict [("channelID", JStr channel_id); ("claimID", JStr claim_id)])]);
  operation_name ← operation_name_of (template ClaimCommunityPoints);
  _ ← post_gql_request_single operation_name json_data
        (parse_claim_community_points_response (parser self));
  mret ().

Definition claim_moment (moment_id : string) : M unit :=
  json_data ← deepcopy (template CommunityMomentCallout_Claim);
  _ ← setitem json_data "variables"
        (JDict [("input", JDict [("momentID", JStr moment_id)])]);
  operation_name ← operation_name_of (template CommunityMomentCallout_Claim);
  _ ← post_gql_request_single operation_name json_data
        (parse_community_moment_callout_claim_response (parser self));
  mret ().

Definition get_available_drops (channel_id : string)
  : M (DropsHighlightServiceAvailableDropsResponse (parser self)) :=
  json_data ← deepcopy (template DropsHighlightService_AvailableDrops);
  _ ← setitem json_data "variables" (JDict [("channelID", JStr channel_id)]);
  operation_name ← operation_name_of (template DropsHighlightService_AvailableDrops);
  post_gql_request_single operation_name json_data
    (parse_drops_highlight_service_available_drops (parser self)).

(** [get_inventory] and [get_viewer_drops_dashboard] insert no variable and
    pass the template itself, not a copy. *)
Definition get_inventory : M (InventoryResponse (parser self)) :=
  operation_name ← operation_name_of (template Inventory);
  post_gql_request_single operation_name (template Inventory)
    (parse_inventory_response (parser self)).

Definition get_viewer_drops_dashboard : M (ViewerDropsDashboardResponse (parser self)) :=
  operation_name ← operation_name_of (template ViewerDropsDashboard);
  post_gql_request_single operation_name (template ViewerDropsDashboard)
    (parse_viewer_drops_dashboard_response (parser self)).

(** The [for campaign in chunk] loop of [get_drop_campaign_details], which
    appends one filled copy of the template per id to [json_data]. *)
Fixpoint build_batch (chunk : list string) (json_data : list loc) : M (list loc) :=
  match chunk with
  | [] => mret json_data
  | campaign :: rest =>
      copy ← deepcopy (template DropCampaignDetails);
      let json_data := json_data ++ [copy] in
      _ ← setitem copy "variables"
            (JDict [("dropID", JStr campaign);
                    ("channelLogin", JStr (user_id (client_session self)))]);
      build_batch rest json_data
  end.

(** The [for chunk in chunks] loop.  [response] has the type that
    [post_gql_request_batch] returns, a list of lists of parsed values: the
    test [not isinstance(response, list)] is never true of it, and no
    [item] of it is [None], so that every item is appended. *)
Fixpoint get_drop_campaign_details_loop (chunks : list (list string))
    (result : list (list (DropCampaignDetailsResponse (parser self))))
  : M (list (list (DropCampaignDetailsResponse (parser self)))) :=
  match chunks with
  | [] => mret result
  | chunk :: rest =>
      json_data ← build_batch chunk [];
      operation_name ← operation_name_of (template DropCampaignDetails);
      response ← post_gql_request_batch operation_name json_data
                   (parse_drop_campaign_details_response (parser self));
      get_drop_campaign_details_loop rest (result ++ response)
  end.

Definition get_drop_campaign_details (campaign_ids : list string)
  : M (list (list (DropCampaignDetailsResponse (parser self)))) :=
  get_drop_campaign_details_loop (create_chunks campaign_ids 20) [].

Definition claim_drop_rewards (drop_instance_id : string)
  : M (DropsPageClaimDropsResponse (parser self)) :=
  json_data ← deepcopy (template DropsPage_ClaimDropRewards);
  _ ← setitem json_data "variables"
        (JDict [("input", JDict [("dropInstanceID", JStr drop_instance_id)])]);
  operation_name ← operation_name_of (template DropsPage_ClaimDropRewards);
  post_gql_request_single operation_name json_data
    (parse_drop_page_claim_drop_rewards (parser self)).

Definition get_user_points_contribution (username : string)
  : M (UserPointsContributionResponse (parser self)) :=
  json_data ← deepcopy (template UserPointsContribution);
  _ ← setitem json_data "variables" (JDict [("channelLogin", JStr username)]);
  operation_name ← operation_name_of (template UserPointsContribution);
  post_gql_request_single operation_name json_data
    (parse_user_points_contribution (parser self)).

Definition contribute_to_community_goal (channel_id goal_id : string) (amount : Z)
  : M (ContributeToCommunityGoalResponse (parser self)) :=
  json_data ← deepcopy (template ContributeCommunityPointsCommunityGoal);
  transaction_id ← draw_token_hex 16;
  _ ← setitem json_data "variables"
        (JDict [("input",
                 JDict [("amount", JInt amount);
                        ("channelID", JStr channel_id);
                        ("goalID", JStr goal_id);
                        ("transactionID", JStr transaction_id)])]);
  operation_name ← operation_name_of (template ContributeCommunityPointsCommunityGoal);
  post_gql_request_single operation_name json_data
    (parse_contribute_community_points_community_goal (parser self)).

(** A call of an operation wrapper, with its arguments ([fuel] bounds the
    pages of [channel_follows]). *)
Inductive Call :=
| call_video_player_stream_info_overlay_channel (streamer_username : string)
| call_get_id_from_login (streamer_username : string)
| call_channel_follows (fuel : nat) (limit : Z) (order : FollowersOrder)
| call_join_raid (raid_id : string)
| call_get_playback_access_token (username : string)
| call_get_channel_points_context (username : string)
| call_make_prediction (event_id outcome_id : string) (points : Z)
| call_claim_community_points (channel_id claim_id : string)
| call_claim_moment (moment_id : string)
| call_get_available_drops (channel_id : string)
| call_get_inventory
| call_get_viewer_drops_dashboard
| call_get_drop_campaign_details (campaign_ids : list string)
| call_claim_drop_rewards (drop_instance_id : string)
| call_get_user_points_contribution (username : string)
| call_contribute_to_community_goal (channel_id goal_id : string) (amount : Z).

Definition call_result (c : Call) : Type :=
  match c with
  | call_video_player_stream_info_overlay_channel _ =>
      VideoPlayerStreamInfoOverlayChannelResponse (parser self)
  | call_get_id_from_login _ => GetIdFromLoginResponse (parser self)
  | call_channel_follows _ _ _ => list string
  | call_join_raid _ => unit
  | call_get_playback_access_token _ => PlaybackAccessTokenResponse (parser self)
  | call_get_channel_points_context _ => ChannelPointsContextResponse (parser self)
  | call_make_prediction _ _ _ => MakePredictionResponse (parser self)
  | call_claim_community_points _ _ => unit
  | call_claim_moment _ => unit
  | call_get_available_drops _ => DropsHighlightServiceAvailableDropsResponse (parser self)
  | call_get_inventory => InventoryResponse (parser self)
  | call_get_viewer_drops_dashboard => ViewerDropsDashboardResponse (parser self)
  | call_get_drop_campaign_details _ =>
      list (list (DropCampaignDetailsResponse (parser self)))
  | call_claim_drop_rewards _ => DropsPageClaimDropsResponse (parser self)
  | call_get_user_points_contribution _ => UserPointsContributionResponse (parser self)
  | call_contribute_to_community_goal _ _ _ => ContributeToCommunityGoalResponse (parser self)
  end.

Definition invoke (c : Call) : M (call_result c) :=
  match c with
  | call_video_player_stream_info_overlay_channel streamer_username =>
      video_player_stream_info_overlay_channel streamer_username
  | call_get_id_from_login streamer_username => get_id_from_login streamer_username
  | call_channel_follows fuel limit order => channel_follows fuel limit order
  | call_join_raid raid_id => join_raid raid_id
  | call_get_playback_access_token username => get_playback_access_token username
  | call_get_channel_points_context username => get_channel_points_context username
  | call_make_prediction event_id outcome_id points =>
      make_prediction event_id outcome_id points
  | call_claim_community_points channel_id claim_id =>
      claim_community_points channel_id claim_id
  | call_claim_moment moment_id => claim_moment moment_id
  | call_get_available_drops channel_id => get_available_drops channel_id
  | call_get_inventory => get_inventory
  | call_get_viewer_drops_dashboard => get_viewer_drops_dashboard
  | call_get_drop_campaign_details campaign_ids => get_drop_campaign_details campaign_ids
  | call_claim_drop_rewards drop_instance_id => claim_drop_rewards drop_instance_id
  | call_get_user_points_contribution username => get_user_points_contribution username
  | call_contribute_to_community_goal channel_id goal_id amount =>
      contribute_to_community_goal channel_id goal_id amount
  end.

End GQL.

(** *** Construction *)

(** [AttemptStrategy.__init__]: both arguments have a default. *)
Definition AttemptStrategy_init (attempts attempt_interval_seconds : option Z)
  : AttemptStrategy :=
  mkAttemptStrategy (default 3%Z attempts) (default 1%Z attempt_interval_seconds).

(** The protocol [PostRequest]. *)
Definition PostRequest : Type :=
  list IOEvent → string → json → list (string * string) → Exception + Response.

(** [GQLFactory]: the three optional collaborators that it passes on. *)
Record GQLFactory := mkGQLFactory {
  factory_attempt_strategy : option AttemptStrategy;
  factory_parser : option Parser;
  factory_post_request : option PostRequest
}.

Section construction.
(** [Parser()] and [requests.post], which [GQL.__init__] falls back to, come
    from modules that are not among the sources. *)
Variable default_parser : Parser.
Variable requests_post : PostRequest.

(** [GQL.__init__] *)
Definition GQL_init (client_session : ClientSession)
    (attempt_strategy : option AttemptStrategy) (parser : option Parser)
    (post_request : option PostRequest) : GQL :=
  mkGQL client_session
    (match attempt_strategy with
     | Some attempt_strategy => attempt_strategy
     | None => AttemptStrategy_init (Some 3%Z) (Some 1%Z)
     end)
    (match parser with Some parser => parser | None => default_parser end)
    (match post_request with
     | Some post_request => post_request
     | None => requests_post
     end).

(** [GQLFactory.create] *)
Definition create (self : GQLFactory) (client_session : ClientSession) : GQL :=
  GQL_init client_session (factory_attempt_strategy self) (factory_parser self)
    (factory_post_request self).
End construction.

(** ** Notions used in the statements *)

(** [body["variables"]["input"]["transactionID"]] of a request body. *)
Definition request_transaction_id (body : json) : option json :=
  match body with
  | JDict fields =>
      match dict_get "variables" fields with
      | Some (JDict variables) =>
          match dict_get "input" variables with
          | Some (JDict input) => dict_get "transactionID" input
          | _ => None
          end
      | _ => None
      end
  | _ => None
  end.

(** The template of [op] is a dict with an [operationName] that is a string. *)
Definition template_loaded (h : gmap loc json) (op : Operation) : Prop :=
  ∃ fields name,
    h !! template op = Some (JDict fields)
    ∧ dict_get "operationName" fields = Some (JStr name).

(** Every template is an object of the heap. *)
Definition templates_loaded (w : World) : Prop :=
  ∀ op, is_Some (heap w !! template op).

(** The exception of [__post_gql_request] for a batched request whose
    response is not a list. *)
Definition shape_error (value : json) : Exception :=
  GQLException (InvalidJsonShapeException []
                  ("Expected batched response, got " +:+ type_name value)).

(** The template that a call uses. *)
Definition operation_of (c : Call) : Operation :=
  match c with
  | call_video_player_stream_info_overlay_channel _ => VideoPlayerStreamInfoOverlayChannel
  | call_get_id_from_login _ => GetIDFromLogin
  | call_channel_follows _ _ _ => ChannelFollows
  | call_join_raid _ => JoinRaid
  | call_get_playback_access_token _ => PlaybackAccessToken
  | call_get_channel_points_context _ => ChannelPointsContext
  | call_make_prediction _ _ _ => MakePrediction
  | call_claim_community_points _ _ => ClaimCommunityPoints
  | call_claim_moment _ => CommunityMomentCallout_Claim
  | call_get_available_drops _ => DropsHighlightService_AvailableDrops
  | call_get_inventory => Inventory
  | call_get_viewer_drops_dashboard => ViewerDropsDashboard
  | call_get_drop_campaign_details _ => DropCampaignDetails
  | call_claim_drop_rewards _ => DropsPage_ClaimDropRewards
  | call_get_user_points_contribution _ => UserPointsContribution
  | call_contribute_to_community_goal _ _ _ => ContributeCommunityPointsCommunityGoal
  end.

(** The calls whose requests are batched. *)
Definition is_batched (c : Call) : bool :=
  match c with call_get_drop_campaign_details _ => true | _ => false end.

(** Every object that exists in [w] has the same value in [w']. *)
Definition untouched (w w' : World) : Prop :=
  ∀ l, l ∈ dom (heap w) → heap w' !! l = heap w !! l.

(** [body] is the template, or the template with another value of its
    field [variables]. *)
Definition derived_from (template body : json) : Prop :=
  body = template
  ∨ ∃ fields variables,
      template = JDict fields ∧ body = JDict (dict_set "variables" variables fields).

(** What a call may do to the outside world: draw tokens, and post bodies
    derived from its template (a list of them when batched). *)
Definition request_from (template : json) (batched : bool) (ev : IOEvent) : Prop :=
  match ev with
  | TokenHex _ => True
  | Post _ body _ =>
      if batched
      then ∃ bodies, body = JList bodies ∧ Forall (derived_from template) bodies
      else derived_from template body
  end.

(** Every object of [w] that is not an object of [w0] is derived from [T]. *)
Definition made_from (T : json) (w0 w : World) : Prop :=
  ∀ l, l ∈ dom (heap w) → l ∉ dom (heap w0) → derived_from T (deref (heap w) l).

(** The calls that insert variables into a request (the batched call does
    when it has an id to ask for). *)
Definition inserts_variables (c : Call) : bool :=
  match c with
  | call_get_inventory | call_get_viewer_drops_dashboard => false
  | call_get_drop_campaign_details campaign_ids =>
      match campaign_ids with [] => false | _ :: _ => true end
  | _ => true
  end.

(** [m] never removes an object from the heap. *)
Definition grows {A} (m : M A) : Prop :=
  ∀ w, dom (heap w) ⊆ dom (heap (m w).1).

(** The invariant of a call started in [w0] whose template has the value
    [T]: the objects of [w0] are untouched, the objects made since are
    derived from [T], and the call only made requests derived from [T]. *)
Definition inv (w0 : World) (T : json) (batched : bool) (w : World) : Prop :=
  (untouched w0 w)
  ∧ (dom (heap w0) ⊆ dom (heap w))
  ∧ made_from T w0 w
  ∧ ∃ evs, history w = history w0 ++ evs ∧ Forall (request_from T batched) evs.

(** [l] is an object that the call made, derived from [T]. *)
Definition own (w0 : World) (T : json) (w : World) (l : loc) : Prop :=
  (l ∉ dom (heap w0)) ∧ derived_from T (deref (heap w) l).

(** [m], run in [w], keeps the invariant, and [V] holds of what it returns. *)
Definition safe {A} (w0 : World) (T : json) (batched : bool)
    (m : M A) (w : World) (V : A → World → Prop) : Prop :=
  inv w0 T batched (m w).1 ∧ ∀ a, (m w).2 = Returned a → V a (m w).1.

(** Two states of the process that the outside world cannot tell apart and
    that hold the same templates; they may differ in every other object. *)
Definition sim (w1 w2 : World) : Prop :=
  history w1 = history w2
  ∧ ∀ op, ∃ T, heap w1 !! template op = Some T ∧ heap w2 !! template op = Some T.

(** Objects of the two states, other than templates, with the same value. *)
Definition twin (w1 w2 : World) (l1 l2 : loc) : Prop :=
  (l1 ∈ dom (heap w1)) ∧ (l2 ∈ dom (heap w2))
  ∧ (∀ op, l1 ≠ template op) ∧ (∀ op, l2 ≠ template op)
  ∧ deref (heap w1) l1 = deref (heap w2) l2.

(** Two runs end in similar states and in the same way, with values
    related by [V]. *)
Definition agrees {A} (V : A → A → World → World → Prop)
    (r1 r2 : World * Outcome A) : Prop :=
  sim r1.1 r2.1
  ∧ match r1.2, r2.2 with
    | Returned a1, Returned a2 => V a1 a2 r1.1 r2.1
    | Raised e1, Raised e2 => e1 = e2
    | OutOfFuel, OutOfFuel => True
    | _, _ => False
    end.

(** The value that a wrapper stores as [json_data["variables"]], for the
    wrappers that store one and make a single request; [transaction_id] is
    the token that the two mutating wrappers draw. *)
Definition variables_of (c : Call) (transaction_id : string) : option json :=
  match c with
  | call_video_player_stream_info_overlay_channel streamer_username =>
      Some (JDict [("channel", JStr streamer_username)])
  | call_join_raid raid_id =>
      Some (JDict [("input", JDict [("raidID", JStr raid_id)])])
  | call_get_playback_access_token username =>
      Some (JDict [("login", JStr username); ("isLive", JBool true);
                   ("isVod", JBool false); ("vodID", JStr "");
                   ("playerType", JStr "site")])
  | call_get_channel_points_context username =>
      Some (JDict [("channelLogin", JStr username)])
  | call_make_prediction event_id outcome_id points =>
      Some (JDict [("input",
                    JDict [("eventID", JStr event_id);
                           ("outcomeID", JStr outcome_id);
                           ("points", JInt points);
                           ("transactionID", JStr transaction_id)])])
  | call_claim_community_points channel_id claim_id =>
      Some (JDict [("input",
                    JDict [("channelID", JStr channel_id); ("claimID", JStr claim_id)])])
  | call_claim_moment moment_id =>
      Some (JDict [("input", JDict [("momentID", JStr moment_id)])])
  | call_get_available_drops channel_id =>
      Some (JDict [("channelID", JStr channel_id)])
  | call_claim_drop_rewards drop_instance_id =>
      Some (JDict [("input", JDict [("dropInstanceID", JStr drop_instance_id)])])
  | call_get_user_points_contribution username =>
      Some (JDict [("channelLogin", JStr username)])
  | call_contribute_to_community_goal channel_id goal_id amount =>
      Some (JDict [("input",
                    JDict [("amount", JInt amount);
                           ("channelID", JStr channel_id);
                           ("goalID", JStr goal_id);
                           ("transactionID", JStr transaction_id)])])
  | call_get_id_from_login _
  | call_channel_follows _ _ _
  | call_get_inventory
  | call_get_viewer_drops_dashboard
  | call_get_drop_campaign_details _ => None
  end.

(** The tokens that a call draws before its request. *)
Definition draws_token (c : Call) : bool :=
  match c with
  | call_make_prediction _ _ _ | call_contribute_to_community_goal _ _ _ => true
  | _ => false
  end.

(** The cursor after a page: [edge.cursor] of its last edge, and the
    cursor before the page when it has no edge. *)
Definition cursor_after (last_cursor : string) (page : ChannelFollowsResponse) : string :=
  default last_cursor (cursor <$> last (edges (Follows.follows page))).

(** [follow.login] of the edges of a page, in their order. *)
Definition page_logins (page : ChannelFollowsResponse) : list string :=
  (λ edge, login (node edge)) <$> edges (Follows.follows page).

(** [follows_pages imports self json_data w c pages w']: from [w], with
    [last_cursor = c], the iterations of the loop of [channel_follows]
    receive the pages [pages], one request each; every page but the last
    announces a next page, and the last one leaves [w']. *)
Inductive follows_pages (imports : Imports) (self : GQL) (json_data : loc)
  : World → string → list ChannelFollowsResponse → World → Prop :=
| follows_pages_last w last_cursor w1 name w2 page :
    setitem2 json_data "variables" "cursor" (JStr last_cursor) w = (w1, Returned ()) →
    operation_name_of (template ChannelFollows) w1 = (w1, Returned name) →
    post_gql_request_single imports self name json_data
      (parse_channel_follows_response (parser self)) w1 = (w2, Returned (Some page)) →
    has_next_page (page_info (Follows.follows page)) = false →
    follows_pages imports self json_data w last_cursor [page] w2
| follows_pages_next w last_cursor w1 name w2 page pages w' :
    setitem2 json_data "variables" "cursor" (JStr last_cursor) w = (w1, Returned ()) →
    operation_name_of (template ChannelFollows) w1 = (w1, Returned name) →
    post_gql_request_single imports self name json_data
      (parse_channel_follows_response (parser self)) w1 = (w2, Returned (Some page)) →
    has_next_page (page_info (Follows.follows page)) = true →
    follows_pages imports self json_data w2 (cursor_after last_cursor page) pages w' →
    follows_pages imports self json_data w last_cursor (page :: pages) w'.

(** [batch_responses imports self w chunks responses w']: from [w], the
    iterations of the outer loop of [get_drop_campaign_details] over
    [chunks] receive the responses [responses], one batched call each, and
    leave [w']. *)
Inductive batch_responses (imports : Imports) (self : GQL)
  : World → list (list string)
    → list (list (list (DropCampaignDetailsResponse (parser self)))) → World → Prop :=
| batch_responses_nil w : batch_responses imports self w [] [] w
| batch_responses_cons w chunk w1 json_data name w2 response chunks responses w' :
    build_batch self chunk [] w = (w1, Returned json_data) →
    operation_name_of (template DropCampaignDetails) w1 = (w1, Returned name) →
    post_gql_request_batch imports self name json_data
      (parse_drop_campaign_details_response (parser self)) w1 = (w2, Returned response) →
    batch_responses imports self w2 chunks responses w' →
    batch_responses imports self w (chunk :: chunks) (response :: responses) w'.

(** [body["variables"]["cursor"]] of a request body. *)
Definition request_cursor (body : json) : option json :=
  match body with
  | JDict fields =>
      match dict_get "variables" fields with
      | Some (JDict variables) => dict_get "cursor" variables
      | _ => None
      end
  | _ => None
  end.

(** The requests and the token draws that a call may make: a request goes
    to [GQLOperations.url] with the six headers that [__post_gql_request]
    builds from the session and [CLIENT_ID], in this order; a token has 16
    bytes, and is drawn only where [tokens] allows it. *)
Definition allowed_event (imports : Imports) (self : GQL) (tokens : bool)
    (ev : IOEvent) : Prop :=
  match ev with
  | Post u _ h =>
      u = url imports
      ∧ h = [("Authorization", "OAuth " +:+ auth_token (client_session self));
             ("Client-Id", CLIENT_ID imports);
             ("Client-Session-Id", session_id (client_session self));
             ("Client-Version", version (client_session self));
             ("User-Agent", user_agent (client_session self));
             ("X-Device-Id", device_id (client_session self))]
  | TokenHex nbytes => tokens = true ∧ nbytes = 16%Z
  end.

(** Every request and token draw that [m] adds to the history satisfies
    [P]. *)
Definition emits {A} (P : IOEvent → Prop) (m : M A) : Prop :=
  ∀ w, ∃ evs, history (m w).1 = history w ++ evs ∧ Forall P evs.

(** The events of one pass through the [try] block: the call of [attempt]
    and, when it returned, the call of [validate]. *)
Definition is_pass (evs : list Event) : Prop :=
  evs = [CallAttempt] ∨ evs = [CallAttempt; CallValidate].

(** The events of consecutive passes, with one call of
    [time.sleep(seconds)] between two of them and nowhere else. *)
Fixpoint interleave (seconds : Z) (passes : list (list Event)) : list Event :=
  match passes with
  | [] => []
  | evs :: rest =>
      match rest with
      | [] => evs
      | _ :: _ => evs ++ Sleep seconds :: interleave seconds rest
      end
  end.

(** ** Collaborators for the examples *)

(** An [attempt] that raises a timeout on its first [failures] calls and
    returns the number of earlier calls afterwards; the state counts the
    calls. *)
Definition flaky (failures : nat) (w : nat) : nat * (Exception + nat) :=
  (S w, if decide (w < failures) then inl (RequestException "ReadTimeout") else inr w).

(** An [attempt] whose first call raises an exception of no known class. *)
Definition broken (w : nat) : nat * (Exception + nat) :=
  (S w, inl (OtherException "ValueError")).

Definition accept (result : nat) (w : nat) : nat * (Exception + unit) :=
  (w, inr ()).

(** A [validate] that raises a retryable error on the results below
    [least]. *)
Definition reject_below (least : nat) (result : nat) (w : nat)
  : nat * (Exception + unit) :=
  (w, if decide (result < least) then inl (RequestException "Rejected") else inr ()).

(** A [validate] that raises an error of no known class on every result. *)
Definition refuse (result : nat) (w : nat) : nat * (Exception + unit) :=
  (w, inl (OtherException "AssertionError")).

Definition no_context (e : Exception) : option string := None.

Definition example_operation_name (op : Operation) : string :=
  match op with
  | VideoPlayerStreamInfoOverlayChannel => "VideoPlayerStreamInfoOverlayChannel"
  | GetIDFromLogin => "GetIDFromLogin"
  | ChannelFollows => "ChannelFollows"
  | JoinRaid => "JoinRaid"
  | PlaybackAccessToken => "PlaybackAccessToken"
  | ChannelPointsContext => "ChannelPointsContext"
  | MakePrediction => "MakePrediction"
  | ClaimCommunityPoints => "ClaimCommunityPoints"
  | CommunityMomentCallout_Claim => "CommunityMomentCallout_Claim"
  | DropsHighlightService_AvailableDrops => "DropsHighlightService_AvailableDrops"
  | Inventory => "Inventory"
  | ViewerDropsDashboard => "ViewerDropsDashboard"
  | DropCampaignDetails => "DropCampaignDetails"
  | DropsPage_ClaimDropRewards => "DropsPage_ClaimDropRewards"
  | UserPointsContribution => "UserPointsContribution"
  | ContributeCommunityPointsCommunityGoal => "ContributeCommunityPointsCommunityGoal"
  end.

Definition example_constants (op : Operation) : json :=
  JDict [("operationName", JStr (example_operation_name op)); ("variables", JDict [])].

Definition example_imports : Imports :=
  mkImports "https://gql.example/gql" "client-id"
    (λ history nbytes, "000102030405060708090a0b0c0d0e0f") (λ e, "Traceback").

(** A page of followers is [null], or one edge with the flag of the page. *)
Definition example_parse_follows (value : json) : Exception + option ChannelFollowsResponse :=
  match value with
  | JNull => inr None
  | JDict [("login", JStr l); ("cursor", JStr c); ("hasNextPage", JBool b)] =>
      inr (Some (Follows.mkChannelFollowsResponse
                   (Follows.mkFollowConnection
                      [Follows.mkFollowEdge (Follows.mkFollowNode l) c]
                      (Follows.mkPageInfo b))))
  | _ => inl (GQLException (InvalidJsonShapeException [] "follows expected"))
  end.

(** A parser that keeps every other response as it is. *)
Definition example_parser : Parser :=
  mkParser json json json json json json json json json json json json json json json
    inr inr example_parse_follows inr inr inr inr inr inr inr inr inr inr inr inr inr.

Definition example_session : ClientSession :=
  mkClientSession "token" "1234" "session" "1.0" "agent" "device".

Definition example_world : World := mkWorld (initial_heap example_constants) [].

Definition ok (value : json) : Exception + Response :=
  inr (mkResponse 200 "" (Some value)).

(** A transport that always answers [value]. *)
Definition always_answers (value : json) (history : list IOEvent) (url : string)
    (body : json) (headers : list (string * string)) : Exception + Response :=
  ok value.

(** A transport that always answers with status 500. *)
Definition always_fails (history : list IOEvent) (url : string)
    (body : json) (headers : list (string * string)) : Exception + Response :=
  inr (mkResponse 500 "Internal Server Error" None).

(** A transport that answers the first request with a page of followers
    that has a next page, and every later request with status 500. *)
Definition first_page_then_errors (history : list IOEvent) (url : string)
    (body : json) (headers : list (string * string)) : Exception + Response :=
  if decide (length (filter is_post history) = 0)
  then ok (JDict [("login", JStr "alice"); ("cursor", JStr "c1");
                  ("hasNextPage", JBool true)])
  else inr (mkResponse 500 "Internal Server Error" None).

(** A transport that answers the first request with an object and every
    later request with an empty array. *)
Definition object_then_arrays (history : list IOEvent) (url : string)
    (body : json) (headers : list (string * string)) : Exception + Response :=
  if decide (length (filter is_post history) = 0)
  then ok (JDict [])
  else ok (JList []).

Definition example_gql
    (transport : list IOEvent → string → json → list (string * string)
                 → Exception + Response) : GQL :=
  mkGQL example_session (mkAttemptStrategy 3 1) example_parser transport.

(** A transport that serves two pages of followers: the first one to a
    request with the empty cursor, the last one to a request with the
    cursor of the first; it answers every other request with status 500. *)
Definition pages_by_cursor (history : list IOEvent) (url : string)
    (body : json) (headers : list (string * string)) : Exception + Response :=
  match request_cursor body with
  | Some (JStr c) =>
      if String.eqb c ""
      then ok (JDict [("login", JStr "alice"); ("cursor", JStr "c1");
                      ("hasNextPage", JBool true)])
      else if String.eqb c "c1"
      then ok (JDict [("login", JStr "bob"); ("cursor", JStr "c2");
                      ("hasNextPage", JBool false)])
      else inr (mkResponse 500 "Internal Server Error" None)
  | _ => inr (mkResponse 500 "Internal Server Error" None)
  end.

(** Templates without the field [variables]. *)
Definition bare_constants (op : Operation) : json :=
  JDict [("operationName", JStr (example_operation_name op))].

(** * Properties *)

(** ** The retry engine *)


Lemma filter_sleep_pass evs : is_pass evs → filter is_sleep evs = [].
Proof. by intros [->| ->]. Qed.

Lemma calls_pass evs : is_pass evs → length (filter is_call_attempt evs) = 1.
Proof. by intros [->| ->]. Qed.

Lemma pass_not_empty evs : is_pass evs → evs ≠ [].
Proof. by intros [->| ->]. Qed.

(** The events of passes that were each followed by a sleep. *)
Lemma slept_sleeps seconds passes :
  Forall is_pass passes →
  filter is_sleep (concat ((λ evs, evs ++ [Sleep seconds]) <$> passes))
  = replicate (length passes) (Sleep seconds).
Proof.
  induction 1 as [|evs passes Hpass _ IH]; [done|].
  rewrite fmap_cons. cbn [concat].
  by rewrite !filter_app, (filter_sleep_pass _ Hpass), IH.
Qed.

Lemma slept_calls seconds passes :
  Forall is_pass passes →
  length (filter is_call_attempt (concat ((λ evs, evs ++ [Sleep seconds]) <$> passes)))
  = length passes.
Proof.
  induction 1 as [|evs passes Hpass _ IH]; [done|].
  rewrite fmap_cons. cbn [concat].
  by rewrite !filter_app, !length_app, (calls_pass _ Hpass), IH.
Qed.

Lemma interleave_snoc seconds passes evs :
  interleave seconds (passes ++ [evs])
  = concat ((λ evs, evs ++ [Sleep seconds]) <$> passes) ++ evs.
Proof.
  induction passes as [|evs1 passes IH]; [done|].
  destruct passes as [|evs2 passes].
  { cbn. by rewrite app_nil_r, <- app_assoc. }
  change (interleave seconds ((evs1 :: evs2 :: passes) ++ [evs]))
    with (evs1 ++ Sleep seconds :: interleave seconds ((evs2 :: passes) ++ [evs])).
  rewrite IH, (fmap_cons _ evs1). cbn [concat]. by rewrite <- !app_assoc.
Qed.

Section make_attempts_facts.
Context {W TResult : Type}.
Variable self : AttemptStrategy.
Variable attempt : W → W * (Exception + TResult).
Variable validate : TResult → W → W * (Exception + unit).
Variable retryable : Exception → bool.
Variable exception_context : Exception → option string.

Local Abbreviation block := (try_block attempt validate).
Local Abbreviation loop := (make_attempts_loop self attempt validate retryable exception_context).
Local Abbreviation run := (make_attempts self attempt validate retryable exception_context).
Local Abbreviation failing := (retried self attempt validate retryable).
Local Abbreviation raises := (pass_raises attempt validate).
Local Abbreviation returns := (pass_returns attempt validate).
Local Abbreviation recorded := (context_of exception_context).
Local Abbreviation interval := (attempt_interval_seconds self).
Local Abbreviation slept passes :=
  (concat ((λ evs, evs ++ [Sleep (attempt_interval_seconds self)]) <$> passes)).

(** The [try] block raises when [attempt] or [validate] does, and reaches
    its [return] when neither does. *)
Lemma block_raises w e w' : raises w e w' ↔ ∃ evs, block w = (w', evs, inl e).
Proof.
  unfold pass_raises, try_block. split.
  - intros [Ha|(v & w1 & Ha & Hv)]; rewrite Ha; [by eexists|]. rewrite Hv. by eexists.
  - intros [evs Hb]. destruct (attempt w) as [w1 [e1|v]].
    + injection Hb as <- <- <-. by left.
    + destruct (validate v w1) as [w2 [e2|u]] eqn:Hv; [|done].
      injection Hb as <- <- <-. right. by exists v, w1.
Qed.

Lemma block_returns w v w' : returns w v w' ↔ ∃ evs, block w = (w', evs, inr v).
Proof.
  unfold pass_returns, try_block. split.
  - intros (w1 & Ha & Hv). rewrite Ha, Hv. by eexists.
  - intros [evs Hb]. destruct (attempt w) as [w1 [e1|v1]]; [done|].
    destruct (validate v1 w1) as [w2 [e2|[]]] eqn:Hv; [done|].
    injection Hb as <- <- <-. by exists w1.
Qed.

Lemma block_is_pass w w' evs r : block w = (w', evs, r) → is_pass evs.
Proof.
  unfold try_block. destruct (attempt w) as [w1 [e|v]].
  - intros [= <- <- <-]. by left.
  - destruct (validate v w1) as [w2 [e|u]]; intros [= <- <- <-]; by right.
Qed.

(** One pass through the [try] block calls [attempt] once and never sleeps. *)
Lemma try_block_events w w' evs r :
  block w = (w', evs, r) →
  filter is_sleep evs = [] ∧ length (filter is_call_attempt evs) = 1.
Proof.
  intros Hpass%block_is_pass. split; [by apply filter_sleep_pass|by apply calls_pass].
Qed.

(** The loop goes through the retried passes, sleeping after each. *)
Lemma loop_retried w es w1 :
  failing w es w1 →
  ∃ passes,
    length passes = length es ∧ Forall is_pass passes
    ∧ ∀ fuel made errors tr,
        length es ≤ fuel →
        (made + Z.of_nat (length es) < attempts self)%Z →
        loop fuel made errors w tr
        = loop (fuel - length es) (made + Z.of_nat (length es))
            (errors ++ (recorded <$> es)) w1 (tr ++ slept passes).
Proof.
  induction 1 as [w|w w1 e es w' Hpass Hre Hsleep Hrest (passes & Hlen & Hall & IH)].
  - exists []. split; [done|]. split; [done|]. intros fuel made errors tr _ _. simpl.
    by rewrite Z.add_0_r, !app_nil_r, Nat.sub_0_r.
  - apply block_raises in Hpass as [evs Hb].
    exists (evs :: passes). split; [simpl; by rewrite Hlen|].
    split; [constructor; [by eapply block_is_pass|done]|].
    intros fuel made errors tr Hfuel Hlt. simpl length in Hfuel, Hlt.
    destruct fuel as [|fuel]; [lia|].
    cbn [make_attempts_loop]. rewrite (proj2 (Z.ltb_lt _ _)) by lia.
    rewrite Hb, Hre. cbn [negb].
    destruct (Z.geb_spec (made + 1) (attempts self)) as [?|_]; [lia|].
    rewrite Hsleep, IH by lia.
    simpl length. f_equal; [lia| |].
    + by rewrite <- app_assoc.
    + simpl. by rewrite <- !app_assoc.
Qed.

Lemma loop_pass_returns fuel made errors w tr v w' :
  returns w v w' →
  (made < attempts self)%Z →
  loop (S fuel) made errors w tr
  = (w', tr ++ [CallAttempt; CallValidate], Returned (SuccessResult errors v)).
Proof.
  intros (w1 & Ha & Hv) Hlt. simpl. rewrite (proj2 (Z.ltb_lt _ _)) by done.
  unfold try_block. by rewrite Ha, Hv.
Qed.

Lemma loop_last_error fuel made errors w tr e w' :
  raises w e w' →
  (made < attempts self)%Z →
  retryable e = false ∨ (attempts self ≤ made + 1)%Z →
  ∃ evs,
    is_pass evs
    ∧ loop (S fuel) made errors w tr
      = (w', tr ++ evs, Returned (ErrorResult (errors ++ [recorded e]))).
Proof.
  intros [evs Hb]%block_raises Hlt Hlast. exists evs.
  split; [by eapply block_is_pass|].
  simpl. rewrite (proj2 (Z.ltb_lt _ _)) by done. rewrite Hb.
  destruct (retryable e); [|done]. simpl.
  destruct Hlast as [?|Hlast]; [done|].
  by rewrite (proj2 (Z.geb_le _ _)) by lia.
Qed.


(** Every way in which the loop ends, with the events of each. *)
Lemma loop_cases fuel :
  ∀ made errors w tr,
    Z.to_nat (attempts self - made) < fuel →
    ∃ w' tr' r,
      loop fuel made errors w tr = (w', tr', r)
      ∧ ((∃ es w1 v passes,
            failing w es w1 ∧ returns w1 v w'
            ∧ r = Returned (SuccessResult (errors ++ (recorded <$> es)) v)
            ∧ (made + Z.of_nat (length es) < attempts self)%Z
            ∧ length passes = length es ∧ Forall is_pass passes
            ∧ tr' = tr ++ slept passes ++ [CallAttempt; CallValidate])
         ∨ (∃ es e w1 passes evs,
              failing w es w1 ∧ raises w1 e w'
              ∧ r = Returned (ErrorResult (errors ++ (recorded <$> (es ++ [e]))))
              ∧ (made + Z.of_nat (length es) < attempts self)%Z
              ∧ (retryable e = false
                 ∨ retryable e = true
                   ∧ (made + Z.of_nat (length es) + 1 = attempts self)%Z)
              ∧ length passes = length es ∧ Forall is_pass passes ∧ is_pass evs
              ∧ tr' = tr ++ slept passes ++ evs)
         ∨ (¬ (made < attempts self)%Z
            ∧ r = Returned (ErrorResult errors) ∧ w' = w ∧ tr' = tr)
         ∨ (∃ e ex evs,
              raises w e w' ∧ retryable e = true
              ∧ (made + 1 < attempts self)%Z
              ∧ time_sleep interval = Some ex ∧ r = Raised ex
              ∧ is_pass evs ∧ tr' = tr ++ evs ++ [Sleep interval])).
Proof.
  induction fuel as [|fuel IH]; intros made errors w tr Hfuel; [lia|].
  cbn [make_attempts_loop].
  destruct (Z.ltb_spec made (attempts self)) as [Hlt|Hge].
  - destruct (block w) as [[w1 evs] [e|v]] eqn:Hb.
    + pose proof (block_is_pass _ _ _ _ Hb) as Hpass.
      assert (raises w e w1) as Hraises by (apply block_raises; by exists evs).
      destruct (retryable e) eqn:Hre; cbn [negb].
      * destruct (Z.geb_spec (made + 1) (attempts self)) as [Hlast|Hmore].
        -- eexists _, _, _. split; [done|]. right. left.
           exists [], e, w, [], evs. simpl. rewrite Z.add_0_r.
           repeat split; try done; [constructor|right; split; [done|lia]].
        -- destruct (time_sleep interval) as [ex|] eqn:Hsleep.
           ++ eexists _, _, _. split; [done|]. do 3 right.
              by exists e, ex, evs.
           ++ destruct (IH (made + 1)%Z (errors ++ [mkExceptionContext e (exception_context e)])
                          w1 (tr ++ evs ++ [Sleep interval]))
                as (w' & tr' & r & -> & Hcase); [lia|].
              exists w', tr', r. split; [done|].
              destruct Hcase as [Hcase|[Hcase|[Hcase|Hcase]]].
              ** destruct Hcase as (es & w2 & v & passes & Hr & Hv & -> & Hn & Hlen & Hall & ->).
                 left. exists (e :: es), w2, v, (evs :: passes). simpl.
                 split; [by econstructor|]. split; [done|].
                 split; [by rewrite <- app_assoc|]. split; [lia|].
                 split; [by rewrite Hlen|]. split; [by constructor|].
                 by rewrite <- !app_assoc.
              ** destruct Hcase
                   as (es & e2 & w2 & passes & evs2 & Hr & He & -> & Hn & Hwhy & Hlen
                       & Hall & Hpass2 & ->).
                 right. left. exists (e :: es), e2, w2, (evs :: passes), evs2. simpl.
                 split; [by econstructor|]. split; [done|].
                 split; [by rewrite <- app_assoc|]. split; [lia|].
                 split; [destruct Hwhy as [?|[? ?]]; [by left|right; split; [done|lia]]|].
                 split; [by rewrite Hlen|]. split; [by constructor|]. split; [done|].
                 by rewrite <- !app_assoc.
              ** destruct Hcase as (Hn & _). lia.
              ** destruct Hcase as (? & ? & ? & _ & _ & _ & Hraised & _). congruence.
      * eexists _, _, _. split; [done|]. right. left.
        exists [], e, w, [], evs. simpl. rewrite Z.add_0_r.
        repeat split; try done; [constructor|by left].
    + assert (returns w v w1) as Hreturns by (apply block_returns; by exists evs).
      assert (evs = [CallAttempt; CallValidate]) as ->.
      { revert Hb. unfold try_block. destruct (attempt w) as [w2 [e2|v2]]; [done|].
        by destruct (validate v2 w2) as [w3 [e3|u]]; intros [= <- <- <-]. }
      eexists _, _, _. split; [done|]. left.
      exists [], w, v, []. simpl. rewrite Z.add_0_r, app_nil_r.
      repeat split; try done. constructor.
  - eexists _, _, _. split; [done|]. right. right. left. repeat split; try done. lia.
Qed.

(** The run ends: the fuel that [make_attempts] gives the loop is enough. *)
Lemma make_attempts_returns w :
  ∃ w' tr r, run w = (w', tr, r) ∧ r ≠ OutOfFuel.
Proof.
  destruct (loop_cases (S (Z.to_nat (attempts self))) 0 [] w [])
    as (w' & tr & r & Hrun & Hcase); [lia|].
  exists w', tr, r. split; [done|].
  destruct Hcase as [Hcase|[Hcase|[Hcase|Hcase]]].
  - by destruct Hcase as (? & ? & ? & ? & _ & _ & -> & _).
  - by destruct Hcase as (? & ? & ? & ? & ? & _ & _ & -> & _).
  - by destruct Hcase as (_ & -> & _).
  - by destruct Hcase as (? & ? & ? & _ & _ & _ & _ & -> & _).
Qed.

(** A run whose retried passes are followed by a pass that returns. *)
Lemma make_attempts_success es v w w1 w2 :
  failing w es w1 →
  returns w1 v w2 →
  (Z.of_nat (length es) < attempts self)%Z →
  ∃ passes,
    length passes = length es ∧ Forall is_pass passes
    ∧ run w = (w2, slept passes ++ [CallAttempt; CallValidate],
               Returned (SuccessResult (recorded <$> es) v)).
Proof.
  intros Hr Hv Hlen. destruct (loop_retried _ _ _ Hr) as (passes & Hn & Hall & Hloop).
  exists passes. split; [done|]. split; [done|].
  unfold make_attempts. rewrite Hloop by lia.
  replace (S (Z.to_nat (attempts self)) - length es)
    with (S (Z.to_nat (attempts self) - length es)) by lia.
  by rewrite (loop_pass_returns _ _ _ _ _ _ _ Hv) by lia.
Qed.

(** A run whose retried passes are followed by a pass that raises the last
    error: one that is not retryable, or the error of the last pass that
    [attempts] allows. *)
Lemma make_attempts_last_error es e w w1 w2 :
  failing w es w1 →
  raises w1 e w2 →
  (Z.of_nat (length es) < attempts self)%Z →
  retryable e = false ∨ (attempts self ≤ Z.of_nat (length es) + 1)%Z →
  ∃ passes evs,
    length passes = length es ∧ Forall is_pass passes ∧ is_pass evs
    ∧ run w = (w2, slept passes ++ evs,
               Returned (ErrorResult (recorded <$> (es ++ [e])))).
Proof.
  intros Hr He Hlen Hlast. destruct (loop_retried _ _ _ Hr) as (passes & Hn & Hall & Hloop).
  unfold make_attempts. rewrite Hloop by lia.
  replace (S (Z.to_nat (attempts self)) - length es)
    with (S (Z.to_nat (attempts self) - length es)) by lia.
  destruct (loop_last_error (Z.to_nat (attempts self) - length es)
              (0 + Z.of_nat (length es)) ([] ++ (recorded <$> es)) w1 ([] ++ slept passes)
              e w2 He)
    as (evs & Hpass & ->); [lia|destruct Hlast; [by left|right; lia]|].
  exists passes, evs. simpl. by rewrite fmap_app.
Qed.

Lemma try_block_invariant (P : nat → W → Prop) :
  (∀ n w w' r, P n w → attempt w = (w', r) → P (S n) w') →
  (∀ n v w w' r, P n w → validate v w = (w', r) → P n w') →
  ∀ n w w' evs r,
    P n w → block w = (w', evs, r) →
    P (n + length (filter is_call_attempt evs)) w'.
Proof.
  intros Ha Hv n w w' evs r HP. unfold try_block.
  destruct (attempt w) as [w1 [e|v]] eqn:Hatt.
  - intros [= <- <- <-]. simpl. rewrite Nat.add_1_r. eauto.
  - destruct (validate v w1) as [w2 [e|[]]] eqn:Hval;
      intros [= <- <- <-]; simpl; rewrite Nat.add_1_r; eauto.
Qed.

(** An invariant of the callbacks, indexed by the number of calls of
    [attempt], holds for the whole run. *)
Lemma loop_invariant (P : nat → W → Prop) :
  (∀ n w w' r, P n w → attempt w = (w', r) → P (S n) w') →
  (∀ n v w w' r, P n w → validate v w = (w', r) → P n w') →
  ∀ fuel made errors w tr w' tr' r,
    P (length (filter is_call_attempt tr)) w →
    loop fuel made errors w tr = (w', tr', r) →
    P (length (filter is_call_attempt tr')) w'.
Proof.
  intros Ha Hv. induction fuel as [|fuel IH]; intros made errors w tr w' tr' r HP; simpl.
  - by intros [= <- <- <-].
  - destruct (made <? attempts self)%Z; [|by intros [= <- <- <-]].
    destruct (block w) as [[w1 evs] res] eqn:Ht.
    pose proof (try_block_invariant P Ha Hv _ _ _ _ _ HP Ht) as HP1.
    rewrite <- length_app, <- filter_app in HP1.
    destruct res as [e|v]; [|by intros [= <- <- <-]].
    destruct (negb (retryable e)); [by intros [= <- <- <-]|].
    destruct (made + 1 >=? attempts self)%Z; [by intros [= <- <- <-]|].
    assert (length (filter is_call_attempt (tr ++ evs ++ [Sleep interval]))
            = length (filter is_call_attempt (tr ++ evs))) as Hsame.
    { rewrite app_assoc, filter_app, length_app.
      rewrite filter_cons_False by (by intros []). simpl. by rewrite Nat.add_0_r. }
    destruct (time_sleep interval).
    + intros [= <- <- <-]. by rewrite Hsame.
    + apply IH. by rewrite Hsame.
Qed.

Lemma make_attempts_invariant (P : nat → W → Prop) :
  (∀ n w w' r, P n w → attempt w = (w', r) → P (S n) w') →
  (∀ n v w w' r, P n w → validate v w = (w', r) → P n w') →
  ∀ w w' tr r,
    P 0 w → run w = (w', tr, r) → P (length (filter is_call_attempt tr)) w'.
Proof. intros Ha Hv w w' tr r HP. by apply loop_invariant. Qed.

(** [attempt] is called at most [self.attempts] times, and at least once
    when [self.attempts] is positive. *)
Lemma loop_attempt_count fuel :
  ∀ made errors w tr w' tr' r,
    loop fuel made errors w tr = (w', tr', r) →
    (Z.of_nat (length (filter is_call_attempt tr'))
     ≤ Z.of_nat (length (filter is_call_attempt tr)) + Z.max 0 (attempts self - made))%Z
    ∧ length (filter is_call_attempt tr) ≤ length (filter is_call_attempt tr')
    ∧ ((made < attempts self)%Z → 0 < fuel →
       length (filter is_call_attempt tr) < length (filter is_call_attempt tr')).
Proof.
  induction fuel as [|fuel IH]; intros made errors w tr w' tr' r; simpl.
  - intros [= <- <- <-]. lia.
  - destruct (Z.ltb_spec made (attempts self)); [|intros [= <- <- <-]; lia].
    destruct (block w) as [[w1 evs] res] eqn:Ht.
    destruct (try_block_events _ _ _ _ Ht) as [_ Hc].
    assert (length (filter is_call_attempt (tr ++ evs))
            = S (length (filter is_call_attempt tr))) as Hc'.
    { rewrite filter_app, length_app, Hc. lia. }
    destruct res as [e|v]; [|intros [= <- <- <-]; rewrite Hc'; lia].
    destruct (negb (retryable e)); [intros [= <- <- <-]; rewrite Hc'; lia|].
    destruct (made + 1 >=? attempts self)%Z; [intros [= <- <- <-]; rewrite Hc'; lia|].
    assert (length (filter is_call_attempt (tr ++ evs ++ [Sleep interval]))
            = S (length (filter is_call_attempt tr))) as Hc''.
    { rewrite app_assoc, filter_app, length_app, Hc'.
      rewrite filter_cons_False by (by intros []). simpl. lia. }
    destruct (time_sleep interval); [intros [= <- <- <-]; rewrite Hc''; lia|].
    intros Hrun. apply IH in Hrun as (Hle & Hge & _).
    rewrite Hc'' in Hle, Hge. lia.
Qed.

Lemma make_attempts_attempt_count w w' tr r :
  run w = (w', tr, r) →
  length (filter is_call_attempt tr) ≤ Z.to_nat (attempts self)
  ∧ ((1 ≤ attempts self)%Z → 1 ≤ length (filter is_call_attempt tr)).
Proof.
  intros Hrun. apply loop_attempt_count in Hrun as (Hle & _ & Hge). simpl in *.
  split; [lia|]. intros HN. specialize (Hge ltac:(lia) ltac:(lia)). lia.
Qed.

(** C4.  With [attempts = N ≥ 1]: when the first [N - 1] passes through the
    [try] block raise retryable errors [es], each raised by [attempt] or, on
    the result that [attempt] returned, by [validate], and each followed by
    a sleep that [time.sleep] accepts, and the [N]-th pass succeeds with [v]
    ([attempt] returns it and [validate] accepts it), [make_attempts]
    returns [SuccessResult] with exactly the [N - 1] errors, oldest first,
    and [v]; [time.sleep(attempt_interval_seconds)] ran exactly [N - 1]
    times and [attempt] exactly [N] times.  When the first pass succeeds,
    the result is [SuccessResult] with no error, and nothing slept. *)
Theorem make_attempts_succeeds_after_retries :
  (1 ≤ attempts self)%Z →
  (∀ es v w w1 w2,
     length es = Z.to_nat (attempts self - 1) →
     retried self attempt validate retryable w es w1 →
     pass_returns attempt validate w1 v w2 →
     ∃ tr, make_attempts self attempt validate retryable exception_context w
           = (w2, tr, Returned (SuccessResult (context_of exception_context <$> es) v))
         ∧ length (context_of exception_context <$> es) = Z.to_nat (attempts self - 1)
         ∧ filter is_sleep tr
           = replicate (Z.to_nat (attempts self - 1))
               (Sleep (attempt_interval_seconds self))
         ∧ length (filter is_call_attempt tr) = Z.to_nat (attempts self))
  ∧ (∀ v w w2,
       pass_returns attempt validate w v w2 →
       make_attempts self attempt validate retryable exception_context w
       = (w2, [CallAttempt; CallValidate], Returned (SuccessResult [] v))).
Proof.
  intros HN. split.
  - intros es v w w1 w2 Hlen Hr Hv.
    destruct (make_attempts_success es v w w1 w2 Hr Hv) as (passes & Hn & Hall & Hrun);
      [lia|].
    eexists. split; [exact Hrun|].
    rewrite length_fmap, !filter_app, length_app, slept_sleeps, slept_calls by done.
    simpl. rewrite app_nil_r, Hn, Hlen. repeat split; try done. lia.
  - intros v w w2 Hv.
    destruct (make_attempts_success [] v w w w2 (retried_nil _ _ _ _ w) Hv)
      as (passes & Hn & _ & Hrun); [simpl; lia|].
    by destruct passes.
Qed.

(** C5.  With [attempts = N ≥ 1]: when the error [e] of pass [k ≤ N],
    raised by [attempt] or by [validate], is not retryable (the [k - 1]
    errors [es] before it were, each followed by a sleep that [time.sleep]
    accepts), [make_attempts] returns [ErrorResult] with exactly [k] errors;
    [attempt] was called [k] times, and the trace ends with the events [evs]
    of the [k]-th pass through the [try] block, none of which is a sleep:
    nothing sleeps after [e]. *)
Theorem make_attempts_stops_at_fatal_error (k : nat) es e w w1 w2 :
  (1 ≤ Z.of_nat k ≤ attempts self)%Z →
  length es = k - 1 →
  retried self attempt validate retryable w es w1 →
  pass_raises attempt validate w1 e w2 →
  retryable e = false →
  ∃ tr evs,
    make_attempts self attempt validate retryable exception_context w
    = (w2, tr ++ evs,
       Returned (ErrorResult (context_of exception_context <$> (es ++ [e]))))
    ∧ length (context_of exception_context <$> (es ++ [e])) = k
    ∧ length (filter is_call_attempt (tr ++ evs)) = k
    ∧ filter is_sleep (tr ++ evs)
      = replicate (k - 1) (Sleep (attempt_interval_seconds self))
    ∧ is_pass evs.
Proof.
  intros Hk Hlen Hr He Hnr.
  destruct (make_attempts_last_error es e w w1 w2 Hr He)
    as (passes & evs & Hn & Hall & Hpass & Hrun); [lia|by left|].
  exists (slept passes), evs. split; [exact Hrun|].
  rewrite length_fmap, length_app, !filter_app, length_app, slept_sleeps, slept_calls
    by done.
  rewrite (filter_sleep_pass _ Hpass), (calls_pass _ Hpass), app_nil_r, Hn, Hlen. simpl.
  repeat split; try done; lia.
Qed.

End make_attempts_facts.

(** Three attempts allowed; [validate] rejects the results of the first
    two, with an error that is retryable, and accepts the third. *)
Lemma make_attempts_succeeds_after_retries_witness :
  ∃ tr,
    make_attempts (mkAttemptStrategy 3 1) (flaky 0) (reject_below 2)
      is_recoverable_error no_context 0
    = (3, tr,
       Returned (SuccessResult
                   [mkExceptionContext (RequestException "Rejected") None;
                    mkExceptionContext (RequestException "Rejected") None] 2))
    ∧ filter is_sleep tr = [Sleep 1; Sleep 1]
    ∧ length (filter is_call_attempt tr) = 3.
Proof.
  destruct (proj1 (make_attempts_succeeds_after_retries (mkAttemptStrategy 3 1)
                     (flaky 0) (reject_below 2) is_recoverable_error no_context
                     ltac:(simpl; lia))
              [RequestException "Rejected"; RequestException "Rejected"]
              2 0 2 3)
    as (tr & Hrun & _ & Hsleep & Hcalls).
  - reflexivity.
  - eapply retried_cons; [right; by exists 0, 1|reflexivity|reflexivity|].
    eapply retried_cons; [right; by exists 1, 2|reflexivity|reflexivity|].
    apply retried_nil.
  - by exists 3.
  - exists tr. split; [exact Hrun|]. split; [exact Hsleep|exact Hcalls].
Defined.

(** Three attempts allowed; [attempt] returns and [validate] raises an
    error that is not retryable. *)
Lemma make_attempts_stops_at_fatal_error_witness :
  ∃ tr evs,
    make_attempts (mkAttemptStrategy 3 1) (flaky 0) refuse is_recoverable_error
      no_context 0
    = (1, tr ++ evs,
       Returned (ErrorResult [mkExceptionContext (OtherException "AssertionError") None]))
    ∧ length (filter is_call_attempt (tr ++ evs)) = 1
    ∧ filter is_sleep (tr ++ evs) = [].
Proof.
  destruct (make_attempts_stops_at_fatal_error (mkAttemptStrategy 3 1)
              (flaky 0) refuse is_recoverable_error no_context
              1 [] (OtherException "AssertionError") 0 0 1)
    as (tr & evs & Hrun & _ & Hcalls & Hsleep & _).
  - simpl. lia.
  - reflexivity.
  - apply retried_nil.
  - right. by exists 0, 1.
  - reflexivity.
  - exists tr, evs. split; [exact Hrun|]. split; [exact Hcalls|exact Hsleep].
Defined.

(** Two attempts allowed, an interval of one second, two timeouts. *)
Example two_timeouts_with_an_interval :
  make_attempts (mkAttemptStrategy 2 1) (flaky 7) accept is_recoverable_error no_context 0
  = (2, [CallAttempt; Sleep 1; CallAttempt],
     Returned (ErrorResult
                 [mkExceptionContext (RequestException "ReadTimeout") None;
                  mkExceptionContext (RequestException "ReadTimeout") None])).
Proof. reflexivity. Qed.

(** The same with a negative interval: [time.sleep] raises after the
    first pass, and [make_attempts] returns no result. *)
Example two_timeouts_with_a_negative_interval :
  make_attempts (mkAttemptStrategy 2 (-1)) (flaky 7) accept is_recoverable_error
    no_context 0
  = (1, [CallAttempt; Sleep (-1)], Raised (OtherException "ValueError")).
Proof. reflexivity. Qed.

(** ** The error taxonomy *)

(** C7.  [GQLResponseErrors.recoverable()] is true exactly when every error
    of its list is recoverable; in particular it is true of the empty list. *)
Theorem response_errors_recoverable_iff_all operation_name (errors : list Error) :
  (recoverable (GQLResponseErrors operation_name errors) = true
   ↔ ∀ error, error ∈ errors → error_recoverable error = true)
  ∧ recoverable (GQLResponseErrors operation_name []) = true.
Proof.
  split; [|done]. simpl. rewrite forallb_forall.
  split; intros H error Hin; apply H; by apply list_elem_of_In.
Qed.

(** C6.  [is_recoverable_error] is true of every [RequestException], is
    [e.recoverable()] of a [GQLError] [e], and false of every other
    exception; [error_context] is [None] of every [GQLError], and the string
    of [traceback.format_exc()] exactly of the exceptions that are not
    [GQLError]s. *)
Theorem classification_of_errors (imports : Imports) :
  (∀ detail, is_recoverable_error (RequestException detail) = true)
  ∧ (∀ e, is_recoverable_error (GQLException e) = recoverable e)
  ∧ (∀ detail, is_recoverable_error (OtherException detail) = false)
  ∧ (∀ e, error_context imports (GQLException e) = None)
  ∧ (∀ e, (∃ trace, error_context imports e = Some trace) ↔ ∀ g, e ≠ GQLException g)
  ∧ (∀ e, (∀ g, e ≠ GQLException g) → error_context imports e = Some (format_exc imports e)).
Proof.
  repeat split; try done.
  - intros [trace H] g ->. done.
  - intros H. destruct e as [d|g|d]; [by eexists| |by eexists]. by destruct (H g).
  - intros e H. destruct e as [d|g|d]; [done| |done]. by destruct (H g).
Qed.

(** ** The request executor *)

(** Reading a dict after a write. *)
Lemma dict_get_set key value fields :
  dict_get key (dict_set key value fields) = Some value.
Proof.
  induction fields as [|[k v] rest IH]; simpl.
  - by rewrite decide_True.
  - destruct (decide (k = key)) as [->|Hne]; simpl.
    + by rewrite decide_True.
    + by rewrite decide_False.
Qed.

Lemma dict_get_set_ne key key' value fields :
  key' ≠ key → dict_get key' (dict_set key value fields) = dict_get key' fields.
Proof.
  intros Hne. induction fields as [|[k v] rest IH]; simpl.
  - by rewrite decide_False.
  - destruct (decide (k = key)) as [->|Hk]; simpl.
    + by rewrite !decide_False.
    + destruct (decide (k = key')); [done|apply IH].
Qed.

(** [parse_each] succeeds exactly when [parse] accepts every item, and then
    the values are in the order of the items. *)
Lemma parse_each_inr {T} (parse : json → Exception + T) items values :
  parse_each parse items = inr values
  ↔ Forall2 (λ item value, parse item = inr value) items values.
Proof.
  revert values. induction items as [|item rest IH]; intros values; simpl.
  - split.
    + intros [= <-]. constructor.
    + intros H. by inversion H.
  - destruct (parse item) as [e|v] eqn:Hp.
    + split; [done|]. intros H. inversion H; congruence.
    + destruct (parse_each parse rest) as [e|vs] eqn:Hr.
      * split; [done|]. intros H. inversion H as [|? ? ? vs' ? H2]; subst.
        apply IH in H2. done.
      * split.
        -- intros [= <-]. constructor; [done|]. by apply IH.
        -- intros H. inversion H as [|? ? ? vs' H1 H2]; subst.
           apply IH in H2. congruence.
Qed.

Lemma deref_insert h l value : deref (<[l := value]> h) l = value.
Proof. unfold deref. by rewrite lookup_insert_eq. Qed.

Lemma deref_insert_ne h l l' value : l ≠ l' → deref (<[l := value]> h) l' = deref h l'.
Proof. intros. unfold deref. by rewrite lookup_insert_ne. Qed.

Lemma fresh_not_allocated (h : gmap loc json) l value :
  h !! l = Some value → fresh (dom h) ≠ l.
Proof.
  intros Hl Heq. apply (is_fresh (dom h)). rewrite Heq. apply elem_of_dom. eauto.
Qed.

Lemma operation_name_of_world l w : (operation_name_of l w).1 = w.
Proof.
  unfold operation_name_of, getitem, mbind, M_bind.
  destruct (deref (heap w) l); try done.
  destruct (dict_get _ _) as [[]|]; done.
Qed.

Lemma operation_name_of_loaded op w :
  template_loaded (heap w) op →
  ∃ name, operation_name_of (template op) w = (w, Returned name).
Proof.
  intros (fields & name & Hl & Hn). exists name.
  unfold operation_name_of, getitem, mbind, M_bind, deref.
  rewrite Hl. simpl. by rewrite Hn.
Qed.

Lemma bind_returned {A B} (m : M A) (k : A → M B) w w' a :
  m w = (w', Returned a) → (m ≫= k) w = k a w'.
Proof. intros H. unfold mbind, M_bind. by rewrite H. Qed.

Lemma bind_raised {A B} (m : M A) (k : A → M B) w w' e :
  m w = (w', Raised e) → (m ≫= k) w = (w', Raised e).
Proof. intros H. unfold mbind, M_bind. by rewrite H. Qed.

Section gql_facts.
Variable imports : Imports.
Variable self : GQL.

Local Abbreviation headers := (request_headers imports self).
Local Abbreviation posted body := (Post (url imports) body (request_headers imports self)).
Local Abbreviation strategy := (attempt_strategy self).

(** One attempt posts the body of the request once and changes no object. *)
Lemma post_gql_request_world {T} request_json (parse : json → Exception + T) w :
  (__post_gql_request imports self request_json parse w).1
  = mkWorld (heap w) (history w ++ [posted (serialise (heap w) request_json)]).
Proof.
  unfold __post_gql_request.
  destruct (post_request _ _ _ _ _) as [e|response]; [done|].
  destruct (raise_for_status response); [done|].
  by destruct (response_json response).
Qed.

(** A run of the retry engine on a request changes no object and posts
    the same body once per attempt. *)
Lemma attempt_request_world {T} request_json (parse : json → Exception + T) w w' tr r :
  attempt_request imports self request_json parse w = (w', tr, r) →
  heap w' = heap w
  ∧ history w' = history w
      ++ replicate (length (filter is_call_attempt tr))
           (posted (serialise (heap w) request_json))
  ∧ length (filter is_call_attempt tr) ≤ Z.to_nat (attempts strategy)
  ∧ ((1 ≤ attempts strategy)%Z → 1 ≤ length (filter is_call_attempt tr))
  ∧ r ≠ OutOfFuel.
Proof.
  intros Hrun. unfold attempt_request in Hrun.
  pose proof (make_attempts_attempt_count _ _ _ _ _ _ _ _ _ Hrun) as [Hle Hge].
  pose proof (make_attempts_returns strategy
                (__post_gql_request imports self request_json parse)
                validate_response is_recoverable_error (error_context imports) w)
    as (? & ? & r' & Hr' & Hsome).
  assert (r ≠ OutOfFuel) as Hended by (rewrite Hrun in Hr'; by injection Hr' as -> -> ->).
  apply (make_attempts_invariant _ _ _ _ _
           (λ n w1, heap w1 = heap w
                    ∧ history w1 = history w
                        ++ replicate n (posted (serialise (heap w) request_json))))
    in Hrun as [Hheap Hhist]; [done| | |].
  - intros n w1 w2 res [Hh Hi] Hatt.
    pose proof (post_gql_request_world request_json parse w1) as Hw.
    rewrite Hatt in Hw. simpl in Hw. subst w2. simpl. split; [done|].
    rewrite Hi, Hh, <- app_assoc. f_equal.
    by rewrite <- replicate_cons_app.
  - intros n v w1 w2 res HP [= <- <-]. done.
  - split; [done|]. simpl. by rewrite app_nil_r.
Qed.

Lemma post_gql_request_single_world {T} operation_name l (parse : json → Exception + T) w :
  ∃ n, heap (post_gql_request_single imports self operation_name l parse w).1 = heap w
     ∧ history (post_gql_request_single imports self operation_name l parse w).1
       = history w ++ replicate n (posted (deref (heap w) l))
     ∧ n ≤ Z.to_nat (attempts strategy)
     ∧ ((1 ≤ attempts strategy)%Z → 1 ≤ n).
Proof.
  unfold post_gql_request_single.
  destruct (attempt_request _ _ _ _ w) as [[w' tr] r] eqn:Hrun.
  apply attempt_request_world in Hrun as (Hh & Hi & Hle & Hge & _).
  eexists. by destruct r.
Qed.


(** A response to a batched request that is not an array ends the run of
    the retry engine with the attempt that received it. *)
Lemma post_gql_request_decodes {T} request_json (parse : json → Exception + T)
    w response value :
  post_request self (history w) (url imports)
    (serialise (heap w) request_json) headers = inr response →
  raise_for_status response = None →
  json_body response = Some value →
  __post_gql_request imports self request_json parse w
  = (mkWorld (heap w) (history w ++ [posted (serialise (heap w) request_json)]),
     decode request_json parse value).
Proof.
  intros Hpost Hstatus Hbody. unfold __post_gql_request.
  rewrite Hpost, Hstatus. unfold response_json. by rewrite Hbody.
Qed.

(** A pass through the [try] block of a request: [validate_response]
    accepts whatever [__post_gql_request] returns. *)
Lemma request_raises {T} request_json (parse : json → Exception + T) w w' e :
  __post_gql_request imports self request_json parse w = (w', inl e) →
  pass_raises (__post_gql_request imports self request_json parse) validate_response
    w e w'.
Proof. intros Hatt. by left. Qed.

Lemma request_returns {T} request_json (parse : json → Exception + T) w w' v :
  __post_gql_request imports self request_json parse w = (w', inr v) →
  pass_returns (__post_gql_request imports self request_json parse) validate_response
    w v w'.
Proof. intros Hatt. by exists w'. Qed.

Lemma decode_batch_shape_error {T} ls (parse : json → Exception + T) value :
  (∀ items, value ≠ JList items) →
  decode (ListRequest ls) parse value = inl (shape_error value).
Proof. intros Hshape. destruct value; try done. by destruct (Hshape items). Qed.

Lemma shape_error_ends_run {T} ls (parse : json → Exception + T) w0 es w response value :
  retried strategy (__post_gql_request imports self (ListRequest ls) parse)
    validate_response is_recoverable_error w0 es w →
  (Z.of_nat (length es) < attempts strategy)%Z →
  post_request self (history w) (url imports)
    (serialise (heap w) (ListRequest ls)) headers = inr response →
  raise_for_status response = None →
  json_body response = Some value →
  (∀ items, value ≠ JList items) →
  ∃ tr, attempt_request imports self (ListRequest ls) parse w0
        = (mkWorld (heap w) (history w ++ [posted (serialise (heap w) (ListRequest ls))]),
           tr,
           Returned
             (ErrorResult
                (context_of (error_context imports) <$> (es ++ [shape_error value])))).
Proof.
  intros Hretried Hlen Hpost Hstatus Hbody Hshape.
  destruct (make_attempts_last_error strategy
              (__post_gql_request imports self (ListRequest ls) parse)
              validate_response is_recoverable_error (error_context imports)
              es (shape_error value) w0 w
              (mkWorld (heap w) (history w ++ [posted (serialise (heap w) (ListRequest ls))]))
              Hretried)
    as (passes & evs & _ & _ & _ & Hres); [|done|by left|by eexists].
  apply request_raises.
  rewrite (post_gql_request_decodes _ _ _ _ _ Hpost Hstatus Hbody).
  by rewrite decode_batch_shape_error.
Qed.

(** C8.  For a batched request (the body is a list) whose transport
    response has a good status: when the response is a JSON array, one
    attempt of [__post_gql_request] applies [parse] to each element in
    order, so that it returns the parsed values in the order of the elements
    when [parse] accepts them all; when the response is not an array, the
    attempt raises [InvalidJsonShapeException]; that error is never
    recoverable, so that the retry engine ends its run with this attempt,
    whatever number of attempts is left. *)
Theorem batched_request_decoding {T} (ls : list loc) (parse : json → Exception + T)
    (w : World) (response : Response) :
  post_request self (history w) (url imports)
    (serialise (heap w) (ListRequest ls)) headers = inr response →
  raise_for_status response = None →
  let w' := mkWorld (heap w) (history w ++ [posted (serialise (heap w) (ListRequest ls))]) in
  (∀ items,
     json_body response = Some (JList items) →
     __post_gql_request imports self (ListRequest ls) parse w = (w', parse_each parse items)
     ∧ ∀ values,
         Forall2 (λ item value, parse item = inr value) items values →
         __post_gql_request imports self (ListRequest ls) parse w = (w', inr values))
  ∧ (∀ value,
       json_body response = Some value →
       (∀ items, value ≠ JList items) →
       let e := GQLException (InvalidJsonShapeException []
                  ("Expected batched response, got " +:+ type_name value)) in
       __post_gql_request imports self (ListRequest ls) parse w = (w', inl e)
       ∧ is_recoverable_error e = false
       ∧ ∀ w0 es,
           retried strategy (__post_gql_request imports self (ListRequest ls) parse)
             validate_response is_recoverable_error w0 es w →
           (Z.of_nat (length es) < attempts strategy)%Z →
           ∃ tr, attempt_request imports self (ListRequest ls) parse w0
                 = (w', tr,
                    Returned
                      (ErrorResult
                         (context_of (error_context imports) <$> (es ++ [e])))))
  ∧ (∀ path message, recoverable (InvalidJsonShapeException path message) = false).
Proof.
  intros Hpost Hstatus w'. split; [|split; [|done]].
  - intros items Hbody.
    rewrite (post_gql_request_decodes _ parse _ _ _ Hpost Hstatus Hbody).
    split; [done|]. intros values Hvalues. simpl.
    by rewrite (proj2 (parse_each_inr parse items values) Hvalues).
  - intros value Hbody Hshape e. split; [|split; [done|]].
    + rewrite (post_gql_request_decodes _ parse _ _ _ Hpost Hstatus Hbody).
      by rewrite decode_batch_shape_error.
    + intros w0 es Hretried Hlen.
      by apply (shape_error_ends_run ls parse w0 es w response value).
Qed.

(** The exceptions that leave a run of the retry engine on a request are
    those of [time.sleep]. *)
Lemma attempt_request_raises {T} request_json (parse : json → Exception + T) w w' tr e :
  attempt_request imports self request_json parse w = (w', tr, Raised e) →
  time_sleep (attempt_interval_seconds strategy) = Some e.
Proof.
  unfold attempt_request, make_attempts. intros Hrun.
  destruct (loop_cases strategy (__post_gql_request imports self request_json parse)
              validate_response is_recoverable_error (error_context imports)
              (S (Z.to_nat (attempts strategy))) 0 [] w [])
    as (w1 & tr1 & r & Hrun' & Hcase); [lia|].
  rewrite Hrun in Hrun'. injection Hrun' as <- <- <-.
  destruct Hcase as [Hcase|[Hcase|[Hcase|Hcase]]].
  - by destruct Hcase as (? & ? & ? & ? & _ & _ & ? & _).
  - by destruct Hcase as (? & ? & ? & ? & ? & _ & _ & ? & _).
  - by destruct Hcase as (_ & ? & _).
  - destruct Hcase as (? & ? & ? & _ & _ & _ & Hsleep & [= ->] & _). done.
Qed.

(** What [post_gql_request_single] raises: the [RetryError] that
    [__handle_result] makes of an [ErrorResult], or what [time.sleep]
    raised. *)
Lemma single_request_raises {T} name l (parse : json → Exception + T) w w' e :
  post_gql_request_single imports self name l parse w = (w', Raised e) →
  (∃ errors, e = GQLException (RetryError name errors))
  ∨ time_sleep (attempt_interval_seconds strategy) = Some e.
Proof.
  unfold post_gql_request_single.
  destruct (attempt_request imports self (DictRequest l) parse w)
    as [[w1 tr] [[errors result|errors]|e'|]] eqn:Hrun; simpl; intros [= <- <-].
  - left. by exists errors.
  - right. by eapply attempt_request_raises.
Qed.

Lemma batch_request_raises {T} name ls (parse : json → Exception + T) w w' e :
  post_gql_request_batch imports self name ls parse w = (w', Raised e) →
  (∃ errors, e = GQLException (RetryError name errors))
  ∨ time_sleep (attempt_interval_seconds strategy) = Some e.
Proof.
  unfold post_gql_request_batch.
  destruct (attempt_request imports self (ListRequest ls) (parse_list parse) w)
    as [[w1 tr] [[errors result|errors]|e'|]] eqn:Hrun; simpl; intros [= <- <-].
  - left. by exists errors.
  - right. by eapply attempt_request_raises.
Qed.

(** The request of a wrapper, once its body is ready. *)
Lemma operation_request_world {T} op l (parse : json → Exception + T) w :
  let m := (operation_name ← operation_name_of (template op);
            post_gql_request_single imports self operation_name l parse) in
  ∃ n, heap (m w).1 = heap w
     ∧ history (m w).1 = history w ++ replicate n (posted (deref (heap w) l))
     ∧ n ≤ Z.to_nat (attempts strategy)
     ∧ (template_loaded (heap w) op → (1 ≤ attempts strategy)%Z → 1 ≤ n).
Proof.
  simpl. unfold mbind, M_bind.
  pose proof (operation_name_of_world (template op) w) as Hw.
  destruct (operation_name_of (template op) w) as [w1 [name|e|]] eqn:Hname;
    simpl in Hw; subst w1.
  - destruct (post_gql_request_single_world name l parse w) as (n & Hn).
    exists n. simpl. destruct Hn as (? & ? & ? & ?). eauto.
  - exists 0. simpl. rewrite app_nil_r. repeat split; try done; try lia.
    intros Hl. destruct (operation_name_of_loaded _ _ Hl). congruence.
  - exists 0. simpl. rewrite app_nil_r. repeat split; try done; try lia.
    intros Hl. destruct (operation_name_of_loaded _ _ Hl). congruence.
Qed.

(** The shape of the two mutating wrappers: the token is drawn between the
    copy and the write of the variables. *)
Lemma transaction_call_history {T} op (variables : string → json)
    (parse : json → Exception + T) w :
  let m := (json_data ← deepcopy (template op);
            transaction_id ← draw_token_hex imports 16;
            _ ← setitem json_data "variables" (variables transaction_id);
            operation_name ← operation_name_of (template op);
            post_gql_request_single imports self operation_name json_data parse) in
  ∃ n body,
    history (m w).1 = history w ++ TokenHex 16 :: replicate n (posted body)
    ∧ n ≤ Z.to_nat (attempts strategy)
    ∧ (0 < n →
       ∃ fields, deref (heap w) (template op) = JDict fields
         ∧ body = JDict (dict_set "variables"
                           (variables (token_hex imports (history w) 16)) fields))
    ∧ (template_loaded (heap w) op → (1 ≤ attempts strategy)%Z → 0 < n).
Proof.
  simpl. unfold mbind at 1 2 3, M_bind at 1 2 3, deepcopy, draw_token_hex, setitem. simpl.
  rewrite deref_insert.
  destruct (deref (heap w) (template op)) as [| | | | | |fields] eqn:Htemplate;
    try (exists 0, JNull; simpl; repeat split; try done; try lia;
         intros (? & ? & Hl & _); unfold deref in Htemplate; by rewrite Hl in Htemplate).
  set (l := fresh (dom (heap w))).
  set (body := JDict (dict_set "variables" _ fields)).
  set (w1 := mkWorld _ _).
  destruct (operation_request_world op l parse w1) as (n & Hh & Hi & Hle & Hge).
  simpl in Hh, Hi. exists n, body. rewrite Hi. subst w1. simpl.
  rewrite deref_insert, <- app_assoc. repeat split; try done.
  - intros _. by exists fields.
  - intros (f & name & Hl & Hn) HN. apply Hge; [|done]. exists f, name. simpl.
    rewrite !lookup_insert_ne by (by eapply fresh_not_allocated). done.
Qed.

(** C1.  A call of [make_prediction] or of
    [contribute_to_community_goal] draws [token_hex(16)] exactly once, before
    its first request; all its requests ([n] of them, one per attempt, at
    most [attempts], and at least one when the template is loaded and
    [attempts ≥ 1]) carry the same body, whose [transactionID] is that
    token. *)
Theorem transaction_token_drawn_once w :
  let token := token_hex imports (history w) 16 in
  (∀ event_id outcome_id points,
     ∃ n body,
       history (make_prediction imports self event_id outcome_id points w).1
       = history w ++ TokenHex 16 :: replicate n (posted body)
       ∧ n ≤ Z.to_nat (attempts strategy)
       ∧ (0 < n → request_transaction_id body = Some (JStr token))
       ∧ (template_loaded (heap w) MakePrediction → (1 ≤ attempts strategy)%Z → 0 < n))
  ∧ (∀ channel_id goal_id amount,
       ∃ n body,
         history (contribute_to_community_goal imports self channel_id goal_id amount w).1
         = history w ++ TokenHex 16 :: replicate n (posted body)
         ∧ n ≤ Z.to_nat (attempts strategy)
         ∧ (0 < n → request_transaction_id body = Some (JStr token))
         ∧ (template_loaded (heap w) ContributeCommunityPointsCommunityGoal →
            (1 ≤ attempts strategy)%Z → 0 < n)).
Proof.
  intros token. split.
  - intros event_id outcome_id points.
    destruct (transaction_call_history MakePrediction
                (λ transaction_id,
                   JDict [("input",
                           JDict [("eventID", JStr event_id);
                                  ("outcomeID", JStr outcome_id);
                                  ("points", JInt points);
                                  ("transactionID", JStr transaction_id)])])
                (parse_make_prediction_response (parser self)) w)
      as (n & body & Hi & Hle & Hbody & Hge).
    exists n, body. repeat split; try done.
    intros Hn. destruct (Hbody Hn) as (fields & _ & ->). simpl.
    by rewrite dict_get_set.
  - intros channel_id goal_id amount.
    destruct (transaction_call_history ContributeCommunityPointsCommunityGoal
                (λ transaction_id,
                   JDict [("input",
                           JDict [("amount", JInt amount);
                                  ("channelID", JStr channel_id);
                                  ("goalID", JStr goal_id);
                                  ("transactionID", JStr transaction_id)])])
                (parse_contribute_community_points_community_goal (parser self)) w)
      as (n & body & Hi & Hle & Hbody & Hge).
    exists n, body. repeat split; try done.
    intros Hn. destruct (Hbody Hn) as (fields & _ & ->). simpl.
    by rewrite dict_get_set.
Qed.


(** C3, as amended.  At any page of [channel_follows] (any cursor, any
    list of follows accumulated so far): when the single-call execution of
    the page fails, its exception ends the pagination and reaches the
    caller, and no list is returned; the exception is the [RetryError] of
    the page, or, when [time.sleep] refuses the interval of the strategy,
    what [time.sleep] raised.  When the page parses to [None], the
    pagination ends and returns the empty list, not the accumulated
    follows. *)
Theorem channel_follows_page_failure fuel json_data last_cursor follows w w1 name w2 :
  setitem2 json_data "variables" "cursor" (JStr last_cursor) w = (w1, Returned ()) →
  operation_name_of (template ChannelFollows) w1 = (w1, Returned name) →
  (∀ e,
     post_gql_request_single imports self name json_data
       (parse_channel_follows_response (parser self)) w1 = (w2, Raised e) →
     channel_follows_loop imports self (S fuel) json_data last_cursor follows w
     = (w2, Raised e)
     ∧ ((∃ errors, e = GQLException (RetryError name errors))
        ∨ time_sleep (attempt_interval_seconds strategy) = Some e))
  ∧ (post_gql_request_single imports self name json_data
       (parse_channel_follows_response (parser self)) w1 = (w2, Returned None) →
     channel_follows_loop imports self (S fuel) json_data last_cursor follows w
     = (w2, Returned [])).
Proof.
  intros Hset Hname.
  cbn [channel_follows_loop].
  rewrite (bind_returned _ _ _ _ _ Hset), (bind_returned _ _ _ _ _ Hname).
  split.
  - intros e Hpost. split.
    + by rewrite (bind_raised _ _ _ _ _ Hpost).
    + by apply (single_request_raises name json_data
                  (parse_channel_follows_response (parser self)) w1 w2).
  - intros Hpost. by rewrite (bind_returned _ _ _ _ _ Hpost).
Qed.

(** C2, as amended.  In [get_drop_campaign_details], when the transport
    response to a chunk is not an array (after [es] retried errors, within
    the attempts allowed), the shape error ends the batch call of the chunk
    with this attempt, and the [RetryError] that carries the errors of the
    chunk ends the whole call: the request of this attempt is the last one
    posted, so that no later chunk is issued, and nothing is returned. *)
Theorem batch_shape_error_aborts chunk rest result w w1 json_data name es w2
    response value :
  build_batch self chunk [] w = (w1, Returned json_data) →
  operation_name_of (template DropCampaignDetails) w1 = (w1, Returned name) →
  retried strategy
    (__post_gql_request imports self (ListRequest json_data)
       (parse_list (parse_drop_campaign_details_response (parser self))))
    validate_response is_recoverable_error w1 es w2 →
  (Z.of_nat (length es) < attempts strategy)%Z →
  post_request self (history w2) (url imports)
    (serialise (heap w2) (ListRequest json_data)) headers = inr response →
  raise_for_status response = None →
  json_body response = Some value →
  (∀ items, value ≠ JList items) →
  get_drop_campaign_details_loop imports self (chunk :: rest) result w
  = (mkWorld (heap w2)
       (history w2 ++ [posted (serialise (heap w2) (ListRequest json_data))]),
     Raised (GQLException
               (RetryError name
                  (context_of (error_context imports) <$> (es ++ [shape_error value]))))).
Proof.
  intros Hbuild Hname Hretried Hlen Hpost Hstatus Hbody Hshape.
  destruct (shape_error_ends_run json_data
              (parse_list (parse_drop_campaign_details_response (parser self)))
              w1 es w2 response value Hretried Hlen Hpost Hstatus Hbody Hshape)
    as (tr & Hrun).
  cbn [get_drop_campaign_details_loop].
  rewrite (bind_returned _ _ _ _ _ Hbuild), (bind_returned _ _ _ _ _ Hname).
  apply bind_raised. unfold post_gql_request_batch. by rewrite Hrun.
Qed.

End gql_facts.

(** A batched request for two campaigns, answered by an array of two
    elements. *)
Lemma batched_request_decoding_witness :
  ∃ w',
    __post_gql_request example_imports
      (example_gql (always_answers (JList [JInt 1; JInt 2])))
      (ListRequest [17; 18]%positive) (@inr Exception json)
      (build_batch (example_gql (always_answers (JList [JInt 1; JInt 2])))
         ["a"; "b"] [] example_world).1
    = (w', inr [JInt 1; JInt 2]).
Proof.
  destruct (batched_request_decoding example_imports
              (example_gql (always_answers (JList [JInt 1; JInt 2])))
              [17; 18]%positive (@inr Exception json)
              (build_batch (example_gql (always_answers (JList [JInt 1; JInt 2])))
                 ["a"; "b"] [] example_world).1
              (mkResponse 200 "" (Some (JList [JInt 1; JInt 2])))
              eq_refl eq_refl) as [Harray _].
  destruct (Harray [JInt 1; JInt 2] eq_refl) as [_ Hvalues].
  eexists. apply Hvalues. repeat constructor.
Defined.

(** The two bodies of that request, at the references 17 and 18. *)
Example build_batch_of_two :
  (build_batch (example_gql always_fails) ["a"; "b"] [] example_world).2
  = Returned [17; 18]%positive
  ∧ serialise
      (heap (build_batch (example_gql always_fails) ["a"; "b"] [] example_world).1)
      (ListRequest [17; 18]%positive)
    = JList
        [JDict [("operationName", JStr "DropCampaignDetails");
                ("variables",
                 JDict [("dropID", JStr "a"); ("channelLogin", JStr "1234")])];
         JDict [("operationName", JStr "DropCampaignDetails");
                ("variables",
                 JDict [("dropID", JStr "b"); ("channelLogin", JStr "1234")])]].
Proof. vm_compute. done. Qed.

(** [post_gql_request_batch] hands [parse_list parse] to
    [__post_gql_request], which applies it to each element of the response:
    an array of two objects is refused, each element being expected to be a
    list. *)
Example post_gql_request_batch_expects_lists :
  (post_gql_request_batch example_imports
     (example_gql (always_answers (JList [JDict []; JDict []])))
     "DropCampaignDetails" [17; 18]%positive (@inr Exception json)
     (build_batch (example_gql always_fails) ["a"; "b"] [] example_world).1).2
  = Raised (GQLException
              (RetryError "DropCampaignDetails"
                 [mkExceptionContext
                    (GQLException (InvalidJsonShapeException [] "list expected"))
                    None]))
  ∧ (post_gql_request_batch example_imports
       (example_gql (always_answers (JList [JList [JInt 1]; JList []])))
       "DropCampaignDetails" [17; 18]%positive (@inr Exception json)
       (build_batch (example_gql always_fails) ["a"; "b"] [] example_world).1).2
    = Returned [[JInt 1]; []].
Proof. vm_compute. done. Qed.

(** A prediction against a transport that always fails: three attempts,
    one token. *)
Example make_prediction_retries_share_the_token :
  history (make_prediction example_imports (example_gql always_fails)
             "event" "outcome" 50 example_world).1
  = TokenHex 16
    :: replicate 3
         (Post (url example_imports)
            (JDict [("operationName", JStr "MakePrediction");
                    ("variables",
                     JDict [("input",
                             JDict [("eventID", JStr "event");
                                    ("outcomeID", JStr "outcome");
                                    ("points", JInt 50);
                                    ("transactionID",
                                     JStr "000102030405060708090a0b0c0d0e0f")])])])
            (request_headers example_imports (example_gql always_fails))).
Proof. vm_compute. reflexivity. Qed.

(** A page of [channel_follows] against a transport that fails: the copy
    of the template is made, one follow is accumulated. *)
Lemma channel_follows_page_failure_witness :
  ∃ w2 errors,
    channel_follows_loop example_imports (example_gql always_fails) 1
      (fresh (dom (heap example_world))) "c1" ["alice"]
      (deepcopy (template ChannelFollows) example_world).1
    = (w2, Raised (GQLException (RetryError "ChannelFollows" errors))).
Proof.
  destruct (channel_follows_page_failure example_imports (example_gql always_fails)
              0 (fresh (dom (heap example_world))) "c1" ["alice"]
              (deepcopy (template ChannelFollows) example_world).1
              (setitem2 (fresh (dom (heap example_world))) "variables" "cursor"
                 (JStr "c1") (deepcopy (template ChannelFollows) example_world).1).1
              "ChannelFollows"
              (post_gql_request_single example_imports (example_gql always_fails)
                 "ChannelFollows" (fresh (dom (heap example_world)))
                 (parse_channel_follows_response
                    (parser (example_gql always_fails)))
                 (setitem2 (fresh (dom (heap example_world))) "variables" "cursor"
                    (JStr "c1")
                    (deepcopy (template ChannelFollows) example_world).1).1).1)
    as [Hraised _].
  - vm_compute. reflexivity.
  - vm_compute. reflexivity.
  - destruct (Hraised
                (GQLException
                   (RetryError "ChannelFollows"
                      (replicate 3
                         (mkExceptionContext (RequestException "HTTPError")
                            (Some "Traceback"))))))
      as [Hloop _].
    + vm_compute. reflexivity.
    + eexists _, _. exact Hloop.
Defined.

(** C3 fails as stated: the first page returns one follow and announces a
    next page, the execution of the second page fails; [channel_follows]
    raises [RetryError], it does not return the empty list. *)
Lemma channel_follows_raises_on_page_failure :
  (channel_follows example_imports (example_gql first_page_then_errors)
     5 100 ASC example_world).2
  = Raised (GQLException
              (RetryError "ChannelFollows"
                 (replicate 3
                    (mkExceptionContext (RequestException "HTTPError")
                       (Some "Traceback")))))
  ∧ (channel_follows example_imports (example_gql first_page_then_errors)
       5 100 ASC example_world).2
    ≠ Returned [].
Proof. split; [vm_compute; reflexivity|]. vm_compute. discriminate. Qed.

(** A chunk whose response is an object, with another chunk to come. *)
Lemma batch_shape_error_aborts_witness :
  ∃ w',
    get_drop_campaign_details_loop example_imports
      (example_gql (always_answers (JDict []))) [["a"]; ["b"]] [] example_world
    = (w',
       Raised (GQLException
                 (RetryError "DropCampaignDetails"
                    [mkExceptionContext (shape_error (JDict [])) None]))).
Proof.
  eexists.
  refine (batch_shape_error_aborts example_imports
            (example_gql (always_answers (JDict []))) ["a"] [["b"]] []
            example_world
            (build_batch (example_gql (always_answers (JDict []))) ["a"] []
               example_world).1
            [fresh (dom (heap example_world))] "DropCampaignDetails" []
            (build_batch (example_gql (always_answers (JDict []))) ["a"] []
               example_world).1
            (mkResponse 200 "" (Some (JDict []))) (JDict [])
            _ _ (retried_nil _ _ _ _ _) _ _ _ _ _).
  - vm_compute. reflexivity.
  - vm_compute. reflexivity.
  - simpl. lia.
  - reflexivity.
  - reflexivity.
  - reflexivity.
  - intros items. discriminate.
Defined.

(** C2 fails as stated: twenty-one ids make two chunks; the response to the
    first is an object, every later response would be an array.
    [get_drop_campaign_details] raises [RetryError] after the one request of
    the first chunk: the second chunk is never issued and nothing is
    returned. *)
Lemma get_drop_campaign_details_raises_on_shape_error :
  length (create_chunks (replicate 21 "campaign") 20) = 2
  ∧ (get_drop_campaign_details example_imports (example_gql object_then_arrays)
       (replicate 21 "campaign") example_world).2
    = Raised (GQLException
                (RetryError "DropCampaignDetails"
                   [mkExceptionContext
                      (GQLException
                         (InvalidJsonShapeException []
                            "Expected batched response, got dict"))
                      None]))
  ∧ length (filter is_post
              (history (get_drop_campaign_details example_imports
                          (example_gql object_then_arrays)
                          (replicate 21 "campaign") example_world).1))
    = 1.
Proof. vm_compute. done. Qed.

(** Forty-five ids are sent in chunks of 20, 20 and 5, in their order. *)
Example create_chunks_of_45 :
  length <$> create_chunks (seq 0 45) 20 = [20; 20; 5]
  ∧ concat (create_chunks (seq 0 45) 20) = seq 0 45.
Proof. vm_compute. done. Qed.

(** ** The templates are never written *)

Lemma dict_set_set key v1 v2 fields :
  dict_set key v2 (dict_set key v1 fields) = dict_set key v2 fields.
Proof.
  induction fields as [|[k v] rest IH]; simpl.
  - by rewrite decide_True.
  - destruct (decide (k = key)) as [->|Hne]; simpl.
    + by rewrite decide_True.
    + rewrite decide_False by done. by rewrite IH.
Qed.

Lemma derived_from_set template fields value :
  derived_from template (JDict fields) →
  derived_from template (JDict (dict_set "variables" value fields)).
Proof.
  intros [<-|(fields' & variables & -> & [= ->])]; right.
  - by exists fields, value.
  - exists fields', value. by rewrite dict_set_set.
Qed.

Section frame.
Variable imports : Imports.
Variable self : GQL.
Variable w0 : World.
Variable T : json.
Variable batched : bool.

Local Abbreviation kept := (inv w0 T batched).
Local Abbreviation owned := (own w0 T).
Local Abbreviation sound := (safe w0 T batched).

(** The rules of the invariant, one per operation on the state. *)
Lemma inv_refl : kept w0.
Proof.
  split; [done|]. split; [done|]. split; [by intros l ? ?|].
  exists []. by rewrite app_nil_r.
Qed.

Lemma safe_bind {A B} (m : M A) (k : A → M B) w (V : A → World → Prop) V' :
  sound m w V →
  (∀ a w', kept w' → V a w' → sound (k a) w' V') →
  sound (m ≫= k) w V'.
Proof.
  unfold safe, mbind, M_bind. intros [Hinv HV] Hk.
  destruct (m w) as [w' [a|e|]]; simpl in *; [|done..].
  by apply Hk; [|apply HV].
Qed.

Lemma safe_ret {A} (a : A) w (V : A → World → Prop) :
  kept w → V a w → sound (mret a) w V.
Proof. intros. split; [done|]. by intros ? [= <-]. Qed.

Lemma safe_raise {A} e w (V : A → World → Prop) : kept w → sound (raise e) w V.
Proof. intros. split; done. Qed.

Lemma safe_weaken {A} (m : M A) w (V V' : A → World → Prop) :
  sound m w V → (∀ a w', V a w' → V' a w') → sound m w V'.
Proof. intros [Hinv HV] HVV'. split; [done|]. intros a Ha. by apply HVV', HV. Qed.

Lemma own_same_heap w w' l : heap w' = heap w → owned w l → owned w' l.
Proof. intros Hh [? ?]. split; [done|]. by rewrite Hh. Qed.

Lemma inv_post w w' body n :
  kept w → heap w' = heap w →
  history w' = history w
    ++ replicate n (Post (url imports) body (request_headers imports self)) →
  request_from T batched (Post (url imports) body (request_headers imports self)) →
  kept w'.
Proof.
  intros (Hun & Hdom & Hmade & evs & Hh & Hev) Hheap Hhist Hbody.
  split; [|split; [|split]].
  - intros l Hl. rewrite Hheap. by apply Hun.
  - by rewrite Hheap.
  - intros l. rewrite Hheap. apply Hmade.
  - eexists. rewrite Hhist, Hh, <- app_assoc. split; [done|].
    apply Forall_app. split; [done|]. by apply Forall_replicate.
Qed.

Lemma safe_deepcopy op w :
  kept w → deref (heap w0) (template op) = T → template op ∈ dom (heap w0) →
  sound (deepcopy (template op)) w (λ l w', owned w' l ∧ ∀ a, owned w a → owned w' a).
Proof.
  intros (Hun & Hdom & Hmade & evs & Hh & Hev) HT Hop. unfold safe, deepcopy. simpl.
  set (l := fresh (dom (heap w))).
  assert (l ∉ dom (heap w)) as Hfresh by apply is_fresh.
  assert (l ∉ dom (heap w0)) as Hfresh0 by set_solver.
  assert (deref (heap w) (template op) = T) as HTw.
  { rewrite <- HT. unfold deref. by rewrite Hun. }
  split; [split; [|split; [|split]]|].
  - intros a Ha. simpl. rewrite lookup_insert_ne by set_solver. by apply Hun.
  - simpl. rewrite dom_insert_L. set_solver.
  - intros a. simpl. rewrite dom_insert_L. intros Ha Ha0.
    destruct (decide (l = a)) as [<-|Hne].
    + rewrite deref_insert. by left.
    + rewrite deref_insert_ne by done. apply Hmade; [|done].
      apply elem_of_union in Ha as [Heq%elem_of_singleton|Ha]; [by destruct Hne|done].
  - by exists evs.
  - intros ? [= <-]. split.
    + split; [done|]. simpl. rewrite deref_insert. by left.
    + intros a [Ha Hd]. split; [done|]. simpl.
      destruct (decide (l = a)) as [<-|Hne].
      * rewrite deref_insert. by left.
      * by rewrite deref_insert_ne.
Qed.

Lemma inv_write w l value :
  kept w → l ∉ dom (heap w0) → derived_from T value →
  kept (mkWorld (<[l := value]> (heap w)) (history w)).
Proof.
  intros (Hun & Hdom & Hmade & evs & Hh & Hev) Hl Hvalue. split; [|split; [|split]].
  - intros a Ha. simpl. rewrite lookup_insert_ne by set_solver. by apply Hun.
  - simpl. rewrite dom_insert_L. set_solver.
  - intros a. simpl. rewrite dom_insert_L. intros Ha Ha0.
    destruct (decide (l = a)) as [<-|Hne].
    + by rewrite deref_insert.
    + rewrite deref_insert_ne by done. apply Hmade; [|done].
      apply elem_of_union in Ha as [Heq%elem_of_singleton|Ha]; [by destruct Hne|done].
  - by exists evs.
Qed.

Lemma own_write w l fields value :
  owned w l → deref (heap w) l = JDict fields →
  ∀ a, owned w a →
       owned (mkWorld (<[l := JDict (dict_set "variables" value fields)]> (heap w))
              (history w)) a.
Proof.
  intros [Hl Hd] Hfields a [Ha Hda]. split; [done|]. simpl.
  destruct (decide (l = a)) as [<-|Hne].
  - rewrite deref_insert. apply derived_from_set. by rewrite <- Hfields.
  - by rewrite deref_insert_ne.
Qed.

Lemma safe_setitem l value w :
  kept w → owned w l →
  sound (setitem l "variables" value) w (λ _ w', ∀ a, owned w a → owned w' a).
Proof.
  intros Hinv Hown. unfold safe, setitem.
  destruct (deref (heap w) l) as [| | | | | |fields] eqn:Hd; try done. simpl.
  split.
  - apply inv_write; [done|apply Hown|].
    apply derived_from_set. rewrite <- Hd. apply Hown.
  - intros _ _. by apply own_write.
Qed.

Lemma safe_setitem2 l key value w :
  kept w → owned w l →
  sound (setitem2 l "variables" key value) w (λ _ w', ∀ a, owned w a → owned w' a).
Proof.
  intros Hinv Hown. unfold safe, setitem2.
  destruct (deref (heap w) l) as [| | | | | |fields] eqn:Hd; try done.
  destruct (dict_get "variables" fields) as [[| | | | | |inner]|]; try done. simpl.
  split.
  - apply inv_write; [done|apply Hown|].
    apply derived_from_set. rewrite <- Hd. apply Hown.
  - intros _ _. by apply own_write.
Qed.

Lemma safe_draw_token_hex nbytes w :
  kept w → sound (draw_token_hex imports nbytes) w (λ _ w', ∀ a, owned w a → owned w' a).
Proof.
  intros (Hun & Hdom & Hmade & evs & Hh & Hev). unfold safe, draw_token_hex. simpl.
  split; [split; [done|split; [done|split; [done|]]]|].
  - exists (evs ++ [TokenHex nbytes]). rewrite Hh, <- app_assoc. split; [done|].
    apply Forall_app. split; [done|]. by constructor.
  - intros _ _ a Ha. by apply (own_same_heap w).
Qed.

Lemma safe_operation_name_of l w :
  kept w → sound (operation_name_of l) w (λ _ w', ∀ a, owned w a → owned w' a).
Proof.
  intros Hinv. unfold safe. rewrite operation_name_of_world. done.
Qed.

Lemma safe_post_gql_request_single {R} name l (parse : json → Exception + R) w :
  batched = false → kept w → derived_from T (deref (heap w) l) →
  sound (post_gql_request_single imports self name l parse) w
    (λ _ w', ∀ a, owned w a → owned w' a).
Proof.
  intros Hb Hinv Hd. unfold safe.
  destruct (post_gql_request_single_world imports self name l parse w)
    as (n & Hh & Hi & _).
  split.
  - eapply inv_post; [done..|]. simpl. by rewrite Hb.
  - intros _ _ a Ha. by apply (own_same_heap w).
Qed.

Lemma post_gql_request_batch_world {R} name ls (parse : json → Exception + R) w :
  ∃ n, heap (post_gql_request_batch imports self name ls parse w).1 = heap w
     ∧ history (post_gql_request_batch imports self name ls parse w).1
       = history w
           ++ replicate n (Post (url imports) (JList (deref (heap w) <$> ls))
                             (request_headers imports self)).
Proof.
  unfold post_gql_request_batch.
  destruct (attempt_request _ _ _ _ w) as [[w' tr] r] eqn:Hrun.
  apply attempt_request_world in Hrun as (Hh & Hi & Hle & Hge & _).
  eexists. by destruct r.
Qed.

Lemma safe_post_gql_request_batch {R} name ls (parse : json → Exception + R) w :
  batched = true → kept w → Forall (owned w) ls →
  sound (post_gql_request_batch imports self name ls parse) w
    (λ _ w', ∀ a, owned w a → owned w' a).
Proof.
  intros Hb Hinv Hls. unfold safe.
  destruct (post_gql_request_batch_world name ls parse w) as (n & Hh & Hi).
  split.
  - eapply inv_post; [done..|]. simpl. rewrite Hb. eexists. split; [done|].
    apply Forall_fmap. eapply Forall_impl; [done|]. by intros l [_ Hd].
  - intros _ _ a Ha. by apply (own_same_heap w).
Qed.
End frame.


Section frame_calls.
Variable imports : Imports.
Variable self : GQL.

Local Abbreviation safe_in w op batched :=
  (safe w (deref (heap w) (template op)) batched).

Ltac start_copy :=
  eapply safe_bind;
  [ apply safe_deepcopy; [apply inv_refl|done|done]
  | intros ?json_data ?w ?Hinv [?Hown _] ].

Ltac next rule :=
  eapply safe_bind;
  [ by apply rule
  | let H := fresh "Hframe" in
    intros ? ?w ?Hinv H;
    repeat match goal with Hown : own _ _ _ _ |- _ => apply H in Hown end;
    clear H ].

Ltac finish_request :=
  eapply safe_weaken;
  [ apply (safe_post_gql_request_single imports self);
    [ done | done | match goal with Hown : own _ _ _ _ |- _ => apply Hown end ]
  | done ].

Ltac finish_request_unit :=
  eapply safe_bind;
  [ apply (safe_post_gql_request_single imports self);
    [ done | done | match goal with Hown : own _ _ _ _ |- _ => apply Hown end ]
  | intros; by apply safe_ret ].

(** The wrappers that pass the template itself. *)
Lemma template_request_safe {R} op (parse : json → Exception + R) w :
  template op ∈ dom (heap w) →
  safe_in w op false
    (operation_name ← operation_name_of (template op);
     post_gql_request_single imports self operation_name (template op) parse)
    w (λ _ _, True).
Proof.
  intros Hop. eapply safe_bind; [apply safe_operation_name_of, inv_refl|].
  intros name w' Hinv _. eapply safe_weaken; [|done].
  apply (safe_post_gql_request_single imports self); [done|done|].
  left. unfold deref. destruct Hinv as (Hun & _). by rewrite Hun.
Qed.

Lemma channel_follows_loop_safe w0 fuel :
  ∀ json_data last_cursor follows w,
    inv w0 (deref (heap w0) (template ChannelFollows)) false w →
    own w0 (deref (heap w0) (template ChannelFollows)) w json_data →
    safe_in w0 ChannelFollows false
      (channel_follows_loop imports self fuel json_data last_cursor follows)
      w (λ _ _, True).
Proof.
  induction fuel as [|fuel IH]; intros json_data last_cursor follows w Hinv Hown.
  - done.
  - cbn [channel_follows_loop]. next safe_setitem2. next safe_operation_name_of.
    eapply safe_bind.
    + apply (safe_post_gql_request_single imports self); [done|done|apply Hown].
    + intros [parsed_response|] w' Hinv' Hframe; [|by apply safe_ret].
      apply Hframe in Hown.
      destruct (collect_edges _ _ _) as [follows' last_cursor'].
      destruct (has_next_page _); [by apply IH|by apply safe_ret].
Qed.

Lemma build_batch_safe w0 chunk :
  ∀ json_data w,
    template DropCampaignDetails ∈ dom (heap w0) →
    inv w0 (deref (heap w0) (template DropCampaignDetails)) true w →
    Forall (own w0 (deref (heap w0) (template DropCampaignDetails)) w) json_data →
    safe_in w0 DropCampaignDetails true (build_batch self chunk json_data) w
      (λ json_data w',
         Forall (own w0 (deref (heap w0) (template DropCampaignDetails)) w') json_data).
Proof.
  induction chunk as [|campaign rest IH]; intros json_data w Hop Hinv Hall.
  - by apply safe_ret.
  - cbn [build_batch]. eapply safe_bind; [by apply safe_deepcopy|].
    intros copy w1 Hinv1 [Hown Hframe1].
    eapply safe_bind; [by apply safe_setitem|].
    intros [] w2 Hinv2 Hframe2. apply IH; [done|done|].
    apply Forall_app. split.
    + eapply Forall_impl; [exact Hall|]. intros l Hl. by apply Hframe2, Hframe1.
    + constructor; [|done]. by apply Hframe2.
Qed.

Lemma get_drop_campaign_details_loop_safe w0 chunks :
  ∀ result w,
    template DropCampaignDetails ∈ dom (heap w0) →
    inv w0 (deref (heap w0) (template DropCampaignDetails)) true w →
    safe_in w0 DropCampaignDetails true
      (get_drop_campaign_details_loop imports self chunks result) w (λ _ _, True).
Proof.
  induction chunks as [|chunk rest IH]; intros result w Hop Hinv.
  - by apply safe_ret.
  - cbn [get_drop_campaign_details_loop].
    eapply safe_bind; [by apply build_batch_safe|].
    intros json_data w1 Hinv1 Hall.
    eapply safe_bind; [by apply safe_operation_name_of|].
    intros name w2 Hinv2 Hframe.
    eapply safe_bind.
    + apply (safe_post_gql_request_batch imports self); [done|done|].
      eapply Forall_impl; [exact Hall|]. intros l Hl. by apply Hframe.
    + intros response w3 Hinv3 _. by apply IH.
Qed.

(** Every wrapper keeps the invariant of the state in which it starts. *)
Lemma invoke_safe c w :
  templates_loaded w →
  safe_in w (operation_of c) (is_batched c) (invoke imports self c) w (λ _ _, True).
Proof.
  intros Hloaded.
  destruct c; cbn [invoke operation_of is_batched];
    match goal with
    | |- context [template ?op] =>
        pose proof (proj2 (elem_of_dom _ _) (Hloaded op)) as Hop
    end.
  - unfold video_player_stream_info_overlay_channel.
    start_copy. next safe_setitem. next safe_operation_name_of. finish_request.
  - unfold get_id_from_login.
    start_copy. next safe_setitem2. next safe_operation_name_of. finish_request.
  - unfold channel_follows.
    start_copy. next safe_setitem. by apply channel_follows_loop_safe.
  - unfold join_raid.
    start_copy. next safe_setitem. next safe_operation_name_of. finish_request_unit.
  - unfold get_playback_access_token.
    start_copy. next safe_setitem. next safe_operation_name_of. finish_request.
  - unfold get_channel_points_context.
    start_copy. next safe_setitem. next safe_operation_name_of. finish_request.
  - unfold make_prediction.
    start_copy. next safe_draw_token_hex. next safe_setitem.
    next safe_operation_name_of. finish_request.
  - unfold claim_community_points.
    start_copy. next safe_setitem. next safe_operation_name_of. finish_request_unit.
  - unfold claim_moment.
    start_copy. next safe_setitem. next safe_operation_name_of. finish_request_unit.
  - unfold get_available_drops.
    start_copy. next safe_setitem. next safe_operation_name_of. finish_request.
  - by apply template_request_safe.
  - by apply template_request_safe.
  - unfold get_drop_campaign_details.
    apply get_drop_campaign_details_loop_safe; [done|apply inv_refl].
  - unfold claim_drop_rewards.
    start_copy. next safe_setitem. next safe_operation_name_of. finish_request.
  - unfold get_user_points_contribution.
    start_copy. next safe_setitem. next safe_operation_name_of. finish_request.
  - unfold contribute_to_community_goal.
    start_copy. next safe_draw_token_hex. next safe_setitem.
    next safe_operation_name_of. finish_request.
Qed.
End frame_calls.

(** ** The copies that a call makes *)

Lemma grows_bind {A B} (m : M A) (k : A → M B) :
  grows m → (∀ a, grows (k a)) → grows (m ≫= k).
Proof.
  intros Hm Hk w. unfold mbind, M_bind. specialize (Hm w).
  destruct (m w) as [w' [a|e|]]; simpl in *; [|done..].
  etrans; [exact Hm|apply Hk].
Qed.

Lemma grows_ret {A} (a : A) : grows (mret a).
Proof. by intros w. Qed.

Lemma grows_deepcopy l : grows (deepcopy l).
Proof. intros w. unfold deepcopy. simpl. rewrite dom_insert_L. set_solver. Qed.

Lemma grows_setitem l key value : grows (setitem l key value).
Proof.
  intros w. unfold setitem. destruct (deref (heap w) l); try done.
  simpl. rewrite dom_insert_L. set_solver.
Qed.

Lemma grows_setitem2 l key1 key2 value : grows (setitem2 l key1 key2 value).
Proof.
  intros w. unfold setitem2. destruct (deref (heap w) l); try done.
  destruct (dict_get key1 fields) as [[]|]; try done.
  simpl. rewrite dom_insert_L. set_solver.
Qed.

Lemma grows_draw_token_hex imports nbytes : grows (draw_token_hex imports nbytes).
Proof. by intros w. Qed.

Lemma grows_operation_name_of l : grows (operation_name_of l).
Proof. intros w. by rewrite operation_name_of_world. Qed.

Lemma grows_post_gql_request_single {R} imports self name l
    (parse : json → Exception + R) :
  grows (post_gql_request_single imports self name l parse).
Proof.
  intros w. destruct (post_gql_request_single_world imports self name l parse w)
    as (n & -> & _). done.
Qed.

Lemma grows_post_gql_request_batch {R} imports self name ls
    (parse : json → Exception + R) :
  grows (post_gql_request_batch imports self name ls parse).
Proof.
  intros w. destruct (post_gql_request_batch_world imports self name ls parse w)
    as (n & -> & _). done.
Qed.

Ltac grows_steps :=
  repeat first
    [ apply grows_ret
    | apply grows_deepcopy
    | apply grows_setitem
    | apply grows_setitem2
    | apply grows_draw_token_hex
    | apply grows_operation_name_of
    | apply grows_post_gql_request_single
    | apply grows_post_gql_request_batch
    | apply grows_bind; [|intros ?] ].

Lemma grows_channel_follows_loop imports self fuel :
  ∀ json_data last_cursor follows,
    grows (channel_follows_loop imports self fuel json_data last_cursor follows).
Proof.
  induction fuel as [|fuel IH]; intros json_data last_cursor follows; [by intros w|].
  cbn [channel_follows_loop]. grows_steps.
  destruct a1 as [parsed_response|]; [|apply grows_ret].
  destruct (collect_edges _ _ _) as [follows' last_cursor'].
  destruct (has_next_page _); [apply IH|apply grows_ret].
Qed.

Lemma grows_build_batch self chunk : ∀ json_data, grows (build_batch self chunk json_data).
Proof.
  induction chunk as [|campaign rest IH]; intros json_data; [apply grows_ret|].
  cbn [build_batch]. grows_steps. apply IH.
Qed.

Lemma grows_get_drop_campaign_details_loop imports self chunks :
  ∀ result, grows (get_drop_campaign_details_loop imports self chunks result).
Proof.
  induction chunks as [|chunk rest IH]; intros result; [apply grows_ret|].
  cbn [get_drop_campaign_details_loop].
  apply grows_bind; [apply grows_build_batch|intros json_data].
  grows_steps. apply IH.
Qed.

(** The copy that a wrapper makes first is an object of the final heap. *)
Lemma first_copy_is_kept {A} l (k : loc → M A) w :
  (∀ copy, grows (k copy)) →
  fresh (dom (heap w)) ∈ dom (heap ((deepcopy l ≫= k) w).1).
Proof.
  intros Hk. unfold mbind, M_bind, deepcopy. simpl.
  apply Hk. simpl. rewrite dom_insert_L. set_solver.
Qed.

Lemma bind_assoc {A B C} (m : M A) (k1 : A → M B) (k2 : B → M C) w :
  ((m ≫= k1) ≫= k2) w = (m ≫= (λ a, k1 a ≫= k2)) w.
Proof. unfold mbind, M_bind. by destruct (m w) as [w' [a|e|]]. Qed.

Lemma invoke_makes_copy imports self c w :
  inserts_variables c = true →
  fresh (dom (heap w)) ∈ dom (heap (invoke imports self c w).1).
Proof.
  intros Hc. destruct c; try discriminate Hc; cbn [invoke].
  all: try (apply first_copy_is_kept; intros copy; grows_steps).
  - apply grows_channel_follows_loop.
  - destruct campaign_ids as [|campaign rest]; [discriminate Hc|].
    unfold get_drop_campaign_details, create_chunks.
    cbn [length create_chunks_from firstn get_drop_campaign_details_loop build_batch].
    rewrite bind_assoc. apply first_copy_is_kept. intros copy.
    rewrite <- (app_nil_l [copy]).
    apply grows_bind; [apply grows_bind; [apply grows_setitem|intros ?]|intros json_data].
    + apply grows_build_batch.
    + grows_steps. apply grows_get_drop_campaign_details_loop.
Qed.

(** ** A call does not depend on the objects of other calls *)

Section related_runs.
Context {W1 W2 TResult : Type}.
Variable R : W1 → W2 → Prop.
Variable self : AttemptStrategy.
Variable attempt1 : W1 → W1 * (Exception + TResult).
Variable attempt2 : W2 → W2 * (Exception + TResult).
Variable validate1 : TResult → W1 → W1 * (Exception + unit).
Variable validate2 : TResult → W2 → W2 * (Exception + unit).
Variable retryable : Exception → bool.
Variable exception_context : Exception → option string.
Hypothesis attempt_related :
  ∀ w1 w2, R w1 w2 →
    R (attempt1 w1).1 (attempt2 w2).1 ∧ (attempt1 w1).2 = (attempt2 w2).2.
Hypothesis validate_related :
  ∀ v w1 w2, R w1 w2 →
    R (validate1 v w1).1 (validate2 v w2).1 ∧ (validate1 v w1).2 = (validate2 v w2).2.

(** Two runs of the retry engine whose callbacks keep a relation between
    their states and return the same values make the same attempts and return
    the same result. *)
Lemma try_block_related w1 w2 :
  R w1 w2 →
  R (try_block attempt1 validate1 w1).1.1 (try_block attempt2 validate2 w2).1.1
  ∧ (try_block attempt1 validate1 w1).1.2 = (try_block attempt2 validate2 w2).1.2
  ∧ (try_block attempt1 validate1 w1).2 = (try_block attempt2 validate2 w2).2.
Proof.
  intros HR. unfold try_block.
  destruct (attempt_related w1 w2 HR) as [HR1 Hres].
  destruct (attempt1 w1) as [w1' r1], (attempt2 w2) as [w2' r2]. simpl in *. subst r2.
  destruct r1 as [e|v]; [done|].
  destruct (validate_related v w1' w2' HR1) as [HR2 Hres].
  destruct (validate1 v w1') as [w1'' r1], (validate2 v w2') as [w2'' r2].
  simpl in *. subst r2. by destruct r1 as [e|[]].
Qed.

Lemma make_attempts_loop_related fuel :
  ∀ made errors w1 w2 tr,
    R w1 w2 →
    let r1 := make_attempts_loop self attempt1 validate1 retryable exception_context
                fuel made errors w1 tr in
    let r2 := make_attempts_loop self attempt2 validate2 retryable exception_context
                fuel made errors w2 tr in
    R r1.1.1 r2.1.1 ∧ r1.1.2 = r2.1.2 ∧ r1.2 = r2.2.
Proof.
  induction fuel as [|fuel IH]; intros made errors w1 w2 tr HR; simpl; [done|].
  destruct (made <? attempts self)%Z; [|done].
  destruct (try_block_related w1 w2 HR) as (HR' & Hev & Hres).
  destruct (try_block attempt1 validate1 w1) as [[w1' evs1] r1],
           (try_block attempt2 validate2 w2) as [[w2' evs2] r2].
  simpl in *. subst evs2 r2. destruct r1 as [e|v]; [|done].
  destruct (negb (retryable e)); [done|].
  destruct (made + 1 >=? attempts self)%Z; [done|].
  destruct (time_sleep (attempt_interval_seconds self)); [done|]. by apply IH.
Qed.

Lemma make_attempts_related w1 w2 :
  R w1 w2 →
  let r1 := make_attempts self attempt1 validate1 retryable exception_context w1 in
  let r2 := make_attempts self attempt2 validate2 retryable exception_context w2 in
  R r1.1.1 r2.1.1 ∧ r1.1.2 = r2.1.2 ∧ r1.2 = r2.2.
Proof. intros HR. by apply make_attempts_loop_related. Qed.
End related_runs.

Lemma twin_same_heaps w1 w2 w1' w2' a b :
  heap w1' = heap w1 → heap w2' = heap w2 → twin w1 w2 a b → twin w1' w2' a b.
Proof. unfold twin. intros -> ->. done. Qed.

Lemma sim_same_heaps w1 w2 w1' w2' :
  heap w1' = heap w1 → heap w2' = heap w2 → history w1' = history w2' →
  sim w1 w2 → sim w1' w2'.
Proof. unfold sim. intros -> -> ? [_ ?]. done. Qed.

Lemma sim_templates w1 w2 op :
  sim w1 w2 → deref (heap w1) (template op) = deref (heap w2) (template op).
Proof. intros [_ H]. destruct (H op) as (T & H1 & H2). unfold deref. by rewrite H1, H2. Qed.

Lemma sim_write w1 w2 l1 l2 v1 v2 :
  sim w1 w2 → (∀ op, l1 ≠ template op) → (∀ op, l2 ≠ template op) →
  sim (mkWorld (<[l1 := v1]> (heap w1)) (history w1))
      (mkWorld (<[l2 := v2]> (heap w2)) (history w2)).
Proof.
  intros [Hh Ht] H1 H2. split; [done|]. intros op. simpl.
  rewrite !lookup_insert_ne by done. apply Ht.
Qed.

Lemma twin_write w1 w2 l1 l2 value :
  twin w1 w2 l1 l2 →
  twin (mkWorld (<[l1 := value]> (heap w1)) (history w1))
       (mkWorld (<[l2 := value]> (heap w2)) (history w2)) l1 l2
  ∧ ∀ a b, a ≠ l1 → b ≠ l2 → twin w1 w2 a b →
      twin (mkWorld (<[l1 := value]> (heap w1)) (history w1))
           (mkWorld (<[l2 := value]> (heap w2)) (history w2)) a b.
Proof.
  intros (Hd1 & Hd2 & Ht1 & Ht2 & Heq). split.
  - repeat split; simpl; try done; try (rewrite dom_insert_L; set_solver).
    by rewrite !deref_insert.
  - intros a b Ha Hb (Ha1 & Hb2 & Hta & Htb & Hab).
    repeat split; simpl; try done; try (rewrite dom_insert_L; set_solver).
    by rewrite !deref_insert_ne.
Qed.

Section isolation.
Variable imports : Imports.
Variable self : GQL.

(** The rules of agreement, one per operation on the state. *)
Lemma agrees_bind {A B} (m1 m2 : M A) (k1 k2 : A → M B) w1 w2
    (V : A → A → World → World → Prop) V' :
  agrees V (m1 w1) (m2 w2) →
  (∀ a1 a2 w1' w2', sim w1' w2' → V a1 a2 w1' w2' → agrees V' (k1 a1 w1') (k2 a2 w2')) →
  agrees V' ((m1 ≫= k1) w1) ((m2 ≫= k2) w2).
Proof.
  unfold agrees, mbind, M_bind. intros [Hsim HV] Hk.
  destruct (m1 w1) as [w1' [a1|e1|]], (m2 w2) as [w2' [a2|e2|]]; simpl in *; try done.
  by apply Hk.
Qed.

Lemma agrees_weaken {A} (V V' : A → A → World → World → Prop) r1 r2 :
  agrees V r1 r2 → (∀ a1 a2 w1 w2, V a1 a2 w1 w2 → V' a1 a2 w1 w2) → agrees V' r1 r2.
Proof.
  intros [Hsim HV] HVV'. split; [done|].
  destruct r1 as [w1 [a1|e1|]], r2 as [w2 [a2|e2|]]; simpl in *; try done. by apply HVV'.
Qed.

Lemma agrees_ret {A} (a1 a2 : A) w1 w2 (V : A → A → World → World → Prop) :
  sim w1 w2 → V a1 a2 w1 w2 → agrees V (mret (M := M) a1 w1) (mret (M := M) a2 w2).
Proof. intros. split; done. Qed.

Lemma agrees_deepcopy op w1 w2 :
  sim w1 w2 →
  agrees (λ l1 l2 w1' w2',
            twin w1' w2' l1 l2
            ∧ ∀ a b, twin w1 w2 a b → twin w1' w2' a b ∧ a ≠ l1 ∧ b ≠ l2)
    (deepcopy (template op) w1) (deepcopy (template op) w2).
Proof.
  intros Hsim. unfold agrees, deepcopy. simpl.
  set (l1 := fresh (dom (heap w1))). set (l2 := fresh (dom (heap w2))).
  assert (l1 ∉ dom (heap w1)) as Hf1 by apply is_fresh.
  assert (l2 ∉ dom (heap w2)) as Hf2 by apply is_fresh.
  assert (∀ op, l1 ≠ template op) as Ht1.
  { intros op' ->. destruct Hsim as [_ Ht]. destruct (Ht op') as (T & H1 & _).
    apply Hf1, elem_of_dom. eauto. }
  assert (∀ op, l2 ≠ template op) as Ht2.
  { intros op' ->. destruct Hsim as [_ Ht]. destruct (Ht op') as (T & _ & H2).
    apply Hf2, elem_of_dom. eauto. }
  split; [by apply sim_write|]. split.
  - repeat split; simpl; try done; try (rewrite dom_insert_L; set_solver).
    rewrite !deref_insert. by apply sim_templates.
  - intros a b (Ha & Hb & Hta & Htb & Hab).
    assert (a ≠ l1) by (intros ->; done). assert (b ≠ l2) by (intros ->; done).
    repeat split; simpl; try done; try (rewrite dom_insert_L; set_solver).
    by rewrite !deref_insert_ne.
Qed.

Lemma agrees_setitem l1 l2 key value w1 w2 :
  sim w1 w2 → twin w1 w2 l1 l2 →
  agrees (λ _ _ w1' w2',
            twin w1' w2' l1 l2
            ∧ ∀ a b, a ≠ l1 → b ≠ l2 → twin w1 w2 a b → twin w1' w2' a b)
    (setitem l1 key value w1) (setitem l2 key value w2).
Proof.
  intros Hsim Htwin. pose proof Htwin as (_ & _ & Ht1 & Ht2 & Heq).
  unfold agrees, setitem. rewrite <- Heq.
  destruct (deref (heap w1) l1); try done. simpl.
  split; [by apply sim_write|]. by apply twin_write.
Qed.

Lemma agrees_setitem2 l1 l2 key1 key2 value w1 w2 :
  sim w1 w2 → twin w1 w2 l1 l2 →
  agrees (λ _ _ w1' w2',
            twin w1' w2' l1 l2
            ∧ ∀ a b, a ≠ l1 → b ≠ l2 → twin w1 w2 a b → twin w1' w2' a b)
    (setitem2 l1 key1 key2 value w1) (setitem2 l2 key1 key2 value w2).
Proof.
  intros Hsim Htwin. pose proof Htwin as (_ & _ & Ht1 & Ht2 & Heq).
  unfold agrees, setitem2. rewrite <- Heq.
  destruct (deref (heap w1) l1); try done.
  destruct (dict_get key1 fields) as [[]|]; try done. simpl.
  split; [by apply sim_write|]. by apply twin_write.
Qed.

Lemma agrees_draw_token_hex nbytes w1 w2 :
  sim w1 w2 →
  agrees (λ t1 t2 w1' w2', t1 = t2 ∧ ∀ a b, twin w1 w2 a b → twin w1' w2' a b)
    (draw_token_hex imports nbytes w1) (draw_token_hex imports nbytes w2).
Proof.
  intros [Hh Ht]. unfold agrees, draw_token_hex. simpl. rewrite Hh.
  split; [split; [done|apply Ht]|]. split; [done|].
  intros a b. by apply twin_same_heaps.
Qed.

Lemma agrees_operation_name_of op w1 w2 :
  sim w1 w2 →
  agrees (λ n1 n2 w1' w2', n1 = n2 ∧ ∀ a b, twin w1 w2 a b → twin w1' w2' a b)
    (operation_name_of (template op) w1) (operation_name_of (template op) w2).
Proof.
  intros Hsim. pose proof (sim_templates _ _ op Hsim) as HT.
  unfold agrees, operation_name_of, getitem, mbind, M_bind. rewrite <- HT.
  destruct (deref (heap w1) (template op)); try done.
  destruct (dict_get _ _) as [[]|]; done.
Qed.

Lemma post_gql_request_related {T} (attempt1 attempt2 : World → World * (Exception + T))
    body1 body2 (decode : json → Exception + T) h1 h2 :
  (∀ w, heap w = h1 → attempt1 w
        = ((mkWorld (heap w)
              (history w ++ [Post (url imports) body1 (request_headers imports self)])),
           match post_request self (history w) (url imports) body1
                   (request_headers imports self) with
           | inl e => inl e
           | inr response =>
               match raise_for_status response with
               | Some e => inl e
               | None =>
                   match response_json response with
                   | inl e => inl e
                   | inr value => decode value
                   end
               end
           end)) →
  (∀ w, heap w = h2 → attempt2 w
        = ((mkWorld (heap w)
              (history w ++ [Post (url imports) body2 (request_headers imports self)])),
           match post_request self (history w) (url imports) body2
                   (request_headers imports self) with
           | inl e => inl e
           | inr response =>
               match raise_for_status response with
               | Some e => inl e
               | None =>
                   match response_json response with
                   | inl e => inl e
                   | inr value => decode value
                   end
               end
           end)) →
  body1 = body2 →
  ∀ w1 w2, heap w1 = h1 → heap w2 = h2 → history w1 = history w2 →
    let r1 := make_attempts (attempt_strategy self) attempt1 validate_response
                is_recoverable_error (error_context imports) w1 in
    let r2 := make_attempts (attempt_strategy self) attempt2 validate_response
                is_recoverable_error (error_context imports) w2 in
    heap r1.1.1 = h1 ∧ heap r2.1.1 = h2 ∧ history r1.1.1 = history r2.1.1
    ∧ r1.1.2 = r2.1.2 ∧ r1.2 = r2.2.
Proof.
  intros H1 H2 <- w1 w2 Hw1 Hw2 Hh.
  destruct (make_attempts_related
              (λ v1 v2, heap v1 = h1 ∧ heap v2 = h2 ∧ history v1 = history v2)
              (attempt_strategy self) attempt1 attempt2
              validate_response validate_response
              is_recoverable_error (error_context imports)) with (w1 := w1) (w2 := w2)
    as ((? & ? & ?) & ? & ?); try done.
  intros v1 v2 (Hv1 & Hv2 & Hv). rewrite (H1 v1 Hv1), (H2 v2 Hv2). simpl.
  by rewrite Hv.
Qed.

Lemma post_gql_request_unfold {T} request_json (parse : json → Exception + T) w :
  __post_gql_request imports self request_json parse w
  = ((mkWorld (heap w)
        (history w
           ++ [Post (url imports) (serialise (heap w) request_json)
                 (request_headers imports self)])),
     match post_request self (history w) (url imports) (serialise (heap w) request_json)
             (request_headers imports self) with
     | inl e => inl e
     | inr response =>
         match raise_for_status response with
         | Some e => inl e
         | None =>
             match response_json response with
             | inl e => inl e
             | inr value => decode request_json parse value
             end
         end
     end).
Proof.
  unfold __post_gql_request.
  destruct (post_request _ _ _ _ _) as [e|response]; [done|].
  destruct (raise_for_status response); [done|].
  by destruct (response_json response).
Qed.

Lemma agrees_post_gql_request_single {T} name l1 l2 (parse : json → Exception + T) w1 w2 :
  sim w1 w2 → deref (heap w1) l1 = deref (heap w2) l2 →
  agrees (λ r1 r2 w1' w2', r1 = r2 ∧ ∀ a b, twin w1 w2 a b → twin w1' w2' a b)
    (post_gql_request_single imports self name l1 parse w1)
    (post_gql_request_single imports self name l2 parse w2).
Proof.
  intros Hsim Heq. unfold post_gql_request_single, attempt_request.
  destruct (post_gql_request_related
              (__post_gql_request imports self (DictRequest l1) parse)
              (__post_gql_request imports self (DictRequest l2) parse)
              (deref (heap w1) l1) (deref (heap w2) l2) parse (heap w1) (heap w2))
    with (w1 := w1) (w2 := w2) as (Hh1 & Hh2 & Hh & _ & Hr); try done.
  { intros w Hw. rewrite post_gql_request_unfold. simpl. by rewrite Hw. }
  { intros w Hw. rewrite post_gql_request_unfold. simpl. by rewrite Hw. }
  { apply Hsim. }
  destruct (make_attempts _ _ _ _ _ w1) as [[w1' tr1] r1],
           (make_attempts _ _ _ _ _ w2) as [[w2' tr2] r2].
  simpl in *. subst r2.
  assert (sim w1' w2') by (by apply (sim_same_heaps w1 w2)).
  destruct r1 as [[errors result|errors]|e|]; (split; [done|]); simpl; try done.
  split; [done|]. intros a b. by apply twin_same_heaps.
Qed.

Lemma agrees_post_gql_request_batch {T} name ls1 ls2 (parse : json → Exception + T) w1 w2 :
  sim w1 w2 → Forall2 (twin w1 w2) ls1 ls2 →
  agrees (λ r1 r2 w1' w2', r1 = r2 ∧ ∀ a b, twin w1 w2 a b → twin w1' w2' a b)
    (post_gql_request_batch imports self name ls1 parse w1)
    (post_gql_request_batch imports self name ls2 parse w2).
Proof.
  intros Hsim Hls. unfold post_gql_request_batch, attempt_request.
  assert (JList (deref (heap w1) <$> ls1) = JList (deref (heap w2) <$> ls2)) as Heq.
  { f_equal. induction Hls as [|a b ls1 ls2 Hab _ IH]; [done|].
    simpl. f_equal; [apply Hab|done]. }
  destruct (post_gql_request_related
              (__post_gql_request imports self (ListRequest ls1) (parse_list parse))
              (__post_gql_request imports self (ListRequest ls2) (parse_list parse))
              (JList (deref (heap w1) <$> ls1)) (JList (deref (heap w2) <$> ls2))
              (decode (ListRequest ls1) (parse_list parse)) (heap w1) (heap w2))
    with (w1 := w1) (w2 := w2) as (Hh1 & Hh2 & Hh & _ & Hr); try done.
  { intros w Hw. rewrite post_gql_request_unfold. simpl. by rewrite Hw. }
  { intros w Hw. rewrite post_gql_request_unfold. simpl. by rewrite Hw. }
  { apply Hsim. }
  destruct (make_attempts _ _ _ _ _ w1) as [[w1' tr1] r1],
           (make_attempts _ _ _ _ _ w2) as [[w2' tr2] r2].
  simpl in *. subst r2.
  assert (sim w1' w2') by (by apply (sim_same_heaps w1 w2)).
  destruct r1 as [[errors result|errors]|e|]; (split; [done|]); simpl; try done.
  split; [done|]. intros a b. by apply twin_same_heaps.
Qed.
Local Abbreviation same := (λ a1 a2 (_ _ : World), a1 = a2).

Ltac copy_both :=
  eapply agrees_bind;
  [ by apply agrees_deepcopy
  | intros ?l1 ?l2 ?w1 ?w2 ?Hsim [?Htwin _] ].

Ltac write_both rule :=
  eapply agrees_bind;
  [ by apply rule
  | intros [] [] ?w1 ?w2 ?Hsim [?Htwin _] ].

Ltac read_both rule :=
  eapply agrees_bind;
  [ by apply rule
  | let H := fresh "Hframe" in
    intros ? ? ?w1 ?w2 ?Hsim [<- H];
    repeat match goal with Htwin : twin _ _ _ _ |- _ => apply H in Htwin end;
    clear H ].

Ltac post_both :=
  eapply agrees_weaken;
  [ apply agrees_post_gql_request_single;
    [ done | match goal with Htwin : twin _ _ _ _ |- _ => apply Htwin end ]
  | by intros ? ? ? ? [? _] ].

Ltac post_both_unit :=
  eapply agrees_bind;
  [ apply agrees_post_gql_request_single;
    [ done | match goal with Htwin : twin _ _ _ _ |- _ => apply Htwin end ]
  | intros; by apply agrees_ret ].

Lemma template_request_agrees {R} op (parse : json → Exception + R) w1 w2 :
  sim w1 w2 →
  agrees same
    ((operation_name ← operation_name_of (template op);
      post_gql_request_single imports self operation_name (template op) parse) w1)
    ((operation_name ← operation_name_of (template op);
      post_gql_request_single imports self operation_name (template op) parse) w2).
Proof.
  intros Hsim. eapply agrees_bind; [by apply agrees_operation_name_of|].
  intros name ? w1' w2' Hsim' [<- _].
  eapply agrees_weaken;
    [ apply agrees_post_gql_request_single; [done|by apply sim_templates]
    | by intros ? ? ? ? [? _] ].
Qed.

Lemma channel_follows_loop_agrees fuel :
  ∀ l1 l2 last_cursor follows w1 w2,
    sim w1 w2 → twin w1 w2 l1 l2 →
    agrees same
      (channel_follows_loop imports self fuel l1 last_cursor follows w1)
      (channel_follows_loop imports self fuel l2 last_cursor follows w2).
Proof.
  induction fuel as [|fuel IH]; intros l1 l2 last_cursor follows w1 w2 Hsim Htwin.
  - done.
  - cbn [channel_follows_loop].
    eapply agrees_bind; [by apply agrees_setitem2|].
    intros [] [] w1a w2a Hsima [Htwina _].
    eapply agrees_bind; [by apply agrees_operation_name_of|].
    intros name ? w1b w2b Hsimb [<- Hframe]. apply Hframe in Htwina. clear Hframe.
    eapply agrees_bind.
    + apply agrees_post_gql_request_single; [done|apply Htwina].
    + intros parsed_response ? w1' w2' Hsim' [<- Hframe]. apply Hframe in Htwina.
      destruct parsed_response as [parsed_response|]; [|by apply agrees_ret].
      destruct (collect_edges _ _ _) as [follows' last_cursor'].
      destruct (has_next_page _); [by apply IH|by apply agrees_ret].
Qed.

Lemma build_batch_agrees chunk :
  ∀ ls1 ls2 w1 w2,
    sim w1 w2 → Forall2 (twin w1 w2) ls1 ls2 →
    agrees (λ ls1 ls2 w1' w2', Forall2 (twin w1' w2') ls1 ls2)
      (build_batch self chunk ls1 w1) (build_batch self chunk ls2 w2).
Proof.
  induction chunk as [|campaign rest IH]; intros ls1 ls2 w1 w2 Hsim Hls.
  - by apply agrees_ret.
  - cbn [build_batch]. eapply agrees_bind; [by apply agrees_deepcopy|].
    intros c1 c2 w1a w2a Hsima [Htwin Hframe1].
    eapply agrees_bind; [by apply agrees_setitem|].
    intros [] [] w1b w2b Hsimb [Htwin' Hframe2]. apply IH; [done|].
    apply Forall2_app; [|by constructor].
    eapply Forall2_impl; [exact Hls|]. intros a b Hab.
    destruct (Hframe1 a b Hab) as (? & ? & ?). by apply Hframe2.
Qed.

Lemma get_drop_campaign_details_loop_agrees chunks :
  ∀ result w1 w2,
    sim w1 w2 →
    agrees same
      (get_drop_campaign_details_loop imports self chunks result w1)
      (get_drop_campaign_details_loop imports self chunks result w2).
Proof.
  induction chunks as [|chunk rest IH]; intros result w1 w2 Hsim.
  - by apply agrees_ret.
  - cbn [get_drop_campaign_details_loop].
    eapply agrees_bind; [by apply build_batch_agrees|].
    intros ls1 ls2 w1a w2a Hsima Hls.
    eapply agrees_bind; [by apply agrees_operation_name_of|].
    intros name ? w1b w2b Hsimb [<- Hframe].
    eapply agrees_bind.
    + apply agrees_post_gql_request_batch; [done|].
      eapply Forall2_impl; [exact Hls|]. intros a b. apply Hframe.
    + intros response ? w1c w2c Hsimc [<- _]. by apply IH.
Qed.

(** Every wrapper ends in the same way in two similar states. *)
Lemma invoke_agrees c w1 w2 :
  sim w1 w2 → agrees same (invoke imports self c w1) (invoke imports self c w2).
Proof.
  intros Hsim. destruct c; cbn [invoke].
  - unfold video_player_stream_info_overlay_channel.
    copy_both. write_both agrees_setitem. read_both agrees_operation_name_of. post_both.
  - unfold get_id_from_login.
    copy_both. write_both agrees_setitem2. read_both agrees_operation_name_of. post_both.
  - unfold channel_follows.
    copy_both. write_both agrees_setitem. by apply channel_follows_loop_agrees.
  - unfold join_raid.
    copy_both. write_both agrees_setitem. read_both agrees_operation_name_of.
    post_both_unit.
  - unfold get_playback_access_token.
    copy_both. write_both agrees_setitem. read_both agrees_operation_name_of. post_both.
  - unfold get_channel_points_context.
    copy_both. write_both agrees_setitem. read_both agrees_operation_name_of. post_both.
  - unfold make_prediction.
    copy_both. read_both agrees_draw_token_hex. write_both agrees_setitem.
    read_both agrees_operation_name_of. post_both.
  - unfold claim_community_points.
    copy_both. write_both agrees_setitem. read_both agrees_operation_name_of.
    post_both_unit.
  - unfold claim_moment.
    copy_both. write_both agrees_setitem. read_both agrees_operation_name_of.
    post_both_unit.
  - unfold get_available_drops.
    copy_both. write_both agrees_setitem. read_both agrees_operation_name_of. post_both.
  - by apply template_request_agrees.
  - by apply template_request_agrees.
  - unfold get_drop_campaign_details.
    by apply get_drop_campaign_details_loop_agrees.
  - unfold claim_drop_rewards.
    copy_both. write_both agrees_setitem. read_both agrees_operation_name_of. post_both.
  - unfold get_user_points_contribution.
    copy_both. write_both agrees_setitem. read_both agrees_operation_name_of. post_both.
  - unfold contribute_to_community_goal.
    copy_both. read_both agrees_draw_token_hex. write_both agrees_setitem.
    read_both agrees_operation_name_of. post_both.
Qed.
End isolation.

Lemma agrees_same_outcome {A} (r1 r2 : World * Outcome A) :
  agrees (λ a1 a2 _ _, a1 = a2) r1 r2 → r1.2 = r2.2 ∧ history r1.1 = history r2.1.
Proof.
  intros [[Hh _] HV]. split; [|done].
  destruct r1 as [w1 [a1|e1|]], r2 as [w2 [a2|e2|]]; simpl in *; try done; congruence.
Qed.

(** C9, as amended.  No operation wrapper writes to a request template.
    Whatever the call [c1]: every object that existed before it, the
    templates among them, has the same value after it; every object that it
    made is the template of its operation, or that template with another
    value of the field [variables]; a wrapper that inserts variables made
    such a copy; [get_inventory] and [get_viewer_drops_dashboard] (and the
    batched call without ids) insert none, make no object and post the
    template itself; what the call posts is the template or the template
    with other variables (a list of such bodies for the batched call).  A
    later call [c2] ends in the same way and posts the same requests as it
    does in the state where the objects that [c1] made do not exist: it
    observes no value of [c1]. *)
Theorem template_isolation (imports : Imports) (self : GQL) (c1 c2 : Call) (w : World) :
  templates_loaded w →
  let w1 := (invoke imports self c1 w).1 in
  let T := deref (heap w) (template (operation_of c1)) in
  untouched w w1
  ∧ made_from T w w1
  ∧ (inserts_variables c1 = true →
     ∃ copy, (copy ∉ dom (heap w)) ∧ copy ∈ dom (heap w1))
  ∧ (inserts_variables c1 = false →
     heap w1 = heap w
     ∧ ∃ n, history w1
            = history w
                ++ replicate n (Post (url imports) T (request_headers imports self)))
  ∧ (∃ evs, history w1 = history w ++ evs
            ∧ Forall (request_from T (is_batched c1)) evs)
  ∧ (let pristine := mkWorld (heap w) (history w1) in
     (invoke imports self c2 w1).2 = (invoke imports self c2 pristine).2
     ∧ history (invoke imports self c2 w1).1
       = history (invoke imports self c2 pristine).1).
Proof.
  intros Hloaded w1 T.
  destruct (invoke_safe imports self c1 w Hloaded) as [(Hun & _ & Hmade & Hevs) _].
  fold w1 in Hun, Hmade, Hevs. fold T in Hmade, Hevs.
  split; [done|]. split; [done|]. split; [|split; [|split; [done|]]].
  - intros Hc. exists (fresh (dom (heap w))). split; [apply is_fresh|].
    by apply invoke_makes_copy.
  - intros Hc. subst w1 T. destruct c1; try discriminate Hc; cbn [invoke operation_of].
    + destruct (operation_request_world imports self Inventory (template Inventory)
                  (parse_inventory_response (parser self)) w) as (n & Hh & Hi & _).
      split; [done|]. by exists n.
    + destruct (operation_request_world imports self ViewerDropsDashboard
                  (template ViewerDropsDashboard)
                  (parse_viewer_drops_dashboard_response (parser self)) w)
        as (n & Hh & Hi & _).
      split; [done|]. by exists n.
    + destruct campaign_ids; [|discriminate Hc].
      split; [done|]. exists 0. simpl. by rewrite app_nil_r.
  - intros pristine. apply agrees_same_outcome, invoke_agrees.
    split; [done|]. intros op. destruct (Hloaded op) as [value Hop].
    exists value. split; [|done]. rewrite Hun; [done|]. apply elem_of_dom. eauto.
Qed.

(** A prediction, then the resolution of a login. *)
Lemma template_isolation_witness :
  untouched example_world
    (invoke example_imports (example_gql (always_answers (JDict [])))
       (call_make_prediction "event" "outcome" 50) example_world).1
  ∧ (invoke example_imports (example_gql (always_answers (JDict [])))
       (call_get_id_from_login "alice")
       (invoke example_imports (example_gql (always_answers (JDict [])))
          (call_make_prediction "event" "outcome" 50) example_world).1).2
    = (invoke example_imports (example_gql (always_answers (JDict [])))
         (call_get_id_from_login "alice")
         (mkWorld (heap example_world)
            (history
               (invoke example_imports (example_gql (always_answers (JDict [])))
                  (call_make_prediction "event" "outcome" 50) example_world).1))).2.
Proof.
  destruct (template_isolation example_imports
              (example_gql (always_answers (JDict [])))
              (call_make_prediction "event" "outcome" 50)
              (call_get_id_from_login "alice") example_world)
    as (Huntouched & _ & _ & _ & _ & Hsame & _).
  - intros op. destruct op; vm_compute; eauto.
  - split; [exact Huntouched|exact Hsame].
Defined.

(** C9 fails as stated: [get_inventory] builds no copy of its template.
    Its call leaves the heap as it is, with no new object, and the body that
    it posts is the template itself. *)
Lemma get_inventory_builds_no_copy :
  heap (invoke example_imports (example_gql (always_answers (JDict [])))
          call_get_inventory example_world).1
  = heap example_world
  ∧ history (invoke example_imports (example_gql (always_answers (JDict [])))
               call_get_inventory example_world).1
    = [Post (url example_imports) (example_constants Inventory)
         (request_headers example_imports (example_gql (always_answers (JDict []))))]
  ∧ dom (heap (invoke example_imports (example_gql (always_answers (JDict [])))
                 (call_get_available_drops "1234") example_world).1)
    = {[fresh (dom (heap example_world))]} ∪ dom (heap example_world).
Proof. vm_compute. done. Qed.

(** ** Further properties of the retry engine and of the calls *)

(** *** Runs of the retry engine *)

Lemma interleave_calls seconds passes :
  Forall is_pass passes →
  length (filter is_call_attempt (interleave seconds passes)) = length passes.
Proof.
  destruct passes as [|evs passes _] using rev_ind; [done|].
  intros [Hall Hpass%Forall_inv]%Forall_app.
  rewrite interleave_snoc, filter_app, !length_app, slept_calls, calls_pass by done.
  done.
Qed.

Lemma interleave_sleeps seconds passes :
  Forall is_pass passes →
  filter is_sleep (interleave seconds passes)
  = replicate (length passes - 1) (Sleep seconds).
Proof.
  destruct passes as [|evs passes _] using rev_ind; [done|].
  intros [Hall Hpass%Forall_inv]%Forall_app.
  rewrite interleave_snoc, filter_app, slept_sleeps, filter_sleep_pass by done.
  rewrite app_nil_r, length_app. simpl. f_equal. lia.
Qed.

Section make_attempts_runs.
Context {W TResult : Type}.
Variable self : AttemptStrategy.
Variable attempt : W → W * (Exception + TResult).
Variable validate : TResult → W → W * (Exception + unit).
Variable retryable : Exception → bool.
Variable exception_context : Exception → option string.

Local Abbreviation run := (make_attempts self attempt validate retryable exception_context).
Local Abbreviation failing := (retried self attempt validate retryable).
Local Abbreviation raises := (pass_raises attempt validate).
Local Abbreviation returns := (pass_returns attempt validate).
Local Abbreviation recorded := (context_of exception_context).
Local Abbreviation interval := (attempt_interval_seconds self).

(** Every way in which a run ends. *)
Lemma make_attempts_cases w :
  ∃ w' tr r,
    run w = (w', tr, r)
    ∧ match r with
      | Returned (SuccessResult errors v) =>
          ∃ es w1 passes,
            failing w es w1 ∧ returns w1 v w'
            ∧ errors = recorded <$> es
            ∧ (Z.of_nat (length es) < attempts self)%Z
            ∧ length passes = length es + 1 ∧ Forall is_pass passes
            ∧ tr = interleave interval passes
      | Returned (ErrorResult errors) =>
          ((attempts self ≤ 0)%Z ∧ errors = [] ∧ w' = w ∧ tr = [])
          ∨ ∃ es e w1 passes,
              failing w es w1 ∧ raises w1 e w'
              ∧ errors = recorded <$> (es ++ [e])
              ∧ (Z.of_nat (length es) < attempts self)%Z
              ∧ (retryable e = false
                 ∨ retryable e = true ∧ (Z.of_nat (length es) + 1 = attempts self)%Z)
              ∧ length passes = length es + 1 ∧ Forall is_pass passes
              ∧ tr = interleave interval passes
      | Raised ex =>
          ∃ e evs,
            raises w e w' ∧ retryable e = true
            ∧ (2 ≤ attempts self)%Z
            ∧ time_sleep interval = Some ex
            ∧ is_pass evs ∧ tr = evs ++ [Sleep interval]
      | OutOfFuel => False
      end.
Proof.
  destruct (loop_cases self attempt validate retryable exception_context
              (S (Z.to_nat (attempts self))) 0 [] w [])
    as (w' & tr & r & Hrun & Hcase); [lia|].
  exists w', tr, r. split; [done|].
  destruct Hcase as [Hcase|[Hcase|[Hcase|Hcase]]].
  - destruct Hcase as (es & w1 & v & passes & Hr & Hv & -> & Hn & Hlen & Hall & ->).
    exists es, w1, (passes ++ [[CallAttempt; CallValidate]]).
    rewrite interleave_snoc, length_app, Hlen. simpl.
    split; [done|]. split; [done|]. split; [done|]. split; [lia|].
    split; [done|]. split; [|done]. apply Forall_app. split; [done|].
    apply Forall_singleton. by right.
  - destruct Hcase
      as (es & e & w1 & passes & evs & Hr & He & -> & Hn & Hwhy & Hlen & Hall & Hpass & ->).
    right. exists es, e, w1, (passes ++ [evs]).
    rewrite interleave_snoc, length_app, Hlen. simpl.
    split; [done|]. split; [done|]. split; [done|]. split; [lia|].
    split; [destruct Hwhy as [?|[? ?]]; [by left|right; split; [done|lia]]|].
    split; [done|]. split; [|done]. apply Forall_app. split; [done|].
    by apply Forall_singleton.
  - destruct Hcase as (Hn & -> & -> & ->). left. repeat split; try done. lia.
  - destruct Hcase as (e & ex & evs & He & Hre & Hn & Hsleep & -> & Hpass & ->).
    exists e, evs. repeat split; try done. lia.
Qed.

(** The numbers of a run: the calls of [attempt], as the result reports
    them. *)
Lemma make_attempts_numbers w w' tr r :
  run w = (w', tr, r) →
  match r with
  | Returned result =>
      result_attempts result = Z.of_nat (length (filter is_call_attempt tr))
      ∧ (result_attempts result ≤ Z.max 0 (attempts self))%Z
  | Raised ex =>
      length (filter is_call_attempt tr) = 1 ∧ time_sleep interval = Some ex
  | OutOfFuel => False
  end.
Proof.
  intros Hrun. destruct (make_attempts_cases w) as (w1 & tr1 & r1 & Hrun' & Hcase).
  rewrite Hrun in Hrun'. injection Hrun' as <- <- <-.
  destruct r as [[errors v|errors]|ex|]; [| | |done].
  - destruct Hcase as (es & w1 & passes & _ & _ & -> & Hn & Hlen & Hall & ->).
    rewrite interleave_calls by done. simpl. rewrite length_fmap. lia.
  - destruct Hcase as [(Hn & -> & _ & ->)|Hcase]; [simpl; lia|].
    destruct Hcase as (es & e & w1 & passes & _ & _ & -> & Hn & _ & Hlen & Hall & ->).
    rewrite interleave_calls by done. simpl. rewrite length_fmap, length_app. simpl. lia.
  - destruct Hcase as (e & evs & _ & _ & _ & Hsleep & Hpass & ->).
    split; [|done]. rewrite filter_app, length_app, calls_pass by done. done.
Qed.

(** X1.  With [attempts = N ≥ 1]: when [N] consecutive passes through the
    [try] block raise retryable errors (each of the first [N - 1] followed
    by a sleep that [time.sleep] accepts), [make_attempts] returns
    [ErrorResult] with exactly these [N] errors, oldest first.  Its events
    are those of the [N] passes with one call of
    [time.sleep(attempt_interval_seconds)] between two consecutive passes
    and nowhere else: [attempt] ran [N] times, [time.sleep] [N - 1] times,
    and nothing sleeps after the last error. *)
Theorem make_attempts_exhausted es e w w1 w2 :
  (Z.of_nat (length es) + 1 = attempts self)%Z →
  retried self attempt validate retryable w es w1 →
  pass_raises attempt validate w1 e w2 →
  retryable e = true →
  ∃ passes,
    length passes = Z.to_nat (attempts self) ∧ Forall is_pass passes
    ∧ make_attempts self attempt validate retryable exception_context w
      = (w2, interleave (attempt_interval_seconds self) passes,
         Returned (ErrorResult (context_of exception_context <$> (es ++ [e]))))
    ∧ length (context_of exception_context <$> (es ++ [e])) = Z.to_nat (attempts self)
    ∧ length (filter is_call_attempt (interleave (attempt_interval_seconds self) passes))
      = Z.to_nat (attempts self)
    ∧ filter is_sleep (interleave (attempt_interval_seconds self) passes)
      = replicate (Z.to_nat (attempts self) - 1) (Sleep (attempt_interval_seconds self)).
Proof.
  intros HN Hr He Hre.
  destruct (make_attempts_last_error self attempt validate retryable exception_context
              es e w w1 w2 Hr He) as (passes & evs & Hlen & Hall & Hpass & Hrun);
    [lia|right; lia|].
  assert (Forall is_pass (passes ++ [evs])) as Hall'.
  { apply Forall_app. split; [done|]. by apply Forall_singleton. }
  assert (length (passes ++ [evs]) = Z.to_nat (attempts self)) as Hlen'.
  { rewrite length_app. simpl. lia. }
  exists (passes ++ [evs]).
  rewrite interleave_calls, interleave_sleeps, interleave_snoc, length_fmap by done.
  rewrite Hlen', length_app. simpl. repeat split; try done. lia.
Qed.


(** X3.  The events of a run of [make_attempts] that returns a result are
    those of its passes through the [try] block (one call of [attempt]
    each, followed by the call of [validate] when [attempt] returned), with
    exactly one call of [time.sleep(attempt_interval_seconds)] between two
    consecutive passes, and none before the first pass or after the last.
    The property [attempts] of the result is the number of these passes,
    which is at most [max(0, self.attempts)].  A run that returns no result
    made one pass and ends with the call of [time.sleep] that raised. *)
Theorem make_attempts_accounting w :
  ∃ w' tr r,
    make_attempts self attempt validate retryable exception_context w = (w', tr, r)
    ∧ match r with
      | Returned result =>
          ∃ passes,
            Forall is_pass passes
            ∧ tr = interleave (attempt_interval_seconds self) passes
            ∧ result_attempts result = Z.of_nat (length passes)
            ∧ length (filter is_call_attempt tr) = length passes
            ∧ (Z.of_nat (length passes) ≤ Z.max 0 (attempts self))%Z
      | Raised ex =>
          time_sleep (attempt_interval_seconds self) = Some ex
          ∧ ∃ evs, is_pass evs ∧ tr = evs ++ [Sleep (attempt_interval_seconds self)]
      | OutOfFuel => False
      end.
Proof.
  destruct (make_attempts_cases w) as (w' & tr & r & Hrun & Hcase).
  exists w', tr, r. split; [done|].
  destruct r as [[errors v|errors]|ex|]; [| | |done].
  - destruct Hcase as (es & w1 & passes & _ & _ & -> & Hn & Hlen & Hall & ->).
    exists passes. rewrite interleave_calls by done. simpl. rewrite length_fmap.
    repeat split; try done; lia.
  - destruct Hcase as [(Hn & -> & _ & ->)|Hcase].
    { exists []. simpl. repeat split; try done. lia. }
    destruct Hcase as (es & e & w1 & passes & _ & _ & -> & Hn & _ & Hlen & Hall & ->).
    exists passes. rewrite interleave_calls by done. simpl.
    rewrite length_fmap, length_app. simpl. repeat split; try done; lia.
  - destruct Hcase as (e & evs & _ & _ & _ & Hsleep & Hpass & ->).
    split; [done|]. by exists evs.
Qed.
End make_attempts_runs.

(** Two attempts allowed, two timeouts. *)
Lemma make_attempts_exhausted_witness :
  ∃ passes,
    make_attempts (mkAttemptStrategy 2 5) (flaky 7) accept is_recoverable_error
      no_context 0
    = (2, interleave 5 passes,
       Returned (ErrorResult
                   [mkExceptionContext (RequestException "ReadTimeout") None;
                    mkExceptionContext (RequestException "ReadTimeout") None]))
    ∧ filter is_sleep (interleave 5 passes) = [Sleep 5].
Proof.
  destruct (make_attempts_exhausted (mkAttemptStrategy 2 5) (flaky 7) accept
              is_recoverable_error no_context
              [RequestException "ReadTimeout"] (RequestException "ReadTimeout") 0 1 2)
    as (passes & _ & _ & Hrun & _ & _ & Hsleep).
  - reflexivity.
  - eapply retried_cons; [by left|reflexivity|reflexivity|]. apply retried_nil.
  - by left.
  - reflexivity.
  - exists passes. split; [exact Hrun|exact Hsleep].
Defined.

(** *** The executor *)

Lemma parse_each_first_error {T} (parse : json → Exception + T) before :
  ∀ values item e after,
    Forall2 (λ item v, parse item = inr v) before values →
    parse item = inl e →
    parse_each parse (before ++ item :: after) = inl e.
Proof.
  induction before as [|b before IH]; intros values item e after Hall He.
  - simpl. by rewrite He.
  - apply Forall2_cons_inv_l in Hall as (v & vs & Hb & Hall & ->).
    simpl. rewrite Hb. by rewrite (IH vs item e after Hall He).
Qed.

Section executor_facts.
Variable imports : Imports.
Variable self : GQL.

Local Abbreviation headers := (request_headers imports self).
Local Abbreviation posted body := (Post (url imports) body (request_headers imports self)).
Local Abbreviation strategy := (attempt_strategy self).

(** What a run of the retry engine on a request leaves: one post per call
    of [attempt], as many as the result counts attempts. *)
Lemma attempt_request_posts {T} request_json (parse : json → Exception + T) w :
  ∃ w' tr r n,
    attempt_request imports self request_json parse w = (w', tr, r)
    ∧ heap w' = heap w
    ∧ history w' = history w ++ replicate n (posted (serialise (heap w) request_json))
    ∧ (Z.of_nat n ≤ Z.max 0 (attempts strategy))%Z
    ∧ match r with
      | Returned result => result_attempts result = Z.of_nat n
      | Raised ex => n = 1 ∧ time_sleep (attempt_interval_seconds strategy) = Some ex
      | OutOfFuel => False
      end.
Proof.
  destruct (attempt_request imports self request_json parse w) as [[w' tr] r] eqn:Hrun.
  pose proof Hrun as Hw.
  apply attempt_request_world in Hw as (Hh & Hi & Hle & _ & _).
  unfold attempt_request in Hrun. apply make_attempts_numbers in Hrun.
  exists w', tr, r, (length (filter is_call_attempt tr)).
  split; [done|]. split; [done|]. split; [done|]. split; [lia|].
  destruct r as [result|ex|]; [|done|done]. by destruct Hrun.
Qed.

Lemma handle_result_outcome {T} (result : AttemptResult T) operation_name :
  match of_sum (__handle_result result operation_name) with
  | Returned _ => (1 ≤ result_attempts result)%Z
  | Raised e =>
      ∃ errors, e = GQLException (RetryError operation_name errors)
                ∧ Z.of_nat (length errors) = result_attempts result
  | OutOfFuel => False
  end.
Proof. destruct result as [errors v|errors]; simpl; [lia|by exists errors]. Qed.


Lemma batch_request_outcome {T} operation_name ls (parse : json → Exception + T) w :
  ∃ n,
    heap (post_gql_request_batch imports self operation_name ls parse w).1 = heap w
    ∧ history (post_gql_request_batch imports self operation_name ls parse w).1
      = history w ++ replicate n (posted (JList (deref (heap w) <$> ls)))
    ∧ (Z.of_nat n ≤ Z.max 0 (attempts strategy))%Z
    ∧ match (post_gql_request_batch imports self operation_name ls parse w).2 with
      | Returned _ => 1 ≤ n
      | Raised e =>
          (∃ errors, e = GQLException (RetryError operation_name errors)
                     ∧ length errors = n)
          ∨ (time_sleep (attempt_interval_seconds strategy) = Some e ∧ n = 1)
      | OutOfFuel => False
      end.
Proof.
  unfold post_gql_request_batch.
  destruct (attempt_request_posts (ListRequest ls) (parse_list parse) w)
    as (w' & tr & r & n & -> & Hh & Hi & Hle & Hr).
  exists n. destruct r as [result|ex|]; [| |done]; simpl in *.
  2: { destruct Hr as [-> Hsleep].
       split; [done|]. split; [done|]. split; [done|]. by right. }
  split; [done|]. split; [done|]. split; [done|].
  pose proof (handle_result_outcome result operation_name) as Hout.
  destruct (of_sum _) as [v|e|]; [lia| |done].
  destruct Hout as (errors & -> & Hlen). left. exists errors. split; [done|lia].
Qed.


(** The run of the retry engine when the first response has a good status
    and a JSON body that is decoded. *)
Lemma attempt_request_first_success {T} request_json (parse : json → Exception + T)
    w response value v :
  (1 ≤ attempts strategy)%Z →
  post_request self (history w) (url imports) (serialise (heap w) request_json) headers
  = inr response →
  raise_for_status response = None →
  json_body response = Some value →
  decode request_json parse value = inr v →
  ∃ tr,
    attempt_request imports self request_json parse w
    = (mkWorld (heap w) (history w ++ [posted (serialise (heap w) request_json)]), tr,
       Returned (SuccessResult [] v)).
Proof.
  intros HN Hpost Hstatus Hbody Hdecode.
  pose proof (post_gql_request_decodes imports self request_json parse w response value
                Hpost Hstatus Hbody) as Hatt.
  rewrite Hdecode in Hatt. apply request_returns in Hatt.
  destruct (make_attempts_success strategy _ _ is_recoverable_error (error_context imports)
              [] v w w _ (retried_nil _ _ _ _ w) Hatt) as (passes & _ & _ & Hrun);
    [simpl; lia|].
  by eexists.
Qed.

(** The same when decoding raises an error that is not recoverable. *)
Lemma attempt_request_first_fatal {T} request_json (parse : json → Exception + T)
    w response value e :
  (1 ≤ attempts strategy)%Z →
  post_request self (history w) (url imports) (serialise (heap w) request_json) headers
  = inr response →
  raise_for_status response = None →
  json_body response = Some value →
  decode request_json parse value = inl e →
  is_recoverable_error e = false →
  ∃ tr,
    attempt_request imports self request_json parse w
    = (mkWorld (heap w) (history w ++ [posted (serialise (heap w) request_json)]), tr,
       Returned (ErrorResult [mkExceptionContext e (error_context imports e)])).
Proof.
  intros HN Hpost Hstatus Hbody Hdecode Hfatal.
  pose proof (post_gql_request_decodes imports self request_json parse w response value
                Hpost Hstatus Hbody) as Hatt.
  rewrite Hdecode in Hatt. apply request_raises in Hatt.
  destruct (make_attempts_last_error strategy _ _ is_recoverable_error
              (error_context imports) [] e w w _ (retried_nil _ _ _ _ w) Hatt)
    as (passes & evs & _ & _ & _ & Hrun); [simpl; lia|by left|].
  by eexists.
Qed.

(** X5.  With [attempts ≥ 1], when the first response to
    [post_gql_request_single] has a good status and a JSON body: if [parse]
    accepts the body, the parsed value is returned, and if [parse] raises an
    error that is not recoverable, [RetryError] is raised with just this
    error in its context; in both cases exactly one request was posted,
    whatever number of attempts is left. *)
Theorem post_gql_request_single_first_response {T} operation_name l
    (parse : json → Exception + T) w response value :
  (1 ≤ attempts strategy)%Z →
  post_request self (history w) (url imports) (deref (heap w) l) headers = inr response →
  raise_for_status response = None →
  json_body response = Some value →
  match parse value with
  | inr v =>
      post_gql_request_single imports self operation_name l parse w
      = (mkWorld (heap w) (history w ++ [posted (deref (heap w) l)]), Returned v)
  | inl e =>
      is_recoverable_error e = false →
      post_gql_request_single imports self operation_name l parse w
      = (mkWorld (heap w) (history w ++ [posted (deref (heap w) l)]),
         Raised (GQLException
                   (RetryError operation_name
                      [mkExceptionContext e (error_context imports e)])))
  end.
Proof.
  intros HN Hpost Hstatus Hbody. unfold post_gql_request_single.
  destruct (parse value) as [e|v] eqn:Hparse.
  - intros Hfatal.
    destruct (attempt_request_first_fatal (DictRequest l) parse w response value e
                HN Hpost Hstatus Hbody Hparse Hfatal) as (tr & ->). done.
  - destruct (attempt_request_first_success (DictRequest l) parse w response value v
                HN Hpost Hstatus Hbody Hparse) as (tr & ->). done.
Qed.

(** X6.  With [attempts ≥ 1], when the first response to
    [post_gql_request_batch] has a good status and its body is a JSON array.
    [__post_gql_request] maps the callback over the array, and the callback
    of a batch is [parse_list(parse, ·)]: the call returns (a list of lists)
    when every element of the array is itself an array whose elements
    [parse] accepts; and when an element that is not an array follows
    elements that are decoded, [RetryError] is raised, after one request,
    with the shape error "list expected", which carries no stack trace. *)
Theorem post_gql_request_batch_first_response {T} operation_name ls
    (parse : json → Exception + T) w response items :
  (1 ≤ attempts strategy)%Z →
  post_request self (history w) (url imports) (JList (deref (heap w) <$> ls)) headers
  = inr response →
  raise_for_status response = None →
  json_body response = Some (JList items) →
  (∀ values,
     Forall2 (λ item parsed,
                ∃ elements, item = JList elements
                  ∧ Forall2 (λ element v, parse element = inr v) elements parsed)
       items values →
     post_gql_request_batch imports self operation_name ls parse w
     = (mkWorld (heap w) (history w ++ [posted (JList (deref (heap w) <$> ls))]),
        Returned values))
  ∧ (∀ before values item after,
       items = before ++ item :: after →
       Forall2 (λ item parsed, parse_list parse item = inr parsed) before values →
       (∀ elements, item ≠ JList elements) →
       post_gql_request_batch imports self operation_name ls parse w
       = (mkWorld (heap w) (history w ++ [posted (JList (deref (heap w) <$> ls))]),
          Raised (GQLException
                    (RetryError operation_name
                       [mkExceptionContext
                          (GQLException (InvalidJsonShapeException [] "list expected"))
                          None])))).
Proof.
  intros HN Hpost Hstatus Hbody. unfold post_gql_request_batch. split.
  - intros values Hall.
    destruct (attempt_request_first_success (ListRequest ls) (parse_list parse)
                w response (JList items) values HN Hpost Hstatus Hbody) as (tr & ->);
      [|done].
    simpl. apply parse_each_inr.
    eapply Forall2_impl; [exact Hall|]. simpl.
    intros item parsed (elements & -> & Helements). simpl. by apply parse_each_inr.
  - intros before values item after -> Hbefore Hshape.
    destruct (attempt_request_first_fatal (ListRequest ls) (parse_list parse)
                w response (JList (before ++ item :: after))
                (GQLException (InvalidJsonShapeException [] "list expected"))
                HN Hpost Hstatus Hbody) as (tr & ->); [|done|done].
    simpl. apply (parse_each_first_error _ _ values); [done|].
    destruct item; try done. by destruct (Hshape items).
Qed.

End executor_facts.

Section executor_failures.
Variable imports : Imports.
Variable self : GQL.

Local Abbreviation headers := (request_headers imports self).
Local Abbreviation posted body := (Post (url imports) body (request_headers imports self)).
Local Abbreviation strategy := (attempt_strategy self).



End executor_failures.

(** *** parse_list *)

(** X8.  [parse_list(parse, value)] returns [values] exactly when [value]
    is a list whose items [parse] accepts, [values] being the parsed items
    in the order of the list. *)
Theorem parse_list_returns_iff {T} (parse : json → Exception + T) value values :
  parse_list parse value = inr values
  ↔ ∃ items, value = JList items ∧ Forall2 (λ item v, parse item = inr v) items values.
Proof.
  split.
  - destruct value as [| | | | |items|]; try done. simpl. intros Hall.
    exists items. split; [done|]. by apply parse_each_inr.
  - intros (items & -> & Hall). simpl. by apply parse_each_inr.
Qed.

(** X9.  [parse_list(parse, value)] raises [e] exactly in two cases:
    [value] is not a list and [e] is the [InvalidJsonShapeException] with the
    empty path and the message "list expected"; or [e] is what [parse]
    raises on the first item that it does not accept. *)
Theorem parse_list_error {T} (parse : json → Exception + T) value e :
  parse_list parse value = inl e
  ↔ ((∀ items, value ≠ JList items)
      ∧ e = GQLException (InvalidJsonShapeException [] "list expected"))
    ∨ ∃ before values item after,
        value = JList (before ++ item :: after)
        ∧ Forall2 (λ item v, parse item = inr v) before values
        ∧ parse item = inl e.
Proof.
  split.
  - destruct value as [| | | | |items|]; simpl;
      try (intros [= <-]; left; split; [by intros ?|done]).
    intros Herr. right. induction items as [|item items IH]; [done|].
    simpl in Herr. destruct (parse item) as [e'|v] eqn:Hitem.
    + injection Herr as ->. by exists [], [], item, items.
    + destruct (parse_each parse items) as [e'|vs] eqn:Hrest; [|done].
      injection Herr as ->. destruct (IH eq_refl) as (b & vs & i & a & [= ->] & Hall & Hi).
      exists (item :: b), (v :: vs), i, a. repeat split; try done. by constructor.
  - intros [[Hshape ->]|(before & values & item & after & -> & Hall & He)].
    + destruct value; try done. by destruct (Hshape items).
    + simpl. by eapply parse_each_first_error.
Qed.

(** *** The edges of a page *)

Lemma collect_edges_result (edges : list FollowEdge) follows last_cursor :
  collect_edges edges follows last_cursor
  = (follows ++ ((λ edge, login (node edge)) <$> edges),
     default last_cursor (cursor <$> last edges)).
Proof.
  revert follows last_cursor.
  induction edges as [|edge edges IH]; intros follows last_cursor; simpl.
  - by rewrite app_nil_r.
  - rewrite IH, <- app_assoc. f_equal.
    destruct edges as [|edge' edges]; [done|]. simpl.
    by destruct (proj2 (last_is_Some (edge' :: edges)) ltac:(done)) as [? ->].
Qed.

(** X10.  The loop over the edges of a page in [channel_follows] appends
    the login of every edge to [follows], in the order of the edges, and
    leaves in [last_cursor] the cursor of the last edge; a page without
    edges leaves [last_cursor] as it was. *)
Theorem collect_edges_closed_form (edges : list FollowEdge) follows last_cursor :
  collect_edges edges follows last_cursor
  = (follows ++ ((λ edge, login (node edge)) <$> edges),
     match last edges with
     | Some edge => cursor edge
     | None => last_cursor
     end).
Proof. rewrite collect_edges_result. by destruct (last edges). Qed.

(** *** The requests of the wrappers *)


(** The copy of a template and the write of its [variables]. *)
Lemma copy_and_fill {A} op variables (k : loc → M A) w fields :
  heap w !! template op = Some (JDict fields) →
  (json_data ← deepcopy (template op);
   _ ← setitem json_data "variables" variables;
   k json_data) w
  = k (fresh (dom (heap w)))
      (mkWorld (<[fresh (dom (heap w)) := JDict (dict_set "variables" variables fields)]>
                  (heap w))
         (history w)).
Proof.
  intros Hl. unfold mbind, M_bind, deepcopy, setitem. simpl.
  rewrite deref_insert. unfold deref at 1. rewrite Hl. simpl.
  by rewrite insert_insert_eq.
Qed.

Lemma bind_unit_world {A B} (m : M A) (k : A → M B) w :
  ((x ← m; _ ← k x; mret ()) w).1 = ((x ← m; k x) w).1.
Proof.
  unfold mbind, M_bind. destruct (m w) as [w1 [a|e|]]; try done.
  by destruct (k a w1) as [w2 [b|e|]].
Qed.

Section wrapper_facts.
Variable imports : Imports.
Variable self : GQL.

Local Abbreviation headers := (request_headers imports self).
Local Abbreviation posted body := (Post (url imports) body (request_headers imports self)).
Local Abbreviation strategy := (attempt_strategy self).

Lemma copy_token_and_fill {A} op (variables : string → json) (k : loc → M A) w fields :
  heap w !! template op = Some (JDict fields) →
  (json_data ← deepcopy (template op);
   transaction_id ← draw_token_hex imports 16;
   _ ← setitem json_data "variables" (variables transaction_id);
   k json_data) w
  = k (fresh (dom (heap w)))
      (mkWorld (<[fresh (dom (heap w))
                  := JDict (dict_set "variables"
                              (variables (token_hex imports (history w) 16)) fields)]>
                  (heap w))
         (history w ++ [TokenHex 16])).
Proof.
  intros Hl. unfold mbind, M_bind, deepcopy, draw_token_hex, setitem. simpl.
  rewrite deref_insert. unfold deref at 1. rewrite Hl. simpl.
  by rewrite insert_insert_eq.
Qed.

(** The request of a wrapper on the filled copy of its template. *)
Lemma filled_request_world {T} op l body (parse : json → Exception + T) h hist fields name :
  h !! template op = Some (JDict fields) →
  dict_get "operationName" fields = Some (JStr name) →
  l ≠ template op →
  let m := (operation_name ← operation_name_of (template op);
            post_gql_request_single imports self operation_name l parse) in
  ∃ n,
    heap (m (mkWorld (<[l := body]> h) hist)).1 = <[l := body]> h
    ∧ history (m (mkWorld (<[l := body]> h) hist)).1 = hist ++ replicate n (posted body)
    ∧ n ≤ Z.to_nat (attempts strategy)
    ∧ ((1 ≤ attempts strategy)%Z → 1 ≤ n).
Proof.
  intros Hl Hname Hne m. subst m.
  destruct (operation_request_world imports self op l parse (mkWorld (<[l := body]> h) hist))
    as (n & Hh & Hi & Hle & Hge).
  simpl in Hh, Hi, Hge. rewrite deref_insert in Hi.
  exists n. repeat split; try done. apply Hge. exists fields, name.
  by rewrite lookup_insert_ne.
Qed.

(** X11.  The eleven wrappers that store a new value of [variables] and
    make one request.  When the template of the call is a dict with an
    [operationName], the call allocates exactly one object, the copy of the
    template whose [variables] is the dict that [variables_of] lists (the
    variables that the template had are dropped), and every request that it
    posts has this copy as body; the two wrappers that send a transaction id
    draw their token before the first request; there are at most [attempts]
    requests, and at least one when [attempts ≥ 1]. *)
Theorem wrapper_request_body c w fields name variables :
  heap w !! template (operation_of c) = Some (JDict fields) →
  dict_get "operationName" fields = Some (JStr name) →
  variables_of c (token_hex imports (history w) 16) = Some variables →
  ∃ n,
    heap (invoke imports self c w).1
    = <[fresh (dom (heap w)) := JDict (dict_set "variables" variables fields)]> (heap w)
    ∧ history (invoke imports self c w).1
      = history w ++ (if draws_token c then [TokenHex 16] else [])
          ++ replicate n (posted (JDict (dict_set "variables" variables fields)))
    ∧ n ≤ Z.to_nat (attempts strategy)
    ∧ ((1 ≤ attempts strategy)%Z → 1 ≤ n).
Proof.
  intros Hl Hname Hvars.
  pose proof (fresh_not_allocated _ _ _ Hl) as Hfresh.
  destruct c; simpl in Hvars; try discriminate; injection Hvars as <-;
    cbn [invoke operation_of draws_token] in *;
    try (unfold video_player_stream_info_overlay_channel, get_playback_access_token,
           get_channel_points_context, get_available_drops, claim_drop_rewards,
           get_user_points_contribution;
         rewrite (copy_and_fill _ _ _ _ _ Hl);
         by apply (filled_request_world _ _ _ _ _ _ fields name)).
  all: try (unfold join_raid, claim_community_points, claim_moment;
            rewrite (copy_and_fill _ _ _ _ _ Hl), bind_unit_world;
            by apply (filled_request_world _ _ _ _ _ _ fields name)).
  - unfold make_prediction.
    rewrite (copy_token_and_fill MakePrediction
               (λ transaction_id,
                  JDict [("input",
                          JDict [("eventID", JStr event_id);
                                 ("outcomeID", JStr outcome_id);
                                 ("points", JInt points);
                                 ("transactionID", JStr transaction_id)])]) _ _ _ Hl).
    match goal with
    | |- context [mkWorld (<[?l := ?body]> ?h) ?hist] =>
        destruct (filled_request_world MakePrediction l body
                    (parse_make_prediction_response (parser self))
                    h hist fields name Hl Hname Hfresh) as (n & Hh & Hi & Hle & Hge)
    end.
    exists n. cbv beta. rewrite (app_assoc (history w) [TokenHex 16]).
    split; [exact Hh|]. split; [exact Hi|]. by split.
  - unfold contribute_to_community_goal.
    rewrite (copy_token_and_fill ContributeCommunityPointsCommunityGoal
               (λ transaction_id,
                  JDict [("input",
                          JDict [("amount", JInt amount);
                                 ("channelID", JStr channel_id);
                                 ("goalID", JStr goal_id);
                                 ("transactionID", JStr transaction_id)])]) _ _ _ Hl).
    match goal with
    | |- context [mkWorld (<[?l := ?body]> ?h) ?hist] =>
        destruct (filled_request_world ContributeCommunityPointsCommunityGoal l body
                    (parse_contribute_community_points_community_goal (parser self))
                    h hist fields name Hl Hname Hfresh) as (n & Hh & Hi & Hle & Hge)
    end.
    exists n. cbv beta. rewrite (app_assoc (history w) [TokenHex 16]).
    split; [exact Hh|]. split; [exact Hi|]. by split.
Qed.
End wrapper_facts.

(** The copy of a template and the write of one of its variables. *)
Lemma copy_and_merge {A} op key value (k : loc → M A) w fields :
  heap w !! template op = Some (JDict fields) →
  (json_data ← deepcopy (template op);
   _ ← setitem2 json_data "variables" key value;
   k json_data) w
  = match dict_get "variables" fields with
    | Some (JDict variables) =>
        k (fresh (dom (heap w)))
          (mkWorld (<[fresh (dom (heap w))
                      := JDict (dict_set "variables"
                                  (JDict (dict_set key value variables)) fields)]>
                      (heap w))
             (history w))
    | Some _ =>
        (mkWorld (<[fresh (dom (heap w)) := JDict fields]> (heap w)) (history w),
         Raised (OtherException "TypeError"))
    | None =>
        (mkWorld (<[fresh (dom (heap w)) := JDict fields]> (heap w)) (history w),
         Raised (OtherException "KeyError"))
    end.
Proof.
  intros Hl. unfold mbind, M_bind, deepcopy, setitem2. simpl.
  assert (deref (heap w) (template op) = JDict fields) as Hd
    by (unfold deref; by rewrite Hl).
  rewrite deref_insert, !Hd.
  destruct (dict_get "variables" fields) as [[| | | | | |variables]|]; try done.
  simpl. by rewrite insert_insert_eq.
Qed.

Section more_wrapper_facts.
Variable imports : Imports.
Variable self : GQL.

Local Abbreviation headers := (request_headers imports self).
Local Abbreviation posted body := (Post (url imports) body (request_headers imports self)).
Local Abbreviation strategy := (attempt_strategy self).

(** X12.  [get_id_from_login] does not replace the variables of its
    template: when the template is a dict with an [operationName] and a dict
    of [variables], the body of every request is the copy of the template in
    which [login] was set among these variables, the others being kept. *)
Theorem get_id_from_login_merges_login streamer_username w fields name variables :
  heap w !! template GetIDFromLogin = Some (JDict fields) →
  dict_get "operationName" fields = Some (JStr name) →
  dict_get "variables" fields = Some (JDict variables) →
  ∃ n,
    heap (get_id_from_login imports self streamer_username w).1
    = <[fresh (dom (heap w))
        := JDict (dict_set "variables"
                    (JDict (dict_set "login" (JStr streamer_username) variables))
                    fields)]> (heap w)
    ∧ history (get_id_from_login imports self streamer_username w).1
      = history w
          ++ replicate n
               (posted (JDict (dict_set "variables"
                                 (JDict (dict_set "login" (JStr streamer_username)
                                           variables))
                                 fields)))
    ∧ n ≤ Z.to_nat (attempts strategy)
    ∧ ((1 ≤ attempts strategy)%Z → 1 ≤ n).
Proof.
  intros Hl Hname Hvars. unfold get_id_from_login.
  rewrite (copy_and_merge _ _ _ _ _ _ Hl), Hvars.
  apply (filled_request_world imports self _ _ _ _ _ _ fields name); try done.
  by eapply fresh_not_allocated.
Qed.

(** X13.  When the template [GetIDFromLogin] is a dict that has no dict
    [variables], [get_id_from_login] raises before any request: [KeyError]
    when the field is missing, [TypeError] when it is not a dict.  Nothing is
    posted, and the copy of the template stays as it was made. *)
Theorem get_id_from_login_needs_variables streamer_username w fields :
  heap w !! template GetIDFromLogin = Some (JDict fields) →
  (∀ variables, dict_get "variables" fields ≠ Some (JDict variables)) →
  get_id_from_login imports self streamer_username w
  = (mkWorld (<[fresh (dom (heap w)) := JDict fields]> (heap w)) (history w),
     Raised (OtherException
               match dict_get "variables" fields with
               | Some _ => "TypeError"
               | None => "KeyError"
               end)).
Proof.
  intros Hl Hvars. unfold get_id_from_login.
  rewrite (copy_and_merge _ _ _ _ _ _ Hl).
  destruct (dict_get "variables" fields) as [[| | | | | |variables]|]; try done.
  by destruct (Hvars variables).
Qed.

(** X14.  [get_inventory] and [get_viewer_drops_dashboard] allocate
    nothing and change no object: the body of each of their requests is the
    template itself, as it is when the call is made. *)
Theorem template_posted_without_copy w :
  (∃ n,
     heap (get_inventory imports self w).1 = heap w
     ∧ history (get_inventory imports self w).1
       = history w ++ replicate n (posted (deref (heap w) (template Inventory)))
     ∧ n ≤ Z.to_nat (attempts strategy)
     ∧ (template_loaded (heap w) Inventory → (1 ≤ attempts strategy)%Z → 1 ≤ n))
  ∧ (∃ n,
       heap (get_viewer_drops_dashboard imports self w).1 = heap w
       ∧ history (get_viewer_drops_dashboard imports self w).1
         = history w
             ++ replicate n (posted (deref (heap w) (template ViewerDropsDashboard)))
       ∧ n ≤ Z.to_nat (attempts strategy)
       ∧ (template_loaded (heap w) ViewerDropsDashboard →
          (1 ≤ attempts strategy)%Z → 1 ≤ n)).
Proof.
  split.
  - apply (operation_request_world imports self Inventory (template Inventory)).
  - apply (operation_request_world imports self ViewerDropsDashboard
             (template ViewerDropsDashboard)).
Qed.

(** The body of the request for one campaign. *)
Local Abbreviation campaign_request fields :=
  (λ campaign : string,
     JDict (dict_set "variables"
              (JDict [("dropID", JStr campaign);
                      ("channelLogin", JStr (user_id (client_session self)))])
              fields)).

Lemma build_batch_run chunk :
  ∀ json_data w fields,
    heap w !! template DropCampaignDetails = Some (JDict fields) →
    ∃ w' copies,
      build_batch self chunk json_data w = (w', Returned (json_data ++ copies))
      ∧ history w' = history w
      ∧ deref (heap w') <$> copies = campaign_request fields <$> chunk
      ∧ NoDup copies
      ∧ (∀ l, l ∈ copies → l ∉ dom (heap w))
      ∧ untouched w w'.
Proof.
  induction chunk as [|campaign chunk IH]; intros json_data w fields Hl.
  - exists w, []. simpl. rewrite app_nil_r. repeat split; try done.
    + constructor.
    + by intros l Hin%elem_of_nil.
  - cbn [build_batch]. rewrite (copy_and_fill _ _ _ _ _ Hl).
    set (l := fresh (dom (heap w))).
    set (w1 := mkWorld _ _).
    assert (l ∉ dom (heap w)) as Hfresh by apply is_fresh.
    assert (heap w1 !! template DropCampaignDetails = Some (JDict fields)) as Hl1.
    { subst w1. simpl. rewrite lookup_insert_ne; [done|]. by eapply fresh_not_allocated. }
    assert (∀ l', l' ∈ dom (heap w) → l' ∈ dom (heap w1)) as Hsub.
    { intros l' Hd. subst w1. simpl. rewrite dom_insert_L. by apply elem_of_union_r. }
    assert (l ∈ dom (heap w1)) as Hin.
    { subst w1. simpl. rewrite dom_insert_L. by apply elem_of_union_l, elem_of_singleton. }
    destruct (IH (json_data ++ [l]) w1 fields Hl1)
      as (w' & copies & Hrun & Hi & Hbodies & Hnd & Hnew & Hkeep).
    exists w', (l :: copies). rewrite Hrun, <- app_assoc. simpl.
    repeat split; try done.
    + f_equal; [|done]. unfold deref. rewrite (Hkeep l Hin). subst w1. simpl.
      by rewrite lookup_insert_eq.
    + constructor; [|done]. intros Hc. by apply (Hnew l Hc).
    + intros l' [->|Hc]%elem_of_cons; [done|].
      intros Hd. by apply (Hnew l' Hc), Hsub.
    + intros l' Hd. rewrite (Hkeep l') by by apply Hsub.
      subst w1. simpl. rewrite lookup_insert_ne; [done|]. by intros <-.
Qed.

(** X15.  The inner loop of [get_drop_campaign_details]: when the template
    is a dict, it appends to [json_data] one new object per campaign id of
    the chunk, in the order of the ids; the objects are distinct and were
    not allocated before; each is the copy of the template whose
    [variables] are the [dropID] of the campaign and, as [channelLogin], the
    user id of the session; nothing is posted and no older object
    changes. *)
Theorem build_batch_requests chunk json_data w fields :
  heap w !! template DropCampaignDetails = Some (JDict fields) →
  ∃ w' copies,
    build_batch self chunk json_data w = (w', Returned (json_data ++ copies))
    ∧ history w' = history w
    ∧ deref (heap w') <$> copies
      = (λ campaign,
           JDict (dict_set "variables"
                    (JDict [("dropID", JStr campaign);
                            ("channelLogin", JStr (user_id (client_session self)))])
                    fields)) <$> chunk
    ∧ NoDup copies
    ∧ (∀ l, l ∈ copies → l ∉ dom (heap w))
    ∧ untouched w w'.
Proof.
  intros Hl.
  destruct (build_batch_run chunk json_data w fields Hl)
    as (w' & copies & Hrun & Hi & Hbodies & Hnd & Hnew & Hkeep).
  by exists w', copies.
Qed.
End more_wrapper_facts.

(** *** The exceptions of the wrappers *)


Section raised_errors.
Variable imports : Imports.
Variable self : GQL.

Local Abbreviation strategy := (attempt_strategy self).

(** The call returned, or raised the [RetryError] of the operation, or
    what [time.sleep] raised. *)
Local Abbreviation ends_well name r :=
  (match r with
   | Returned _ => True
   | Raised e =>
       (∃ errors,
          e = GQLException (RetryError name errors)
          ∧ (Z.of_nat (length errors) ≤ Z.max 0 (attempts strategy))%Z)
       ∨ time_sleep (attempt_interval_seconds strategy) = Some e
   | OutOfFuel => False
   end).







End raised_errors.

(** *** Pagination and batches *)

Section pagination.
Variable imports : Imports.
Variable self : GQL.

Lemma channel_follows_loop_pages json_data w last_cursor pages w' :
  follows_pages imports self json_data w last_cursor pages w' →
  ∀ fuel follows,
    length pages ≤ fuel →
    channel_follows_loop imports self fuel json_data last_cursor follows w
    = (w', Returned (follows ++ concat (page_logins <$> pages))).
Proof.
  induction 1 as [w c w1 name w2 page Hset Hname Hpost Hlast
                 |w c w1 name w2 page pages w' Hset Hname Hpost Hnext Hrest IH];
    intros fuel follows Hfuel;
    (destruct fuel as [|fuel]; [simpl in Hfuel; lia|]);
    cbn [channel_follows_loop];
    rewrite (bind_returned _ _ _ _ _ Hset), (bind_returned _ _ _ _ _ Hname),
      (bind_returned _ _ _ _ _ Hpost), collect_edges_result.
  - rewrite Hlast. simpl. by rewrite app_nil_r.
  - rewrite Hnext. rewrite (IH fuel); [|simpl in Hfuel; lia].
    simpl. by rewrite <- app_assoc.
Qed.

(** X17.  [channel_follows], when the template is a dict: if the requests
    of the loop, the first with the empty cursor and each next one with the
    cursor left by the page before, receive the pages [pages], of which only
    the last announces no next page, the call returns the logins of all the
    edges of all the pages, in the order of the pages and of their edges. *)
Theorem channel_follows_returns_all_pages fuel limit order w fields pages w' :
  heap w !! template ChannelFollows = Some (JDict fields) →
  follows_pages imports self (fresh (dom (heap w)))
    (mkWorld
       (<[fresh (dom (heap w))
          := JDict (dict_set "variables"
                      (JDict [("limit", JInt limit); ("order", JStr (str_of_order order))])
                      fields)]> (heap w))
       (history w))
    "" pages w' →
  length pages ≤ fuel →
  channel_follows imports self fuel limit order w
  = (w', Returned (concat (page_logins <$> pages))).
Proof.
  intros Hl Hpages Hfuel. unfold channel_follows.
  rewrite (copy_and_fill _ _ _ _ _ Hl).
  by rewrite (channel_follows_loop_pages _ _ _ _ _ Hpages fuel []).
Qed.
Lemma get_drop_campaign_details_loop_responses w chunks responses w' :
  batch_responses imports self w chunks responses w' →
  ∀ result,
    get_drop_campaign_details_loop imports self chunks result w
    = (w', Returned (result ++ concat responses)).
Proof.
  induction 1 as [w|w chunk w1 json_data name w2 response chunks responses w'
                    Hbuild Hname Hpost Hrest IH]; intros result.
  - simpl. by rewrite app_nil_r.
  - cbn [get_drop_campaign_details_loop].
    rewrite (bind_returned _ _ _ _ _ Hbuild), (bind_returned _ _ _ _ _ Hname),
      (bind_returned _ _ _ _ _ Hpost), IH.
    simpl. by rewrite <- app_assoc.
Qed.

Lemma batch_responses_length w chunks responses w' :
  batch_responses imports self w chunks responses w' → length responses = length chunks.
Proof. induction 1 as [|? ? ? ? ? ? ? ? ? ? _ _ _ _ IH]; [done|]. simpl. by rewrite IH. Qed.

(** X18.  [get_drop_campaign_details]: if the batched calls of the outer
    loop, one per chunk of ids, return the responses [responses], the call
    returns every item of every response, in the order of the chunks and of
    the items: no chunk and no item is skipped. *)
Theorem get_drop_campaign_details_returns_all_responses campaign_ids w responses w' :
  batch_responses imports self w (create_chunks campaign_ids 20) responses w' →
  get_drop_campaign_details imports self campaign_ids w
  = (w', Returned (concat responses))
  ∧ length responses = length (create_chunks campaign_ids 20).
Proof.
  intros Hrun. split.
  - unfold get_drop_campaign_details.
    by rewrite (get_drop_campaign_details_loop_responses _ _ _ _ Hrun []).
  - by eapply batch_responses_length.
Qed.
End pagination.

(** Two pages of one follower each. *)
Lemma channel_follows_returns_all_pages_witness :
  ∃ w',
    channel_follows example_imports (example_gql pages_by_cursor) 2 100 ASC example_world
    = (w', Returned ["alice"; "bob"]).
Proof.
  eexists.
  eapply (channel_follows_returns_all_pages example_imports (example_gql pages_by_cursor)
            2 100 ASC example_world _
            [Follows.mkChannelFollowsResponse
               (Follows.mkFollowConnection
                  [Follows.mkFollowEdge (Follows.mkFollowNode "alice") "c1"]
                  (Follows.mkPageInfo true));
             Follows.mkChannelFollowsResponse
               (Follows.mkFollowConnection
                  [Follows.mkFollowEdge (Follows.mkFollowNode "bob") "c2"]
                  (Follows.mkPageInfo false))]).
  - vm_compute. reflexivity.
  - eapply follows_pages_next.
    + vm_compute. reflexivity.
    + vm_compute. reflexivity.
    + vm_compute. reflexivity.
    + reflexivity.
    + eapply follows_pages_last.
      * vm_compute. reflexivity.
      * vm_compute. reflexivity.
      * vm_compute. reflexivity.
      * reflexivity.
  - simpl. lia.
Defined.

(** One chunk of one campaign. *)
Lemma get_drop_campaign_details_returns_all_responses_witness :
  ∃ w',
    get_drop_campaign_details example_imports
      (example_gql (always_answers (JList [JList [JStr "campaign"]]))) ["drop-1"]
      example_world
    = (w', Returned [[JStr "campaign"]]).
Proof.
  eexists.
  apply (get_drop_campaign_details_returns_all_responses example_imports
           (example_gql (always_answers (JList [JList [JStr "campaign"]]))) ["drop-1"]
           example_world [[[JStr "campaign"]]]).
  eapply batch_responses_cons.
  - vm_compute. reflexivity.
  - vm_compute. reflexivity.
  - vm_compute. reflexivity.
  - apply batch_responses_nil.
Defined.

(** *** Construction *)

(** X19.  A [GQL] that [GQLFactory.create] makes for a factory without an
    [attempt_strategy] has the strategy that [AttemptStrategy()] builds from
    its own defaults, and each of its single requests is posted at least
    once and at most three times. *)
Theorem default_strategy_makes_three_attempts (imports : Imports)
    (default_parser : Parser) (requests_post : PostRequest)
    (parser : option Parser) (post_request : option PostRequest)
    (client_session : ClientSession) {T} operation_name l
    (parse : json → Exception + T) w :
  attempt_strategy
    (create default_parser requests_post (mkGQLFactory None parser post_request)
       client_session)
  = AttemptStrategy_init None None
  ∧ ∃ n,
      1 ≤ n ≤ 3
      ∧ history
          (post_gql_request_single imports
             (create default_parser requests_post (mkGQLFactory None parser post_request)
                client_session)
             operation_name l parse w).1
        = history w
            ++ replicate n
                 (Post (url imports) (deref (heap w) l)
                    (request_headers imports
                       (create default_parser requests_post
                          (mkGQLFactory None parser post_request) client_session))).
Proof.
  split; [done|].
  destruct (post_gql_request_single_world imports
              (create default_parser requests_post (mkGQLFactory None parser post_request)
                 client_session)
              operation_name l parse w) as (n & _ & Hi & Hle & Hge).
  exists n. split; [|done]. simpl in Hle, Hge. lia.
Qed.

(** *** What a call does to the outside world *)

Lemma emits_bind {A B} P (m : M A) (k : A → M B) :
  emits P m → (∀ a, emits P (k a)) → emits P (m ≫= k).
Proof.
  intros Hm Hk w. destruct (Hm w) as (evs & Hi & Hall).
  unfold mbind, M_bind. destruct (m w) as [w1 [a|e|]]; simpl in Hi; try by exists evs.
  destruct (Hk a w1) as (evs' & Hi' & Hall').
  exists (evs ++ evs'). rewrite Hi', Hi, app_assoc. split; [done|]. by apply Forall_app.
Qed.

Lemma emits_nothing {A} P (m : M A) :
  (∀ w, history (m w).1 = history w) → emits P m.
Proof. intros Hm w. exists []. by rewrite Hm, app_nil_r. Qed.

Lemma emits_ret {A} P (a : A) : emits P (mret a).
Proof. by apply emits_nothing. Qed.

Lemma emits_deepcopy P l : emits P (deepcopy l).
Proof. by apply emits_nothing. Qed.

Lemma emits_setitem P l key value : emits P (setitem l key value).
Proof.
  apply emits_nothing. intros w. unfold setitem. by destruct (deref (heap w) l).
Qed.

Lemma emits_setitem2 P l key1 key2 value : emits P (setitem2 l key1 key2 value).
Proof.
  apply emits_nothing. intros w. unfold setitem2.
  destruct (deref (heap w) l) as [| | | | | |fields]; try done.
  by destruct (dict_get key1 fields) as [[| | | | | |inner]|].
Qed.

Lemma emits_operation_name_of P l : emits P (operation_name_of l).
Proof. apply emits_nothing. intros w. by rewrite operation_name_of_world. Qed.

Section io_events.
Variable imports : Imports.
Variable self : GQL.

Lemma emits_draw_token_hex : emits (allowed_event imports self true) (draw_token_hex imports 16).
Proof. intros w. exists [TokenHex 16]. split; [done|]. by repeat constructor. Qed.

Lemma emits_post_gql_request_single {T} tokens name l (parse : json → Exception + T) :
  emits (allowed_event imports self tokens) (post_gql_request_single imports self name l parse).
Proof.
  intros w. destruct (post_gql_request_single_world imports self name l parse w)
    as (n & _ & Hi & _).
  eexists. split; [exact Hi|]. by apply Forall_replicate.
Qed.

Lemma emits_post_gql_request_batch {T} tokens name ls (parse : json → Exception + T) :
  emits (allowed_event imports self tokens) (post_gql_request_batch imports self name ls parse).
Proof.
  intros w. destruct (batch_request_outcome imports self name ls parse w)
    as (n & _ & Hi & _).
  eexists. split; [exact Hi|]. by apply Forall_replicate.
Qed.

Ltac emits_steps :=
  repeat (cbv beta;
          lazymatch goal with
          | |- emits _ (mbind _ _) => apply emits_bind; [|intros ?]
          | |- emits _ (mret _) => apply emits_ret
          | |- emits _ (deepcopy _) => apply emits_deepcopy
          | |- emits _ (setitem _ _ _) => apply emits_setitem
          | |- emits _ (setitem2 _ _ _ _) => apply emits_setitem2
          | |- emits _ (operation_name_of _) => apply emits_operation_name_of
          | |- emits _ (draw_token_hex _ _) => apply emits_draw_token_hex
          | |- emits _ (post_gql_request_single _ _ _ _ _) =>
              apply emits_post_gql_request_single
          end).

Lemma emits_channel_follows_loop fuel :
  ∀ json_data last_cursor follows,
    emits (allowed_event imports self false)
      (channel_follows_loop imports self fuel json_data last_cursor follows).
Proof.
  induction fuel as [|fuel IH]; intros json_data last_cursor follows.
  - by apply emits_nothing.
  - cbn [channel_follows_loop].
    apply emits_bind; [apply emits_setitem2|intros _].
    apply emits_bind; [apply emits_operation_name_of|intros name].
    apply emits_bind; [apply emits_post_gql_request_single|intros [page|]];
      [|apply emits_ret].
    destruct (collect_edges _ _ _) as [follows' cursor'].
    destruct (has_next_page _); [apply IH|apply emits_ret].
Qed.

Lemma emits_build_batch chunk :
  ∀ json_data, emits (allowed_event imports self false) (build_batch self chunk json_data).
Proof.
  induction chunk as [|campaign chunk IH]; intros json_data; cbn [build_batch].
  - apply emits_ret.
  - apply emits_bind; [apply emits_deepcopy|intros copy].
    apply emits_bind; [apply emits_setitem|intros _]. apply IH.
Qed.

Lemma emits_get_drop_campaign_details_loop chunks :
  ∀ result,
    emits (allowed_event imports self false)
      (get_drop_campaign_details_loop imports self chunks result).
Proof.
  induction chunks as [|chunk chunks IH]; intros result;
    cbn [get_drop_campaign_details_loop].
  - apply emits_ret.
  - apply emits_bind; [apply emits_build_batch|intros json_data].
    apply emits_bind; [apply emits_operation_name_of|intros name].
    apply emits_bind; [apply emits_post_gql_request_batch|intros response].
    apply IH.
Qed.

(** X20.  Whatever the templates are and however the call ends, every
    request that a call of a wrapper posts goes to [GQLOperations.url] and
    carries exactly the six headers [Authorization] ("OAuth " followed by
    the token of the session), [Client-Id], [Client-Session-Id],
    [Client-Version], [User-Agent] and [X-Device-Id]; and [token_hex] is
    called with 16 only, and only by [make_prediction] and
    [contribute_to_community_goal]. *)
Theorem invoke_io_events c w :
  ∃ evs,
    history (invoke imports self c w).1 = history w ++ evs
    ∧ Forall (allowed_event imports self (draws_token c)) evs.
Proof.
  revert w. change (emits (allowed_event imports self (draws_token c)) (invoke imports self c)).
  destruct c; cbn [invoke draws_token];
    unfold video_player_stream_info_overlay_channel, get_id_from_login, channel_follows,
      join_raid, get_playback_access_token, get_channel_points_context, make_prediction,
      claim_community_points, claim_moment, get_available_drops, get_inventory,
      get_viewer_drops_dashboard, get_drop_campaign_details, claim_drop_rewards,
      get_user_points_contribution, contribute_to_community_goal;
    emits_steps.
  - apply emits_channel_follows_loop.
  - apply emits_get_drop_campaign_details_loop.
Qed.
End io_events.

(** *** Instances *)

(** A response that the parser accepts. *)
Lemma post_gql_request_single_first_response_witness :
  post_gql_request_single example_imports (example_gql (always_answers (JDict [])))
    "Inventory" (template Inventory) inr example_world
  = (mkWorld (heap example_world)
       [Post (url example_imports) (example_constants Inventory)
          (request_headers example_imports (example_gql (always_answers (JDict []))))],
     Returned (JDict [])).
Proof.
  apply (post_gql_request_single_first_response example_imports
           (example_gql (always_answers (JDict []))) "Inventory" (template Inventory)
           inr example_world (mkResponse 200 "" (Some (JDict []))) (JDict [])).
  - simpl. lia.
  - reflexivity.
  - reflexivity.
  - reflexivity.
Defined.


(** The requests of a prediction of 10 points. *)
Lemma wrapper_request_body_witness :
  ∃ n,
    history (make_prediction example_imports (example_gql always_fails)
               "event" "outcome" 10 example_world).1
    = [TokenHex 16]
        ++ replicate n
             (Post (url example_imports)
                (JDict [("operationName", JStr "MakePrediction");
                        ("variables",
                         JDict [("input",
                                 JDict [("eventID", JStr "event");
                                        ("outcomeID", JStr "outcome");
                                        ("points", JInt 10);
                                        ("transactionID",
                                         JStr "000102030405060708090a0b0c0d0e0f")])])])
                (request_headers example_imports (example_gql always_fails)))
    ∧ 1 ≤ n.
Proof.
  destruct (wrapper_request_body example_imports (example_gql always_fails)
              (call_make_prediction "event" "outcome" 10) example_world
              [("operationName", JStr "MakePrediction"); ("variables", JDict [])]
              "MakePrediction"
              (JDict [("input",
                       JDict [("eventID", JStr "event");
                              ("outcomeID", JStr "outcome");
                              ("points", JInt 10);
                              ("transactionID",
                               JStr "000102030405060708090a0b0c0d0e0f")])]))
    as (n & _ & Hi & _ & Hge).
  - vm_compute. reflexivity.
  - reflexivity.
  - reflexivity.
  - exists n. split; [exact Hi|]. apply Hge. simpl. lia.
Defined.

(** The requests for the id of [alice]. *)
Lemma get_id_from_login_merges_login_witness :
  ∃ n,
    history (get_id_from_login example_imports (example_gql always_fails)
               "alice" example_world).1
    = replicate n
        (Post (url example_imports)
           (JDict [("operationName", JStr "GetIDFromLogin");
                   ("variables", JDict [("login", JStr "alice")])])
           (request_headers example_imports (example_gql always_fails)))
    ∧ 1 ≤ n.
Proof.
  destruct (get_id_from_login_merges_login example_imports (example_gql always_fails)
              "alice" example_world
              [("operationName", JStr "GetIDFromLogin"); ("variables", JDict [])]
              "GetIDFromLogin" [])
    as (n & _ & Hi & _ & Hge).
  - vm_compute. reflexivity.
  - reflexivity.
  - reflexivity.
  - exists n. split; [exact Hi|]. apply Hge. simpl. lia.
Defined.

(** A template that has only its [operationName]. *)
Lemma get_id_from_login_needs_variables_witness :
  get_id_from_login example_imports (example_gql (always_answers (JDict []))) "alice"
    (mkWorld (initial_heap bare_constants) [])
  = (mkWorld (<[fresh (dom (initial_heap bare_constants))
                := bare_constants GetIDFromLogin]> (initial_heap bare_constants)) [],
     Raised (OtherException "KeyError")).
Proof.
  apply (get_id_from_login_needs_variables example_imports
           (example_gql (always_answers (JDict []))) "alice"
           (mkWorld (initial_heap bare_constants) [])
           [("operationName", JStr "GetIDFromLogin")]).
  - vm_compute. reflexivity.
  - intros variables. simpl. discriminate.
Defined.

(** The requests for two campaigns. *)
Lemma build_batch_requests_witness :
  ∃ w' copies,
    build_batch (example_gql always_fails) ["drop-1"; "drop-2"] [] example_world
    = (w', Returned copies)
    ∧ deref (heap w') <$> copies
      = [JDict [("operationName", JStr "DropCampaignDetails");
                ("variables",
                 JDict [("dropID", JStr "drop-1"); ("channelLogin", JStr "1234")])];
         JDict [("operationName", JStr "DropCampaignDetails");
                ("variables",
                 JDict [("dropID", JStr "drop-2"); ("channelLogin", JStr "1234")])]]
    ∧ NoDup copies.
Proof.
  destruct (build_batch_requests (example_gql always_fails) ["drop-1"; "drop-2"] []
              example_world
              [("operationName", JStr "DropCampaignDetails"); ("variables", JDict [])])
    as (w' & copies & Hrun & _ & Hbodies & Hnd & _).
  - vm_compute. reflexivity.
  - exists w', copies. split; [exact Hrun|]. split; [exact Hbodies|exact Hnd].
Defined.


(** A batched response whose only element is [null]. *)
Lemma post_gql_request_batch_first_response_witness :
  post_gql_request_batch example_imports (example_gql (always_answers (JList [JNull])))
    "DropCampaignDetails" [template DropCampaignDetails] inr example_world
  = (mkWorld (heap example_world)
       [Post (url example_imports) (JList [example_constants DropCampaignDetails])
          (request_headers example_imports
             (example_gql (always_answers (JList [JNull]))))],
     Raised (GQLException
               (RetryError "DropCampaignDetails"
                  [mkExceptionContext
                     (GQLException (InvalidJsonShapeException [] "list expected"))
                     None]))).
Proof.
  destruct (post_gql_request_batch_first_response example_imports
              (example_gql (always_answers (JList [JNull])))
              "DropCampaignDetails" [template DropCampaignDetails]
              (inr : json → Exception + json) example_world
              (mkResponse 200 "" (Some (JList [JNull]))) [JNull])
    as [_ Hfails].
  - simpl. lia.
  - reflexivity.
  - reflexivity.
  - reflexivity.
  - apply (Hfails [] [] JNull []).
    + reflexivity.
    + constructor.
    + intros elements. discriminate.
Defined.
